(** * Legal-summarizer backend: metadata extraction

    A shallow embedding of the text-processing core of
    [legal-summarizer/backend/main.py]: text normalisation, date parsing,
    date extraction and classification, citation extraction, the case
    timeline and the case-status heuristic, followed by the properties the
    specification states about them.

    Python strings are sequences of Unicode code points and are modelled as
    lists of code points.  The regular expressions of the source are written
    as syntax trees and run by a backtracking matcher that follows the
    priorities of Python's [re] module (ordered alternation, greedy
    quantifiers, leftmost match, non-overlapping scans). *)

From Stdlib Require Import String Ascii NArith ZArith Bool Arith Lia.
From Stdlib Require Import List Sorting.Sorted Permutation.
Import ListNotations.

Set Implicit Arguments.

(* ================================================================== *)
(** ** Strings *)

(** A Python [str]: a list of code points. *)
Definition pystr := list N.

(** Literals of the source that are plain ASCII are written as Rocq strings. *)
Definition s2u (s : string) : pystr :=
  map (fun a => N.of_nat (nat_of_ascii a)) (list_ascii_of_string s).

Fixpoint pystr_eqb (a b : pystr) : bool :=
  match a, b with
  | [], [] => true
  | x :: a', y :: b' => N.eqb x y && pystr_eqb a' b'
  | _, _ => false
  end.

(** [Py_UNICODE_ISSPACE]: the code points that [str.isspace], [str.strip]
    and the pattern [\s] treat as whitespace. *)
Definition is_space (c : N) : bool :=
  ((9 <=? c) && (c <=? 13) || (28 <=? c) && (c <=? 32) ||
   (c =? 133) || (c =? 160) || (c =? 5760) ||
   (8192 <=? c) && (c <=? 8202) ||
   (c =? 8232) || (c =? 8233) || (c =? 8239) || (c =? 8287) ||
   (c =? 12288))%N.

(** The part of the Unicode character database the program consults
    outside ASCII.  The ASCII part of every table is fixed below; the rest
    is whatever the Python runtime ships, and the development holds for
    every such table. *)
Record unicode := {
  (** [str.isalnum] on a code point above 127 (for [\w] and [\b]) *)
  uc_alnum : N -> bool;
  (** the value of a decimal digit (category Nd) above 127 (for [\d], [int]) *)
  uc_decimal : N -> option N;
  (** [str.lower] of a string that is not pure ASCII *)
  uc_lower : pystr -> pystr
}.

Definition is_ascii (c : N) : bool := (c <? 128)%N.

Definition ascii_lower (c : N) : N :=
  if ((65 <=? c) && (c <=? 90))%N then (c + 32)%N else c.

Definition ascii_upper (c : N) : N :=
  if ((97 <=? c) && (c <=? 122))%N then (c - 32)%N else c.

Definition ascii_alnum (c : N) : bool :=
  ((48 <=? c) && (c <=? 57) || (65 <=? c) && (c <=? 90) ||
   (97 <=? c) && (c <=? 122))%N.

(** Value of a decimal digit, as [\d] and [int] see it. *)
Definition decimal (U : unicode) (c : N) : option N :=
  if is_ascii c then
    if ((48 <=? c) && (c <=? 57))%N then Some (c - 48)%N else None
  else uc_decimal U c.

Definition is_decimal (U : unicode) (c : N) : bool :=
  match decimal U c with Some _ => true | None => false end.

(** [\w]: alphanumeric or underscore. *)
Definition is_word (U : unicode) (c : N) : bool :=
  if is_ascii c then ascii_alnum c || (c =? 95)%N else uc_alnum U c.

(** [str.lower]. *)
Definition py_lower (U : unicode) (s : pystr) : pystr :=
  if forallb is_ascii s then map ascii_lower s else uc_lower U s.

(** Case folding of the text character under [re.IGNORECASE], restricted to
    what can meet an ASCII pattern: besides the 52 ASCII letters, exactly
    four code points match an ASCII letter (U+0130 and U+0131 match [i],
    U+017F matches [s], U+212A matches [k]). *)
Definition sre_fold (c : N) : N :=
  if ((65 <=? c) && (c <=? 90))%N then (c + 32)%N
  else if ((c =? 304) || (c =? 305))%N then 105%N
  else if (c =? 383)%N then 115%N
  else if (c =? 8490)%N then 107%N
  else c.

(** [str.replace(old, new)] for a one-character [old]. *)
Definition replace_char (old : N) (new : pystr) (s : pystr) : pystr :=
  flat_map (fun c => if (c =? old)%N then new else [c]) s.

Fixpoint lstrip (s : pystr) : pystr :=
  match s with
  | c :: s' => if is_space c then lstrip s' else s
  | [] => []
  end.

(** [str.strip()] *)
Definition strip (s : pystr) : pystr := rev (lstrip (rev (lstrip s))).

Fixpoint starts_with (p s : pystr) : bool :=
  match p, s with
  | [], _ => true
  | x :: p', y :: s' => (x =? y)%N && starts_with p' s'
  | _ :: _, [] => false
  end.

(** [needle in hay] *)
Fixpoint contains (needle hay : pystr) : bool :=
  starts_with needle hay ||
  match hay with
  | [] => false
  | _ :: hay' => contains needle hay'
  end.

(** [s[start:stop]] for non-negative bounds. *)
Definition slice (s : pystr) (start stop : nat) : pystr :=
  firstn (stop - start) (skipn start s).

(* ================================================================== *)
(** ** Regular expressions *)

Inductive citem :=
| CChr (c : N)            (* a literal character *)
| CRng (lo hi : N)        (* a range lo-hi *)
| CSpc                    (* \s *)
| CDig.                   (* \d *)

Definition cclass := list citem.

Inductive regex :=
| REps
| RSet (cs : cclass)                           (* one character of a class *)
| RSeq (a b : regex)
| RAlt (a b : regex)                           (* a|b, a tried first *)
| ROpt (a : regex)                             (* a?  (greedy) *)
| RRep (lo : nat) (hi : option nat) (cs : cclass)
                                               (* x{lo,hi} on a class, greedy *)
| RGrp (g : nat) (a : regex)                   (* capturing group number g *)
| RWordB                                       (* \b *)
| RBol                                         (* ^ *)
| REol.                                        (* $ *)

Definition in_rng (lo hi c : N) : bool := ((lo <=? c) && (c <=? hi))%N.

Definition item_has (U : unicode) (ic : bool) (it : citem) (c : N) : bool :=
  match it with
  | CChr x => if ic then (sre_fold c =? sre_fold x)%N else (c =? x)%N
  | CRng lo hi =>
      if ic then in_rng lo hi (sre_fold c) || in_rng lo hi (ascii_upper (sre_fold c))
      else in_rng lo hi c
  | CSpc => is_space c
  | CDig => is_decimal U c
  end.

Definition in_class (U : unicode) (ic : bool) (cs : cclass) (c : N) : bool :=
  existsb (fun it => item_has U ic it c) cs.

(** The state of a match attempt: the character before the current
    position, the text from the current position on, the position and the
    groups captured so far. *)
Record mstate := {
  st_prev : option N;
  st_rest : pystr;
  st_pos : nat;
  st_caps : list (nat * pystr)
}.

Definition opt_word (U : unicode) (o : option N) : bool :=
  match o with Some c => is_word U c | None => false end.

Definition at_word_boundary (U : unicode) (s : mstate) : bool :=
  xorb (opt_word U (st_prev s)) (opt_word U (hd_error (st_rest s))).

Definition hi_allows (hi : option nat) : bool :=
  match hi with Some O => false | _ => true end.

Definition hi_pred (hi : option nat) : option nat :=
  match hi with Some n => Some (pred n) | None => None end.

Section Matcher.
Variable U : unicode.
Variable ic : bool.          (* re.IGNORECASE *)
Variable A : Type.

(** Greedy repetition of a character class: take as many characters as
    allowed, and give them back one at a time while the rest of the
    pattern fails. *)
Fixpoint rep_greedy (cs : cclass) (lo : nat) (hi : option nat)
    (prev : option N) (rest : pystr) (pos : nat) (caps : list (nat * pystr))
    (k : mstate -> option A) {struct rest} : option A :=
  let stop :=
    match lo with
    | O => k {| st_prev := prev; st_rest := rest; st_pos := pos; st_caps := caps |}
    | S _ => None
    end in
  match rest with
  | [] => stop
  | c :: rest' =>
      if hi_allows hi && in_class U ic cs c then
        match rep_greedy cs (pred lo) (hi_pred hi) (Some c) rest' (S pos) caps k with
        | Some r => Some r
        | None => stop
        end
      else stop
  end.

Fixpoint rmatch (r : regex) (s : mstate) (k : mstate -> option A) : option A :=
  match r with
  | REps => k s
  | RSet cs =>
      match st_rest s with
      | c :: rest' =>
          if in_class U ic cs c then
            k {| st_prev := Some c; st_rest := rest';
                 st_pos := S (st_pos s); st_caps := st_caps s |}
          else None
      | [] => None
      end
  | RSeq a b => rmatch a s (fun s' => rmatch b s' k)
  | RAlt a b =>
      match rmatch a s k with
      | Some x => Some x
      | None => rmatch b s k
      end
  | ROpt a =>
      match rmatch a s k with
      | Some x => Some x
      | None => k s
      end
  | RRep lo hi cs =>
      rep_greedy cs lo hi (st_prev s) (st_rest s) (st_pos s) (st_caps s) k
  | RGrp g a =>
      rmatch a s (fun s' =>
        k {| st_prev := st_prev s'; st_rest := st_rest s'; st_pos := st_pos s';
             st_caps := (g, firstn (st_pos s' - st_pos s) (st_rest s)) :: st_caps s' |})
  | RWordB => if at_word_boundary U s then k s else None
  | RBol => match st_pos s with O => k s | S _ => None end
  | REol =>
      match st_rest s with
      | [] => k s
      | [c] => if (c =? 10)%N then k s else None
      | _ => None
      end
  end.
End Matcher.

(** A match object. *)
Record rematch := {
  m_start : nat;
  m_end : nat;
  m_text : pystr;                  (* group(0) *)
  m_caps : list (nat * pystr)
}.

Definition m_len (m : rematch) : nat := m_end m - m_start m.

(** [m.group(g)]: [None] for a group that did not take part in the match. *)
Fixpoint lookup_cap (g : nat) (caps : list (nat * pystr)) : option pystr :=
  match caps with
  | [] => None
  | (g', v) :: caps' => if Nat.eqb g g' then Some v else lookup_cap g caps'
  end.

Definition group (m : rematch) (g : nat) : option pystr := lookup_cap g (m_caps m).

(** Truth value of [m.group(g)]: a group that matched a non-empty string. *)
Definition truthy (o : option pystr) : bool :=
  match o with Some (_ :: _) => true | _ => false end.

Definition group_or_empty (m : rematch) (g : nat) : pystr :=
  match group m g with Some v => v | None => [] end.

(** One match attempt at a given position. *)
Definition match_at (U : unicode) (ic : bool) (r : regex)
    (prev : option N) (rest : pystr) (pos : nat) : option rematch :=
  rmatch U ic r
    {| st_prev := prev; st_rest := rest; st_pos := pos; st_caps := [] |}
    (fun s' => Some {| m_start := pos; m_end := st_pos s';
                       m_text := firstn (st_pos s' - pos) rest;
                       m_caps := st_caps s' |}).

(** [re.match]: an attempt at the start of the string only. *)
Definition re_match (U : unicode) (ic : bool) (r : regex) (text : pystr)
  : option rematch := match_at U ic r None text 0.

Section Scan.
Variable U : unicode.
Variable ic : bool.
Variable r : regex.

(** [re.search]: the leftmost match. *)
Fixpoint search_from (prev : option N) (rest : pystr) (pos : nat)
  : option rematch :=
  match match_at U ic r prev rest pos with
  | Some m => Some m
  | None =>
      match rest with
      | [] => None
      | c :: rest' => search_from (Some c) rest' (S pos)
      end
  end.

(** [re.finditer]: leftmost non-overlapping matches.  [skip] counts the
    characters of the current match still to be stepped over. *)
Fixpoint finditer_from (prev : option N) (rest : pystr) (pos skip : nat)
  {struct rest} : list rematch :=
  match skip with
  | S sk =>
      match rest with
      | [] => []
      | c :: rest' => finditer_from (Some c) rest' (S pos) sk
      end
  | O =>
      match match_at U ic r prev rest pos with
      | Some m =>
          m :: match rest with
               | [] => []
               | c :: rest' => finditer_from (Some c) rest' (S pos) (pred (m_len m))
               end
      | None =>
          match rest with
          | [] => []
          | c :: rest' => finditer_from (Some c) rest' (S pos) 0
          end
      end
  end.

(** [re.sub] with the replacement computed from the match. *)
Fixpoint sub_from (repl : rematch -> pystr) (prev : option N) (rest : pystr)
    (pos skip : nat) {struct rest} : pystr :=
  match skip with
  | S sk =>
      match rest with
      | [] => []
      | c :: rest' => sub_from repl (Some c) rest' (S pos) sk
      end
  | O =>
      match match_at U ic r prev rest pos with
      | Some m =>
          repl m ++
          match rest with
          | [] => []
          | c :: rest' =>
              match m_len m with
              | O => c :: sub_from repl (Some c) rest' (S pos) 0
              | S n => sub_from repl (Some c) rest' (S pos) n
              end
          end
      | None =>
          match rest with
          | [] => []
          | c :: rest' => c :: sub_from repl (Some c) rest' (S pos) 0
          end
      end
  end.

(** [re.split] for a pattern without groups; [cur] is the piece being
    collected, in reverse. *)
Fixpoint split_from (prev : option N) (rest : pystr) (pos skip : nat)
    (cur : pystr) {struct rest} : list pystr :=
  match skip with
  | S sk =>
      match rest with
      | [] => [rev cur]
      | c :: rest' => split_from (Some c) rest' (S pos) sk cur
      end
  | O =>
      match rest with
      | [] => [rev cur]
      | c :: rest' =>
          match match_at U ic r prev rest pos with
          | Some m =>
              match m_len m with
              | O => split_from (Some c) rest' (S pos) 0 (c :: cur)
              | S n => rev cur :: split_from (Some c) rest' (S pos) n []
              end
          | None => split_from (Some c) rest' (S pos) 0 (c :: cur)
          end
      end
  end.
End Scan.

Definition re_search U ic r (text : pystr) : option rematch :=
  search_from U ic r None text 0.

Definition re_finditer U ic r (text : pystr) : list rematch :=
  finditer_from U ic r None text 0 0.

Definition re_sub U ic r (repl : rematch -> pystr) (text : pystr) : pystr :=
  sub_from U ic r repl None text 0 0.

Definition re_split U ic r (text : pystr) : list pystr :=
  split_from U ic r None text 0 0 [].

(** Pattern builders. *)
Definition chr (c : N) : regex := RSet [CChr c].

Fixpoint lit_u (s : pystr) : regex :=
  match s with
  | [] => REps
  | [c] => chr c
  | c :: s' => RSeq (chr c) (lit_u s')
  end.

Definition lit (s : string) : regex := lit_u (s2u s).

Fixpoint seqs (rs : list regex) : regex :=
  match rs with
  | [] => REps
  | [r] => r
  | r :: rs' => RSeq r (seqs rs')
  end.

Fixpoint alts (rs : list regex) : regex :=
  match rs with
  | [] => REps
  | [r] => r
  | r :: rs' => RAlt r (alts rs')
  end.

Definition star (cs : cclass) : regex := RRep 0 None cs.
Definition plus (cs : cclass) : regex := RRep 1 None cs.
Definition ws_star : regex := star [CSpc].
Definition ws_plus : regex := plus [CSpc].
Definition digits (lo hi : nat) : regex := RRep lo (Some hi) [CDig].

(* ================================================================== *)
(** ** Calendar dates ([datetime.date]) *)

Record date := { year : N; month : N; day : N }.

Definition is_leap (y : N) : bool :=
  ((y mod 4 =? 0) && (negb (y mod 100 =? 0) || (y mod 400 =? 0)))%N.

Definition days_in_month (y m : N) : N :=
  match m with
  | 2 => if is_leap y then 29 else 28
  | 4 | 6 | 9 | 11 => 30
  | _ => 31
  end%N.

Definition valid_ymd (y m d : N) : bool :=
  ((1 <=? y) && (y <=? 9999) && (1 <=? m) && (m <=? 12) &&
   (1 <=? d) && (d <=? days_in_month y m))%N.

(** The constructor [date(y, m, d)]; [None] stands for its [ValueError]. *)
Definition make_date (y m d : N) : option date :=
  if valid_ymd y m d then Some {| year := y; month := m; day := d |} else None.

Definition valid_date (d : date) : bool := valid_ymd (year d) (month d) (day d).

Definition date_compare (a b : date) : comparison :=
  match (year a ?= year b)%N with
  | Eq => match (month a ?= month b)%N with
          | Eq => (day a ?= day b)%N
          | c => c
          end
  | c => c
  end.

Definition date_eqb (a b : date) : bool :=
  match date_compare a b with Eq => true | _ => false end.
Definition date_ltb (a b : date) : bool :=
  match date_compare a b with Lt => true | _ => false end.
Definition date_leb (a b : date) : bool :=
  match date_compare a b with Gt => false | _ => true end.

(** [sorted(set(l))] on dates: duplicates removed, then ascending order.
    The iteration order of the set does not matter, the elements being
    distinct. *)
Fixpoint date_mem (d : date) (l : list date) : bool :=
  match l with
  | [] => false
  | x :: l' => date_eqb d x || date_mem d l'
  end.

Fixpoint date_set (l : list date) : list date :=
  match l with
  | [] => []
  | x :: l' => if date_mem x l' then date_set l' else x :: date_set l'
  end.

Section StableSort.
Variable T : Type.
Variable key : T -> date.

Fixpoint insert_by (x : T) (l : list T) : list T :=
  match l with
  | [] => [x]
  | y :: l' =>
      if date_leb (key x) (key y) then x :: l else y :: insert_by x l'
  end.

(** [sorted(l, key=key)] and [l.sort(key=key)]: a stable sort. *)
Fixpoint sort_by (l : list T) : list T :=
  match l with
  | [] => []
  | x :: l' => insert_by x (sort_by l')
  end.
End StableSort.

Definition sorted_dates (l : list date) : list date := sort_by (fun d => d) l.

(* ================================================================== *)
(** ** [strptime] and [strftime] for the directives the program uses *)

Definition full_months : list string :=
  ["january"; "february"; "march"; "april"; "may"; "june"; "july"; "august";
   "september"; "october"; "november"; "december"]%string.

Definition abbr_months : list string :=
  ["jan"; "feb"; "mar"; "apr"; "may"; "jun"; "jul"; "aug"; "sep"; "oct";
   "nov"; "dec"]%string.

Definition month_names : list string :=
  ["January"; "February"; "March"; "April"; "May"; "June"; "July"; "August";
   "September"; "October"; "November"; "December"]%string.

(** Group numbers for the named groups of the directive patterns. *)
Definition G_d := 1.
Definition G_m := 2.
Definition G_Y := 3.
Definition G_B := 4.
Definition G_b := 5.

Definition d19 : cclass := [CRng 49 57].

(** [(?P<d>3[0-1]|[1-2]\d|0[1-9]|[1-9]| [1-9])] *)
Definition re_d : regex :=
  RGrp G_d (alts [RSeq (chr 51) (RSet [CRng 48 49]);
                  RSeq (RSet [CRng 49 50]) (RSet [CDig]);
                  RSeq (chr 48) (RSet d19);
                  RSet d19;
                  RSeq (chr 32) (RSet d19)]).

(** [(?P<m>1[0-2]|0[1-9]|[1-9])] *)
Definition re_m : regex :=
  RGrp G_m (alts [RSeq (chr 49) (RSet [CRng 48 50]);
                  RSeq (chr 48) (RSet d19);
                  RSet d19]).

(** [(?P<Y>\d\d\d\d)] *)
Definition re_Y : regex :=
  RGrp G_Y (seqs [RSet [CDig]; RSet [CDig]; RSet [CDig]; RSet [CDig]]).

(** [(?P<B>september|february|...|may)]: the names, longest first. *)
Definition re_B : regex :=
  RGrp G_B (alts (map lit ["september"; "february"; "november"; "december";
                           "january"; "october"; "august"; "march"; "april";
                           "june"; "july"; "may"]%string)).

(** [(?P<b>jan|feb|...|dec)] *)
Definition re_b : regex := RGrp G_b (alts (map lit abbr_months)).

Definition directive (c : N) : regex :=
  match c with
  | 100 => re_d      (* %d *)
  | 109 => re_m      (* %m *)
  | 89 => re_Y       (* %Y *)
  | 66 => re_B       (* %B *)
  | 98 => re_b       (* %b *)
  | _ => RSet []     (* not used by the program: no match *)
  end%N.

(** The pattern of a format: directives become their patterns, a run of
    whitespace becomes [\s+], any other character stands for itself. *)
Fixpoint format_regexes (pct in_ws : bool) (fmt : pystr) : list regex :=
  match fmt with
  | [] => []
  | c :: fmt' =>
      if pct then directive c :: format_regexes false false fmt'
      else if (c =? 37)%N then format_regexes true false fmt'
      else if is_space c then
        (if in_ws then [] else [ws_plus]) ++ format_regexes false true fmt'
      else chr c :: format_regexes false false fmt'
  end.

Definition format_regex (fmt : pystr) : regex :=
  seqs (format_regexes false false fmt).

(** [int(s)] on a string of decimal digits, with surrounding whitespace
    ignored. *)
Fixpoint int_digits (U : unicode) (acc : N) (s : pystr) : option N :=
  match s with
  | [] => Some acc
  | c :: s' =>
      match decimal U c with
      | Some v => int_digits U (acc * 10 + v)%N s'
      | None => None
      end
  end.

Definition py_int (U : unicode) (s : pystr) : option N :=
  match strip s with
  | [] => None
  | digits => int_digits U 0%N digits
  end.

(** [names.index(s)], counted from 1; [None] stands for its [ValueError]. *)
Fixpoint index_of (s : pystr) (names : list string) (i : N) : option N :=
  match names with
  | [] => None
  | n :: names' => if pystr_eqb s (s2u n) then Some i else index_of s names' (i + 1)%N
  end.

Definition opt_bind {A B} (o : option A) (f : A -> option B) : option B :=
  match o with Some a => f a | None => None end.

(** [datetime.strptime(ds, fmt).date()]; [None] stands for [ValueError].
    The whole of [ds] must be consumed by the first match of the pattern. *)
Definition strptime (U : unicode) (ds fmt : pystr) : option date :=
  match re_match U true (format_regex fmt) ds with
  | None => None
  | Some m =>
      if Nat.eqb (m_end m) (length ds) then
        let y := match group m G_Y with
                 | Some v => py_int U v
                 | None => Some 1900%N
                 end in
        let mo := match group m G_m, group m G_B, group m G_b with
                  | Some v, _, _ => py_int U v
                  | None, Some v, _ => index_of (py_lower U v) full_months 1
                  | None, None, Some v => index_of (py_lower U v) abbr_months 1
                  | None, None, None => Some 1%N
                  end in
        let d := match group m G_d with
                 | Some v => py_int U v
                 | None => Some 1%N
                 end in
        opt_bind y (fun y => opt_bind mo (fun mo => opt_bind d (fun d =>
          make_date y mo d)))
      else None
  end.

Definition digit_char (n : N) : N := (48 + n mod 10)%N.
Definition two_digits (n : N) : pystr := [digit_char (n / 10); digit_char n].
Definition four_digits (n : N) : pystr :=
  [digit_char (n / 1000); digit_char (n / 100); digit_char (n / 10); digit_char n].

Definition month_name (m : N) : pystr :=
  s2u (nth (N.to_nat m - 1) month_names ""%string).

(** [d.strftime(fmt)]: [%d] a two-digit day, [%B] the full English month
    name, [%Y] the year with century.  The digits of [%Y] are those of the
    platform's C library: for a year from 1000 on they are the four digits
    of the year everywhere; for a year below 1000 some libraries pad to
    four digits (0999) and others, that of Linux among them, do not (999).
    The model pads, so for a year below 1000 it gives the output of the
    padding platforms only. *)
Fixpoint strftime_from (d : date) (pct : bool) (fmt : pystr) : pystr :=
  match fmt with
  | [] => []
  | c :: fmt' =>
      if pct then
        match c with
        | 100 => two_digits (day d)
        | 109 => two_digits (month d)
        | 89 => four_digits (year d)
        | 66 => month_name (month d)
        | 98 => firstn 3 (month_name (month d))
        | _ => [37; c]
        end%N ++ strftime_from d false fmt'
      else if (c =? 37)%N then strftime_from d true fmt'
      else c :: strftime_from d false fmt'
  end.

Definition strftime (d : date) (fmt : pystr) : pystr := strftime_from d false fmt.

(* ================================================================== *)
(** ** The wall clock *)

(** [datetime.now()] is the only effect of the core: the world holds the
    successive readings of the clock and counts the readings made. *)
Record world := { wall_clock : nat -> date; reads : nat }.

Definition M (A : Type) : Type := world -> A * world.

Definition ret {A} (a : A) : M A := fun w => (a, w).

Definition bind {A B} (m : M A) (f : A -> M B) : M B :=
  fun w => let (a, w') := m w in f a w'.

Notation "x <- m ;; f" := (bind m (fun x => f))
  (at level 61, m at next level, right associativity).

(** [datetime.now().date()] *)
Definition now_date : M date :=
  fun w => (wall_clock w (reads w),
            {| wall_clock := wall_clock w; reads := S (reads w) |}).

(** A clock that shows the same date at every reading. *)
Definition frozen (R : date) : world := {| wall_clock := fun _ => R; reads := 0 |}.

(* ================================================================== *)
(** ** Text normalisation *)

(** [[ \t]+] *)
Definition blank_run : regex := plus [CChr 32; CChr 9].

(** [\s*\n\s*] *)
Definition line_break_run : regex := seqs [ws_star; chr 10; ws_star].

Definition _normalize_text (U : unicode) (text : pystr) : pystr :=
  let clean :=
    replace_char 8210 [45%N]          (* figure dash *)
      (replace_char 8212 [45%N]       (* em dash *)
        (replace_char 8211 [45%N]     (* en dash *)
          (replace_char 160 [32%N] text))) in
  let clean := re_sub U false blank_run (fun _ => [32%N]) clean in
  let clean := re_sub U false line_break_run (fun _ => [10%N]) clean in
  strip clean.

(* ================================================================== *)
(** ** Date utilities *)

Definition fmts : list pystr :=
  map s2u ["%d %B %Y"; "%B %d %Y";
           "%d %b %Y"; "%b %d %Y";
           "%B %Y"; "%b %Y";
           "%Y-%m-%d";
           "%d/%m/%Y"; "%m/%d/%Y";
           "%d-%m-%Y"; "%m-%d-%Y";
           "%d.%m.%Y"; "%m.%d.%Y"]%string.

Fixpoint first_parse (U : unicode) (ds : pystr) (fs : list pystr) : option date :=
  match fs with
  | [] => None
  | f :: fs' =>
      match strptime U ds f with
      | Some d => Some d
      | None => first_parse U ds fs'
      end
  end.

Definition _parse_one_date (U : unicode) (ds : pystr) : option date :=
  let ds := strip (replace_char 44 [32%N] ds) in
  first_parse U ds fmts.

Definition opt_list {A} (o : option A) : list A :=
  match o with Some a => [a] | None => [] end.

Definition _expand_range (U : unicode) (mo d1 d2 yr : pystr) : list date :=
  let left := mo ++ [32%N] ++ d1 ++ [32%N] ++ yr in
  let right := mo ++ [32%N] ++ d2 ++ [32%N] ++ yr in
  let d_left := _parse_one_date U left in
  let d_right := _parse_one_date U right in
  opt_list d_left ++ opt_list d_right.

(* ================================================================== *)
(** ** Extraction and classification of dates *)

Definition MONTHS : regex :=
  alts [RSeq (lit "Jan") (ROpt (lit "uary"));
        RSeq (lit "Feb") (ROpt (lit "ruary"));
        RSeq (lit "Mar") (ROpt (lit "ch"));
        RSeq (lit "Apr") (ROpt (lit "il"));
        lit "May";
        RSeq (lit "Jun") (ROpt (lit "e"));
        RSeq (lit "Jul") (ROpt (lit "y"));
        RSeq (lit "Aug") (ROpt (lit "ust"));
        RSeq (lit "Sep") (ROpt (RSeq (lit "t") (ROpt (lit "ember"))));
        RSeq (lit "Oct") (ROpt (lit "ober"));
        RSeq (lit "Nov") (ROpt (lit "ember"));
        RSeq (lit "Dec") (ROpt (lit "ember"))].

(** 1) ranges, with the month, the two days and the year in groups 2 to 5 *)
Definition rng : regex :=
  seqs [RWordB; RGrp 2 MONTHS; ws_plus; RGrp 3 (digits 1 2); ws_star;
        RSet [CChr 8211; CChr 45]; ws_star; RGrp 4 (digits 1 2); chr 44;
        ws_star; RGrp 5 (digits 4 4); RWordB].

(** 2) full dates *)
Definition full1 : regex :=
  seqs [RWordB; digits 1 2; ws_plus; MONTHS; ws_plus; digits 4 4; RWordB].
Definition full2 : regex :=
  seqs [RWordB; MONTHS; ws_plus; digits 1 2; chr 44; ws_star; digits 4 4; RWordB].

(** 3) month and year *)
Definition my : regex := seqs [RWordB; MONTHS; ws_plus; digits 4 4; RWordB].

(** 4) ISO and numeric dates *)
Definition iso : regex :=
  seqs [RWordB; digits 4 4; chr 45; digits 2 2; chr 45; digits 2 2; RWordB].
Definition num_sep : cclass := [CChr 47; CChr 46; CChr 45].
Definition num : regex :=
  seqs [RWordB; digits 1 2; RSet num_sep; digits 1 2; RSet num_sep;
        digits 2 4; RWordB].

Definition date_pattern : regex :=
  alts [RGrp 1 rng; RGrp 6 full1; RGrp 7 full2; RGrp 8 my; RGrp 9 iso; RGrp 10 num].

(** [(\d+)(st|nd|rd|th)] *)
Definition ordinal_re : regex :=
  RSeq (RGrp 1 (plus [CDig]))
       (RGrp 2 (alts [lit "st"; lit "nd"; lit "rd"; lit "th"])).

(** The dates of one match of [date_pattern]. *)
Definition dates_of_match (U : unicode) (m : rematch) : list date :=
  if truthy (group m 2) && truthy (group m 3) && truthy (group m 4)
     && truthy (group m 5) then
    _expand_range U (group_or_empty m 2) (group_or_empty m 3)
                    (group_or_empty m 4) (group_or_empty m 5)
  else
    let raw := m_text m in
    let raw := re_sub U true ordinal_re (fun m' => group_or_empty m' 1) raw in
    let raw := replace_char 44 [32%N] raw in
    opt_list (_parse_one_date U raw).

(** The list [found_dates] at the end of the loop over the matches. *)
Definition found_dates (U : unicode) (clean : pystr) : list date :=
  flat_map (dates_of_match U) (re_finditer U true date_pattern clean).

Definition pretty_fmt : pystr := s2u "%d %B %Y".
Definition pretty (d : date) : pystr := strftime d pretty_fmt.

Record bucket := { count : nat; items : list pystr }.

Record dates_info := {
  all_unique_sorted : list pystr;
  past : bucket;
  upcoming : bucket;
  total_unique : nat
}.

(** [sorted(set(found_dates))] for a text. *)
Definition unique_sorted_dates (U : unicode) (text : pystr) : list date :=
  sorted_dates (date_set (found_dates U (_normalize_text U text))).

Definition extract_and_classify_dates (U : unicode) (text : pystr) : M dates_info :=
  let unique_sorted := unique_sorted_dates U text in
  today <- now_date ;;
  let past := filter (fun d => date_ltb d today) unique_sorted in
  let upcoming := filter (fun d => date_leb today d) unique_sorted in
  let pretty_all := map pretty unique_sorted in
  let pretty_past := map pretty past in
  let pretty_upcoming := map pretty upcoming in
  ret {| all_unique_sorted := pretty_all;
         past := {| count := length past; items := pretty_past |};
         upcoming := {| count := length upcoming; items := pretty_upcoming |};
         total_unique := length unique_sorted |}.

(* ================================================================== *)
(** ** Sections invoked *)

Definition ACTS_A : regex :=
  alts [lit "IPC"; lit "CrPC"; lit "CPC";
        seqs [lit "NI"; ws_star; lit "Act"];
        seqs [lit "IT"; ws_star; lit "Act"];
        seqs [lit "Evidence"; ws_star; lit "Act"];
        lit "PMLA"; lit "NDPS";
        seqs [lit "Arms"; ws_star; lit "Act"];
        seqs [lit "PC"; ws_star; lit "Act"];
        lit "POCSO";
        seqs [lit "Companies"; ws_star; lit "Act"];
        seqs [lit "Motor"; ws_star; lit "Vehicles"; ws_star; lit "Act"];
        seqs [lit "Contract"; ws_star; lit "Act"]].

Definition alnum_items : cclass := [CRng 48 57; CRng 65 90; CRng 97 122].

(** Groups of [patt_a]: [num] and [act]. *)
Definition G_num := 1.
Definition G_act := 2.

Definition patt_a : regex :=
  seqs [RAlt (RSeq (RAlt (lit "u/s") (lit "u/s")) ws_star)
             (seqs [ROpt (RSeq (lit "under") ws_plus);
                    RAlt (lit "section") (RSeq (lit "sec") (ROpt (chr 46)));
                    ws_star]);
        RGrp G_num (plus (alnum_items ++ [CChr 40; CChr 41; CChr 45; CChr 47]));
        RSeq ws_star (ROpt (seqs [lit "of"; ws_plus; lit "the"; ws_plus]));
        ws_star;
        ROpt (RGrp G_act ACTS_A)].

(** Groups of [patt_b]: [title] and [code_no]. *)
Definition G_title := 1.
Definition G_code_no := 2.

Definition patt_b : regex :=
  seqs [RGrp G_title (seqs [RSet [CRng 65 90];
                            plus [CRng 65 90; CRng 97 122; CChr 32];
                            RAlt (lit "Code") (lit "Act")]);
        ws_plus;
        RGrp G_code_no (plus (alnum_items ++ [CChr 40; CChr 41; CChr 45]))].

(** The separators of a reference list: a slash or a comma, a hyphen with
    optional whitespace around it, or the word [and] between whitespace. *)
Definition nums_sep : regex :=
  alts [RSet [CChr 47; CChr 44];
        seqs [ws_star; chr 45; ws_star];
        seqs [ws_plus; lit "and"; ws_plus]].

(** [^[0-9]+[A-Za-z()\-]*$] *)
Definition token_re : regex :=
  seqs [RBol; plus [CRng 48 57];
        star [CRng 65 90; CRng 97 122; CChr 40; CChr 41; CChr 45]; REol].

(** [^[0-9A-Za-z()\-]+$] *)
Definition code_no_re : regex :=
  seqs [RBol; plus (alnum_items ++ [CChr 40; CChr 41; CChr 45]); REol].

Definition is_some {A} (o : option A) : bool :=
  match o with Some _ => true | None => false end.

(** The label of one part of a reference list, if the part is kept. *)
Definition label_of_part (U : unicode) (act p : pystr) : list pystr :=
  let p := strip p in
  match p with
  | [] => []
  | _ =>
      if is_some (re_match U false token_re p) then
        [s2u "Section " ++ p ++ match act with [] => [] | _ => [32%N] ++ act end]
      else []
  end.

(** The labels of one match of [patt_a]. *)
Definition labels_a (U : unicode) (m : rematch) : list pystr :=
  let nums := group_or_empty m G_num in
  let act := strip (group_or_empty m G_act) in
  let parts := re_split U false nums_sep nums in
  flat_map (label_of_part U act) parts.

(** The labels of one match of [patt_b]. *)
Definition labels_b (U : unicode) (m : rematch) : list pystr :=
  let title := strip (group_or_empty m G_title) in
  let code_no := strip (group_or_empty m G_code_no) in
  if is_some (re_match U false code_no_re code_no) then
    [title ++ [32%N] ++ code_no]
  else [].

Definition collect_a (U : unicode) (clean : pystr) : list pystr :=
  flat_map (labels_a U) (re_finditer U true patt_a clean).

Definition collect_b (U : unicode) (clean : pystr) : list pystr :=
  flat_map (labels_b U) (re_finditer U true patt_b clean).

Definition mem_str (s : pystr) (l : list pystr) : bool := existsb (pystr_eqb s) l.

(** The deduplication loop; [seen] is the set of lower-cased labels met so
    far, [dedup] the list built so far, in reverse. *)
Fixpoint dedup_loop (U : unicode) (found : list pystr) (dedup seen : list pystr)
  : list pystr :=
  match found with
  | [] => rev dedup
  | s :: found' =>
      let key := py_lower U s in
      if negb (mem_str key seen) then dedup_loop U found' (s :: dedup) (key :: seen)
      else dedup_loop U found' dedup seen
  end.

Definition found_sections (U : unicode) (text : pystr) : list pystr :=
  let clean := _normalize_text U text in
  collect_a U clean ++ collect_b U clean.

Definition extract_sections_invoked (U : unicode) (text : pystr)
  : list pystr * nat :=
  let dedup := dedup_loop U (found_sections U text) [] [] in
  (dedup, length dedup).

(* ================================================================== *)
(** ** Timeline *)

Record event := {
  ev_date : pystr;
  event_context : pystr;
  status : pystr
}.

Definition status_upcoming : pystr := [9203; 32]%N ++ s2u "Upcoming".
Definition status_completed : pystr := [9989; 32]%N ++ s2u "Completed".

(** [\b(\d{4})\b] *)
Definition year_re : regex := seqs [RWordB; RGrp 1 (digits 4 4); RWordB].

(** [\b{year}\b] for a year string *)
Definition this_year_re (y : pystr) : regex := seqs [RWordB; lit_u y; RWordB].

Definition epoch : date := {| year := 1970; month := 1; day := 1 |}.

Definition _to_date (U : unicode) (s : pystr) : date :=
  match _parse_one_date U s with Some d => d | None => epoch end.

(** The event built for one pretty date in the loop of the timeline. *)
Definition event_of (U : unicode) (clean : pystr) (now : date) (dstr : pystr)
  : event :=
  let yr := match re_search U false year_re dstr with
            | Some m => group m 1
            | None => None
            end in
  let idx : Z :=
    if truthy yr then
      match re_search U false (this_year_re (match yr with Some y => y | None => [] end)) clean with
      | Some ymatch => Z.of_nat (m_start ymatch)
      | None => (-1)%Z
      end
    else (-1)%Z in
  let start := if (0 <=? idx)%Z then Z.max 0 (idx - 120) else 0%Z in
  let stop := Z.min (Z.of_nat (length clean))
                    (if (0 <=? idx)%Z then idx + 160 else 200)%Z in
  let context :=
    strip (re_sub U false ws_plus (fun _ => [32%N])
             (slice clean (Z.to_nat start) (Z.to_nat stop))) in
  let parsed := _parse_one_date U dstr in
  let status := match parsed with
                | Some p => if date_leb now p then status_upcoming else status_completed
                | None => status_completed
                end in
  {| ev_date := dstr; event_context := context; status := status |}.

Definition generate_case_timeline (U : unicode) (text : pystr) : M (list event) :=
  let clean := _normalize_text U text in
  dates_info <- extract_and_classify_dates U clean ;;
  let all_dates := all_unique_sorted dates_info in
  now <- now_date ;;
  let events := map (event_of U clean now) all_dates in
  ret (sort_by (fun e => _to_date U (ev_date e)) events).

(* ================================================================== *)
(** ** Case status *)

Record sections_info := { sec_count : nat; sec_list : list pystr }.

(** The metadata dictionary.  The entry [dates] may be missing; when it is
    there it has the shape [extract_and_classify_dates] gives it. *)
Record metadata := {
  md_dates : option dates_info;
  md_sections : option sections_info;
  md_timeline : option (list event)
}.

(** [metadata.get("dates", {}).get("upcoming", {}).get("count", 0)] *)
Definition upcoming_count (md : metadata) : nat :=
  match md_dates md with
  | Some d => count (upcoming d)
  | None => 0
  end.

Definition Closed : pystr := s2u "Closed".
Definition Ongoing : pystr := s2u "Ongoing".

Definition keywords_closed : list pystr :=
  map s2u ["dismissed"; "acquitted"; "convicted"; "sentenced"]%string.

Definition detect_case_status (U : unicode) (summary_text : pystr)
    (md : metadata) : pystr :=
  let text := py_lower U summary_text in
  if (contains (s2u "judgment") text && contains (s2u "delivered") text)
     || (contains (s2u "final order") text && contains (s2u "issued") text)
  then Closed
  else if 0 <? upcoming_count md then Ongoing
  else if existsb (fun k => contains k text) keywords_closed then Closed
  else Ongoing.

(* ================================================================== *)
(** ** The combined output *)

(** The hosted model, an external collaborator: the narrative summary of a
    text ([None] when the call fails) and the tips for an ongoing case. *)
Record gemini := {
  summarize_with_gemini : pystr -> option pystr;
  generate_case_tips : pystr -> metadata -> list pystr
}.

Record summary := {
  summary_markdown : pystr;
  case_status : pystr;
  sm_metadata : metadata;
  recommendations : list pystr
}.

Definition generate_structured_summary (U : unicode) (g : gemini) (text : pystr)
  : M (option summary) :=
  match summarize_with_gemini g text with
  | None => ret None
  | Some structured_text =>
      dates_info <- extract_and_classify_dates U text ;;
      let (sections, section_count) := extract_sections_invoked U text in
      timeline <- generate_case_timeline U text ;;
      let md := {| md_dates := Some dates_info;
                   md_sections := Some {| sec_count := section_count;
                                          sec_list := sections |};
                   md_timeline := Some timeline |} in
      let st := detect_case_status U structured_text md in
      let tips := if pystr_eqb st Ongoing
                  then generate_case_tips g structured_text md else [] in
      ret (Some {| summary_markdown := structured_text;
                   case_status := st;
                   sm_metadata := md;
                   recommendations := tips |})
  end.

(** A table for running the program on ASCII text: no letters, digits or
    case pairs outside ASCII. *)
Definition ascii_only : unicode :=
  {| uc_alnum := fun _ => false;
     uc_decimal := fun _ => None;
     uc_lower := fun s => s |}.


(* ================================================================== *)
(** * The service around the core

    The functions of [main.py] that talk to the outside: the hosted model,
    the PDF reader, the token verifier, the temporary files and the
    document store.  What these collaborators answer is a parameter of the
    model; the code around them is modelled as it is written. *)

(** ** Exceptions *)

(** The outcome of a call made inside a [try]: a value, or an exception
    with its message [str(e)]. *)
Inductive tried (A : Type) :=
| Returns (a : A)
| Throws (e : pystr).
Arguments Returns {A} a.
Arguments Throws {A} e.

(** What a function of the service raises: the [HTTPException] it builds
    itself, or an exception of a collaborator that it lets through. *)
Inductive error :=
| HTTPException (status_code : nat) (detail : pystr)
| Exception (e : pystr).

Inductive result (A : Type) :=
| Ok (a : A)
| Raise (e : error).
Arguments Ok {A} a.
Arguments Raise {A} e.

(** ** More of [str] *)

(** Truth value of a string. *)
Definition nonempty (s : pystr) : bool :=
  match s with [] => false | _ :: _ => true end.

(** [s.split(sep)] for a non-empty separator: the pieces between the
    leftmost non-overlapping occurrences of [sep].  [skip] counts the
    characters of the current occurrence still to be stepped over, [cur] is
    the piece being collected, in reverse. *)
Fixpoint split_on (sep s : pystr) (skip : nat) (cur : pystr) : list pystr :=
  match s with
  | [] => [rev cur]
  | c :: s' =>
      match skip with
      | S sk => split_on sep s' sk cur
      | O =>
          if starts_with sep s then rev cur :: split_on sep s' (length sep - 1) []
          else split_on sep s' 0 (c :: cur)
      end
  end.

Definition py_split (sep s : pystr) : list pystr := split_on sep s 0 [].

Definition mem_char (c : N) (chars : pystr) : bool := existsb (N.eqb c) chars.

Fixpoint lstrip_chars (chars s : pystr) : pystr :=
  match s with
  | c :: s' => if mem_char c chars then lstrip_chars chars s' else s
  | [] => []
  end.

(** [s.strip(chars)] *)
Definition strip_chars (chars s : pystr) : pystr :=
  rev (lstrip_chars chars (rev (lstrip_chars chars s))).

(** A string between double quotes. *)
Definition quoted (s : string) : pystr := 34%N :: s2u s ++ [34%N].

(** The variation selector and the keycap sign that follow a digit in the
    enumerations of the prompt. *)
Definition keycap : pystr := [65039; 8419]%N.

(** ** The collaborators *)

(** The claims of a verified token; the program reads [uid]. *)
Record user := { uid : pystr }.

Definition bytes := list N.

(** What writing the temporary file gives: the data are in the file, or the
    write raised with only some bytes in it. *)
Inductive write_result :=
| Written
| Failed_after (partial : bytes) (e : pystr).

(** A document of the collection [summaries] (its [timestamp] is filled in
    by the store). *)
Record stored := {
  doc_user_id : pystr;
  doc_filename : pystr;
  doc_client_name : pystr;
  doc_file_type : pystr;
  doc_summary : pystr;
  doc_case_status : pystr;
  doc_recommendations : list pystr;
  doc_metadata : metadata
}.

Record services := {
  (** [auth.verify_id_token(id_token)] *)
  verify_id_token : pystr -> tried user;
  (** [fitz.open(path)] on a path with these contents ([None]: no such
      file), and [page.get_text()] of the pages in order *)
  open_pdf : option bytes -> tried (list pystr);
  (** [model.generate_content(prompt)] followed by [response.text], which
      can be [None] *)
  generate_content : pystr -> tried (option pystr);
  (** the name [tempfile.NamedTemporaryFile] picks, given the names in use *)
  temp_name : list nat -> nat;
  (** [temp.write(data)] and the closing of the file *)
  temp_write : bytes -> write_result;
  (** [db.collection("summaries").document().set(doc)], given the documents
      of the collection: the exception, if any, of a write that stored
      nothing *)
  store_set : list stored -> stored -> tried unit
}.

(** ** The functions that call the hosted model, and the combined output
    with its exceptions *)

Module Service.

Definition system_prompt : pystr :=
  s2u "
        You are Eudia Legal Summarizer AI.
        Summarize the given legal document in a structured way.
        Extract these fields clearly:

        1" ++ keycap ++ s2u " Case_Name  " ++ s2u "
        2" ++ keycap ++ s2u " Court_Name  " ++ s2u "
        3" ++ keycap ++ s2u " Parties (Petitioner / Respondent)  " ++ s2u "
        4" ++ keycap ++ s2u " Sections_Invoked (List with full references)  " ++ s2u "
        5" ++ keycap ++ s2u " Facts (Concise factual background)  " ++ s2u "
        6" ++ keycap ++ s2u " Judgment (if available)  " ++ s2u "
        7" ++ keycap ++ s2u " Final_Order (if available)  " ++ s2u "
        8" ++ keycap ++ s2u " Date_of_Judgment (if available)  " ++ s2u "

        Also include a short markdown summary before the JSON.

        " ++ [9878; 65039]%N ++ s2u " Output Format:
        ```
        ### Case Summary
        (Concise summary text)

        " ++ [129513%N] ++ s2u " Structured Data
        {
          " ++ quoted "Case_Name" ++ s2u ": " ++ quoted "..." ++ s2u ",
          " ++ quoted "Court_Name" ++ s2u ": " ++ quoted "..." ++ s2u ",
          " ++ quoted "Parties" ++ s2u ": { " ++ quoted "Petitioner" ++ s2u ": "
            ++ quoted "..." ++ s2u ", " ++ quoted "Respondent" ++ s2u ": "
            ++ quoted "..." ++ s2u " },
          " ++ quoted "Sections_Invoked" ++ s2u ": [" ++ quoted "..." ++ s2u "],
          " ++ quoted "Facts" ++ s2u ": " ++ quoted "..." ++ s2u ",
          " ++ quoted "Judgment" ++ s2u ": " ++ quoted "..." ++ s2u ",
          " ++ quoted "Final_Order" ++ s2u ": " ++ quoted "..." ++ s2u ",
          " ++ quoted "Date_of_Judgment" ++ s2u ": " ++ quoted "..." ++ s2u "
        }
        ```
        Make sure JSON is valid and strictly follows this structure.
        ".

(** The value under ["structured_summary"] of the dictionary returned, or
    the [HTTPException] raised. *)
Definition summarize_with_gemini (sv : services) (text : pystr) : result pystr :=
  match generate_content sv (system_prompt ++ [10; 10]%N ++ s2u "---" ++ [10%N] ++ text) with
  | Returns response_text =>
      let summary_text :=
        match response_text with
        | Some (c :: t) => c :: t
        | _ => s2u "Summary generation failed."
        end in
      Ok summary_text
  | Throws e => Raise (HTTPException 500 (s2u "Gemini summarization failed: " ++ e))
  end.

(** The first lines of [generate_case_tips]: the sentence about the next
    hearing.  With a non-zero count and an empty list, [list[0]] raises. *)
Definition stage_info (md : metadata) : tried pystr :=
  if negb (upcoming_count md =? 0) then
    match md_dates md with
    | Some dates =>
        match items (upcoming dates) with
        | next_hearing :: _ =>
            Returns (s2u "The next upcoming date in the case is " ++ next_hearing ++ s2u ".")
        | [] => Throws (s2u "list index out of range")
        end
    | None => Throws (s2u "'dates'")
    end
  else Returns [].

Definition tips_prompt (stage_info summary_text : pystr) : pystr :=
  s2u "
        You are a legal strategy advisor for ongoing court cases.
        Based on the following case summary and metadata,
        suggest 3-5 professional and practical tips to prepare or strengthen the case.

        " ++ stage_info ++ s2u "

        Case Summary:
        " ++ summary_text ++ s2u "

        Tips should be specific, clear, and actionable (e.g., review evidence chain, witness prep, digital proof preservation, compliance reminders).
        ".

(** The characters stripped from the ends of a tip: bullet, hyphen, space. *)
Definition bullets : pystr := [8226; 45; 32]%N.

(** The list returned from the [except] clause. *)
Definition tips_failed (e : pystr) : list pystr :=
  [[9888; 65039; 32]%N ++ s2u "Failed to generate tips: " ++ e].

Definition generate_case_tips (sv : services) (summary_text : pystr) (md : metadata)
  : list pystr :=
  match stage_info md with
  | Throws e => tips_failed e
  | Returns stage =>
      match generate_content sv (tips_prompt stage summary_text) with
      | Throws e => tips_failed e
      | Returns response_text =>
          let tips_text :=
            match response_text with
            | Some (c :: t) => strip (c :: t)
            | _ => s2u "No tips generated."
            end in
          let tips :=
            map (strip_chars bullets)
                (filter (fun line => nonempty (strip line)) (py_split [10%N] tips_text)) in
          firstn 5 tips
      end
  end.

(** [generate_structured_summary] with the exception of the summariser kept
    as it is raised. *)
Definition generate_structured_summary (U : unicode) (sv : services) (text : pystr)
  : world -> result summary * world :=
  fun w =>
    match summarize_with_gemini sv text with
    | Raise e => (Raise e, w)
    | Ok structured_text =>
        let (dates_info, w) := extract_and_classify_dates U text w in
        let (sections, section_count) := extract_sections_invoked U text in
        let (timeline, w) := generate_case_timeline U text w in
        let md := {| md_dates := Some dates_info;
                     md_sections := Some {| sec_count := section_count;
                                            sec_list := sections |};
                     md_timeline := Some timeline |} in
        let st := detect_case_status U structured_text md in
        let tips := if pystr_eqb st Ongoing
                    then generate_case_tips sv structured_text md else [] in
        (Ok {| summary_markdown := structured_text;
               case_status := st;
               sm_metadata := md;
               recommendations := tips |}, w)
    end.

End Service.

(** The hosted model as the core sees it: the summary, if the call
    succeeds, and the tips. *)
Definition hosted (sv : services) : gemini :=
  Build_gemini
    (fun text => match Service.summarize_with_gemini sv text with
                 | Ok s => Some s
                 | Raise _ => None
                 end)
    (Service.generate_case_tips sv).

(** ** Token, PDF text *)

(** [try: return auth.verify_id_token(id_token) / except Exception: return None] *)
Definition verify_firebase_token (sv : services) (id_token : pystr) : option user :=
  match verify_id_token sv id_token with
  | Returns decoded => Some decoded
  | Throws _ => None
  end.

(** The header the front end sends ([frontend/app.py]). *)
Definition authorization_header (id_token : pystr) : pystr :=
  s2u "Bearer " ++ id_token.

(** [authorization.split("Bearer ")[1]]; [None] stands for [IndexError]. *)
Definition bearer_token (authorization : pystr) : option pystr :=
  nth_error (py_split (s2u "Bearer ") authorization) 1.

(** The temporary files: names and contents. *)
Definition temp_files := list (nat * bytes).

Fixpoint read_file (path : nat) (fs : temp_files) : option bytes :=
  match fs with
  | [] => None
  | (p, b) :: fs' => if Nat.eqb path p then Some b else read_file path fs'
  end.

(** [os.path.exists(path)] *)
Definition path_exists (path : nat) (fs : temp_files) : bool :=
  match read_file path fs with Some _ => true | None => false end.

(** [os.remove(path)] *)
Definition remove_file (path : nat) (fs : temp_files) : temp_files :=
  filter (fun f => negb (Nat.eqb path (fst f))) fs.

Definition extract_text_from_pdf (sv : services) (fs : temp_files) (pdf_path : nat)
  : result pystr :=
  match open_pdf sv (read_file pdf_path fs) with
  | Throws e => Raise (Exception e)
  | Returns pages =>
      let text := concat pages in
      match text with
      | [] => Raise (HTTPException 400 (s2u "Could not extract text from the PDF."))
      | _ :: _ => Ok (strip text)
      end
  end.

(** ** Upload, summarise, store *)

(** An uploaded file: its name and what [await file.read()] gives, the
    contents or the exception. *)
Record upload_file := { filename : pystr; file_read : tried bytes }.

(** An entry of the list returned: the file name and the combined output. *)
Record returned := { ret_filename : pystr; ret_output : summary }.

(** What the request can change: the clock it reads, the temporary files
    and the collection, in the order of writing. *)
Record server := {
  sv_clock : world;
  sv_files : temp_files;
  sv_summaries : list stored
}.

(** The body of the loop for one file.  The temporary file exists, empty,
    from its opening on; [temp_path] is set only after the upload has been
    read and written to it, so that a failure of one of the two leaves the
    file behind.  (The opening and the removal of the temporary file
    themselves are taken to succeed.) *)
Definition process_file (U : unicode) (sv : services)
    (user_id client_name file_type : pystr) (file : upload_file)
    (summaries : list returned) (s : server) : result (list returned) * server :=
  (* with tempfile.NamedTemporaryFile(delete=False, suffix=".pdf") as temp *)
  let name := temp_name sv (map fst (sv_files s)) in
  let holding (contents : bytes) :=
    {| sv_clock := sv_clock s;
       sv_files := (name, contents) :: sv_files s;
       sv_summaries := sv_summaries s |} in
  match file_read file with
  | Throws e => (Raise (Exception e), holding [])     (* temp_path is None *)
  | Returns data =>
      match temp_write sv data with
      | Failed_after partial e => (Raise (Exception e), holding partial)
      | Written =>
          let temp_path := name in
          let s := holding data in
          let (r, s) :=
            match extract_text_from_pdf sv (sv_files s) temp_path with
            | Raise e => (Raise e, s)
            | Ok text =>
                match text with
                | [] => (Ok summaries, s)                     (* continue *)
                | _ :: _ =>
                    match Service.generate_structured_summary U sv text (sv_clock s) with
                    | (Raise e, w) =>
                        (Raise e, {| sv_clock := w; sv_files := sv_files s;
                                     sv_summaries := sv_summaries s |})
                    | (Ok structured_output, w) =>
                        let doc :=
                          {| doc_user_id := user_id;
                             doc_filename := filename file;
                             doc_client_name := client_name;
                             doc_file_type := file_type;
                             doc_summary := summary_markdown structured_output;
                             doc_case_status := case_status structured_output;
                             doc_recommendations := recommendations structured_output;
                             doc_metadata := sm_metadata structured_output |} in
                        match store_set sv (sv_summaries s) doc with
                        | Throws e =>
                            (Raise (Exception e),
                             {| sv_clock := w; sv_files := sv_files s;
                                sv_summaries := sv_summaries s |})
                        | Returns _ =>
                            (Ok (summaries ++ [{| ret_filename := filename file;
                                                  ret_output := structured_output |}]),
                             {| sv_clock := w; sv_files := sv_files s;
                                sv_summaries := sv_summaries s ++ [doc] |})
                        end
                    end
                end
            end in
          (* finally *)
          let s := if path_exists temp_path (sv_files s)
                   then {| sv_clock := sv_clock s;
                           sv_files := remove_file temp_path (sv_files s);
                           sv_summaries := sv_summaries s |}
                   else s in
          (r, s)
      end
  end.

(** The loop over the files; an exception ends it. *)
Fixpoint process_files (U : unicode) (sv : services)
    (user_id client_name file_type : pystr) (files : list upload_file)
    (summaries : list returned) (s : server) : result (list returned) * server :=
  match files with
  | [] => (Ok summaries, s)
  | file :: files' =>
      match process_file U sv user_id client_name file_type file summaries s with
      | (Ok summaries', s') =>
          process_files U sv user_id client_name file_type files' summaries' s'
      | (Raise e, s') => (Raise e, s')
      end
  end.

(** The value under ["summaries"] of the response, or the exception. *)
Definition upload_and_summarize (U : unicode) (sv : services)
    (files : list upload_file) (client_name file_type : pystr)
    (authorization : option pystr) (s : server)
  : result (list returned) * server :=
  match authorization with
  | Some a =>
      if nonempty a && starts_with (s2u "Bearer ") a then
        match bearer_token a with
        | None => (Raise (Exception (s2u "list index out of range")), s)
        | Some token =>
            match verify_firebase_token sv token with
            | None =>
                (Raise (HTTPException 403 (s2u "Invalid or expired Firebase token")), s)
            | Some user =>
                process_files U sv (uid user) client_name file_type files [] s
            end
        end
      else
        (Raise (HTTPException 401 (s2u "Missing or invalid Authorization header")), s)
  | None =>
      (Raise (HTTPException 401 (s2u "Missing or invalid Authorization header")), s)
  end.

(* ================================================================== *)
(** ** The order on dates, as propositions *)

Definition date_lt (a b : date) : Prop := date_ltb a b = true.
Definition date_le (a b : date) : Prop := date_leb a b = true.

(** The order of the keys of a sort. *)
Definition key_le (T : Type) (key : T -> date) (a b : T) : Prop :=
  date_le (key a) (key b).
Arguments key_le : clear implicits.

(* ================================================================== *)
(** ** Reference functions for the proofs

    What the two substitutions of [_normalize_text] compute, written as
    plain recursive functions, and the shape of a normalised text. *)

Definition blank (c : N) : bool := ((c =? 32) || (c =? 9))%N.

(** Every run of spaces and tabs becomes one space; [in_run] tells that the
    previous character belonged to such a run. *)
Fixpoint squeeze (in_run : bool) (s : pystr) : pystr :=
  match s with
  | [] => []
  | c :: s' =>
      if blank c then
        if in_run then squeeze true s' else 32%N :: squeeze true s'
      else c :: squeeze false s'
  end.

(** Does the run of whitespace at the head of [s] contain a line break? *)
Fixpoint nl_in_run (s : pystr) : bool :=
  match s with
  | [] => false
  | c :: s' => is_space c && ((c =? 10)%N || nl_in_run s')
  end.

(** Every run of whitespace that contains a line break becomes one line
    break; [in_run] tells that such a run is being dropped. *)
Fixpoint trimnl (in_run : bool) (s : pystr) : pystr :=
  match s with
  | [] => []
  | c :: s' =>
      if in_run then
        if is_space c then trimnl true s' else c :: trimnl false s'
      else if is_space c && nl_in_run s then 10%N :: trimnl true s'
      else c :: trimnl false s'
  end.

Fixpoint prefix_len (p : N -> bool) (s : pystr) : nat :=
  match s with
  | [] => 0
  | c :: s' => if p c then S (prefix_len p s') else 0
  end.

(** The character before the position reached by skipping a run. *)
Fixpoint run_prev (p : N -> bool) (prev : option N) (s : pystr) : option N :=
  match s with
  | [] => prev
  | c :: s' => if p c then run_prev p (Some c) s' else prev
  end.

(** [P] holds of every two neighbours of [s]. *)
Fixpoint adj_ok (P : N -> N -> bool) (s : pystr) : bool :=
  match s with
  | a :: s' =>
      match s' with
      | b :: _ => P a b && adj_ok P s'
      | [] => true
      end
  | [] => true
  end.

(** No two neighbours are both a space or a tab. *)
Definition no_blank_pair (a b : N) : bool := negb (blank a && blank b).

(** No whitespace next to a line break. *)
Definition no_space_at_break (a b : N) : bool :=
  negb (is_space a && (b =? 10)%N) && negb ((a =? 10)%N && is_space b).

(** The characters [_normalize_text] replaces. *)
Definition replaced_char (c : N) : bool :=
  ((c =? 160) || (c =? 8211) || (c =? 8212) || (c =? 8210))%N.

Definition rstrip (s : pystr) : pystr := rev (lstrip (rev s)).

Definition replace_all (s : pystr) : pystr :=
  replace_char 8210 [45%N]
    (replace_char 8212 [45%N] (replace_char 8211 [45%N] (replace_char 160 [32%N] s))).

(** A character that survives normalisation. *)
Definition clean_char (c : N) : bool := negb (replaced_char c) && negb (c =? 9)%N.

(** The four replacements on one character. *)
Definition replace_one (c : N) : N :=
  if (c =? 160)%N then 32%N
  else if (c =? 8211)%N then 45%N
  else if (c =? 8212)%N then 45%N
  else if (c =? 8210)%N then 45%N
  else c.

(** A normalised text. *)
Record normalized (s : pystr) : Prop := {
  nz_chars : forallb clean_char s = true;
  nz_blanks : adj_ok no_blank_pair s = true;
  nz_breaks : adj_ok no_space_at_break s = true;
  nz_head : match s with c :: _ => is_space c = false | [] => True end;
  nz_last : match rev s with c :: _ => is_space c = false | [] => True end
}.

(* ================================================================== *)
(** ** Definitions used to state the properties *)

(** A clock that passes midnight after its second reading. *)
Definition midnight_clock : world :=
  {| wall_clock := fun n => if n <? 2
                            then {| year := 2026; month := 1; day := 2 |}
                            else {| year := 2026; month := 1; day := 3 |};
     reads := 0 |}.

(** A model that answers every text with the same narrative and no tips. *)
Definition fixed_gemini (narrative : pystr) : gemini :=
  {| summarize_with_gemini := fun _ => Some narrative;
     generate_case_tips := fun _ _ => [] |}.

Definition dates_of_summary (s : summary) : option dates_info := md_dates (sm_metadata s).
Definition timeline_of_summary (s : summary) : list event :=
  match md_timeline (sm_metadata s) with Some t => t | None => [] end.

(** The pure part of [generate_structured_summary], after the summary,
    the dates and the timeline have been obtained. *)
Definition summary_of (U : unicode) (g : gemini) (text structured_text : pystr)
    (dates_info : dates_info) (timeline : list event) : summary :=
  let (sections, section_count) := extract_sections_invoked U text in
  let md := {| md_dates := Some dates_info;
               md_sections := Some {| sec_count := section_count;
                                      sec_list := sections |};
               md_timeline := Some timeline |} in
  let st := detect_case_status U structured_text md in
  let tips := if pystr_eqb st Ongoing
              then generate_case_tips g structured_text md else [] in
  {| summary_markdown := structured_text;
     case_status := st;
     sm_metadata := md;
     recommendations := tips |}.

Definition hearing_text : pystr := s2u "The next hearing is on 2026-01-02.".
Definition jan_2 : date := {| year := 2026; month := 1; day := 2 |}.

(** The date lists and the timeline of one document, as printed. *)
Definition lists_and_statuses (s : summary)
  : option (list pystr * list pystr) * list (pystr * pystr) :=
  (option_map (fun E => (items (past E), items (upcoming E))) (dates_of_summary s),
   map (fun e => (ev_date e, status e)) (timeline_of_summary s)).

(** Rule 1: the words of a judgment delivered or of a final order issued. *)
Definition judgment_language (text : pystr) : bool :=
  (contains (s2u "judgment") text && contains (s2u "delivered") text)
  || (contains (s2u "final order") text && contains (s2u "issued") text).

(** Rule 3: one of the outcome keywords. *)
Definition outcome_keyword (text : pystr) : bool :=
  contains (s2u "dismissed") text || contains (s2u "acquitted") text ||
  contains (s2u "convicted") text || contains (s2u "sentenced") text.

(** Metadata with a given number of upcoming dates and nothing else. *)
Definition metadata_with_upcoming (n : nat) : metadata :=
  {| md_dates := Some {| all_unique_sorted := [];
                         past := {| count := 0; items := [] |};
                         upcoming := {| count := n; items := [] |};
                         total_unique := n |};
     md_sections := None;
     md_timeline := None |}.

Definition range_text : pystr := s2u "February 5-12, 2026".
Definition feb_5 : date := {| year := 2026; month := 2; day := 5 |}.
Definition feb_12 : date := {| year := 2026; month := 2; day := 12 |}.

(** Is [m] a match of the range form (groups 2 to 5 filled)? *)
Definition is_range_match (m : rematch) : bool :=
  truthy (group m 2) && truthy (group m 3) && truthy (group m 4) && truthy (group m 5).

(** The string [month day year] that a boundary of a range is parsed from. *)
Definition boundary (mo d yr : pystr) : pystr := mo ++ 32%N :: d ++ 32%N :: yr.

Definition new_year_2026 : date := {| year := 2026; month := 1; day := 1 |}.

(** [first_seen seen found]: the labels of [found] whose key is neither in
    [seen] nor the key of an earlier label of [found]. *)
Fixpoint first_seen (U : unicode) (seen : list pystr) (found : list pystr)
  : list pystr :=
  match found with
  | [] => []
  | s :: found' =>
      if mem_str (py_lower U s) seen then first_seen U seen found'
      else s :: first_seen U (py_lower U s :: seen) found'
  end.

(** [subseq a b]: [a] is [b] with some elements left out, the order kept. *)
Inductive subseq {A : Type} : list A -> list A -> Prop :=
| subseq_nil : subseq [] []
| subseq_skip : forall x a b, subseq a b -> subseq a (x :: b)
| subseq_keep : forall x a b, subseq a b -> subseq (x :: a) (x :: b).

Definition two_casings : pystr := s2u "Section 420 IPC and section 420 ipc".

Definition empty_dates : dates_info :=
  {| all_unique_sorted := [];
     past := {| count := 0; items := [] |};
     upcoming := {| count := 0; items := [] |};
     total_unique := 0 |}.

Definition abbr_name (m : N) : pystr := firstn 3 (month_name m).

Definition first_of (y m : N) : date := {| year := y; month := m; day := 1 |}.

Definition march_text : pystr := s2u "The matter is listed for March 2026.".

Definition ascii_digit (c : N) : bool := ((48 <=? c) && (c <=? 57))%N.

Definition scenario_text : pystr :=
  s2u "The hearing is scheduled for 15 November 2025 under Section 138 NI Act.".

(** The characters of a text that are not whitespace, in order. *)
Definition visible (s : pystr) : pystr := filter (fun c => negb (is_space c)) s.

(** The en dash, the em dash and the figure dash become a hyphen. *)
Definition dash_to_hyphen (c : N) : N :=
  if ((c =? 8211) || (c =? 8212) || (c =? 8210))%N then 45%N else c.

Definition dashes_text : pystr := [65; 160; 8211; 9; 66]%N.

Definition nov_15 : date := {| year := 2025; month := 11; day := 15 |}.

(** A character that [_parse_one_date] drops at the ends of its input. *)
Definition space_or_comma (c : N) : bool := is_space c || (c =? 44)%N.

Definition sections_of_summary (s : summary) : option sections_info :=
  md_sections (sm_metadata s).

(** Every run of characters of the class [p] becomes one space; [in_run]
    tells that the previous character belonged to such a run. *)
Fixpoint collapse (p : N -> bool) (in_run : bool) (s : pystr) : pystr :=
  match s with
  | [] => []
  | c :: s' =>
      if p c then
        if in_run then collapse p true s' else 32%N :: collapse p true s'
      else c :: collapse p false s'
  end.

(** A text without a decimal digit (as [\d] sees them). *)
Definition no_digit (U : unicode) (s : pystr) : bool :=
  forallb (fun c => negb (is_decimal U c)) s.

Definition is_CDig (it : citem) : bool :=
  match it with CDig => true | _ => false end.

(** A sufficient condition, read off the syntax, for a pattern to match
    at least one decimal digit. *)
Fixpoint needs_digit (r : regex) : bool :=
  match r with
  | RSet cs => forallb is_CDig cs
  | RSeq a b => needs_digit a || needs_digit b
  | RAlt a b => needs_digit a && needs_digit b
  | RRep lo _ cs => (0 <? lo) && forallb is_CDig cs
  | RGrp _ a => needs_digit a
  | _ => false
  end.

(** [a] is what is left of [b] after some characters. *)
Definition rest_of (a b : pystr) : Prop := exists pre, b = pre ++ a.

Definition adjourned_text : pystr := s2u "The matter was adjourned sine die.".

(** A model that answers every prompt with the same text. *)
Definition answering (text : option pystr) : services :=
  {| verify_id_token := fun _ => Throws [];
     open_pdf := fun _ => Throws [];
     generate_content := fun _ => Returns text;
     temp_name := fun names => S (list_max names);
     temp_write := fun _ => Written;
     store_set := fun _ _ => Returns tt |}.

(** A reply with two bullets, a blank line and a line of hyphens. *)
Definition bulleted_reply : pystr :=
  [8226; 32]%N ++ s2u "Preserve the call records." ++ [10; 10]%N ++
  s2u "- Brief the witness -" ++ [10]%N ++ s2u "--".

Definition no_metadata : metadata :=
  {| md_dates := None; md_sections := None; md_timeline := None |}.

(** The metadata of a text read at a given state of the clock, as
    [generate_structured_summary] builds it. *)
Definition metadata_of (U : unicode) (T : pystr) (w : world) : metadata :=
  {| md_dates := Some (fst (extract_and_classify_dates U T w));
     md_sections := Some {| sec_count := snd (extract_sections_invoked U T);
                            sec_list := fst (extract_sections_invoked U T) |};
     md_timeline := Some (fst (generate_case_timeline U T
                                 {| wall_clock := wall_clock w; reads := S (reads w) |})) |}.

(** [chr(10).join(lines)]: the lines with a line break between two of them. *)
Fixpoint join_lines (lines : list pystr) : pystr :=
  match lines with
  | [] => []
  | l :: rest =>
      match rest with
      | [] => l
      | _ :: _ => l ++ 10%N :: join_lines rest
      end
  end.

(** The result of the core's [generate_structured_summary], from the
    result with its exception. *)
Definition without_exception {A : Type} (r : result A) : option A :=
  match r with Ok a => Some a | Raise _ => None end.

(** The document stored for an entry of the response. *)
Definition doc_of (user_id client_name file_type : pystr) (x : returned) : stored :=
  {| doc_user_id := user_id;
     doc_filename := ret_filename x;
     doc_client_name := client_name;
     doc_file_type := file_type;
     doc_summary := summary_markdown (ret_output x);
     doc_case_status := case_status (ret_output x);
     doc_recommendations := recommendations (ret_output x);
     doc_metadata := sm_metadata (ret_output x) |}.

(** [tempfile] never picks a name in use. *)
Definition fresh_names (sv : services) : Prop :=
  forall names, ~ In (temp_name sv names) names.

(** Services for a worked request: every token but [expired] belongs to
    the user [u1], a PDF holds its bytes as the text of its only page, and
    the model answers every prompt with the same narrative. *)
Definition demo_services : services :=
  {| verify_id_token := fun t => if pystr_eqb t (s2u "expired") then Throws []
                                 else Returns {| uid := s2u "u1" |};
     open_pdf := fun contents => match contents with
                                 | Some b => Returns [b]
                                 | None => Throws (s2u "no such file")
                                 end;
     generate_content := fun _ => Returns (Some (s2u "Judgment delivered."));
     temp_name := fun names => S (list_max names);
     temp_write := fun data => if pystr_eqb data (s2u "too large")
                               then Failed_after (s2u "too") (s2u "No space left on device")
                               else Written;
     store_set := fun _ doc => if pystr_eqb (doc_filename doc) (s2u "offline.pdf")
                               then Throws (s2u "Deadline Exceeded")
                               else Returns tt |}.

Definition demo_server : server :=
  {| sv_clock := frozen new_year_2026; sv_files := [(3, [1%N])]; sv_summaries := [] |}.

Definition demo_files : list upload_file :=
  [{| filename := s2u "a.pdf"; file_read := Returns scenario_text |};
   {| filename := s2u "blank.pdf"; file_read := Returns [32%N] |};
   {| filename := s2u "b.pdf"; file_read := Returns hearing_text |};
   {| filename := s2u "empty.pdf"; file_read := Returns [] |};
   {| filename := s2u "c.pdf"; file_read := Returns march_text |}].

(** An upload that cannot be read, after one that can. *)
Definition broken_files : list upload_file :=
  [{| filename := s2u "a.pdf"; file_read := Returns scenario_text |};
   {| filename := s2u "lost.pdf"; file_read := Throws (s2u "client disconnected") |};
   {| filename := s2u "c.pdf"; file_read := Returns march_text |}].

(** The upload of a file reaches its temporary file: it can be read and
    written. *)
Definition uploaded (sv : services) (file : upload_file) : Prop :=
  exists data, file_read file = Returns data /\ temp_write sv data = Written.

(** The character classes of a pattern. *)
Fixpoint classes (r : regex) : list cclass :=
  match r with
  | RSet cs => [cs]
  | RSeq a b => classes a ++ classes b
  | RAlt a b => classes a ++ classes b
  | ROpt a => classes a
  | RRep _ _ cs => [cs]
  | RGrp _ a => classes a
  | _ => []
  end.

(** A renaming of characters that the classes [CL], the word boundary and
    the end of line cannot tell from the identity. *)
Definition cannot_tell (U : unicode) (ic : bool) (CL : list cclass) (f : N -> N) : Prop :=
  forall c,
    (forall cs, In cs CL -> in_class U ic cs (f c) = in_class U ic cs c) /\
    is_word U (f c) = is_word U c /\
    (f c =? 10)%N = (c =? 10)%N.

Definition rename_caps (f : N -> N) (caps : list (nat * pystr)) : list (nat * pystr) :=
  map (fun c => (fst c, map f (snd c))) caps.

Definition rename_state (f : N -> N) (s : mstate) : mstate :=
  {| st_prev := option_map f (st_prev s);
     st_rest := map f (st_rest s);
     st_pos := st_pos s;
     st_caps := rename_caps f (st_caps s) |}.

Definition rename_match (f : N -> N) (m : rematch) : rematch :=
  {| m_start := m_start m;
     m_end := m_end m;
     m_text := map f (m_text m);
     m_caps := rename_caps f (m_caps m) |}.

(** The ten ASCII digits. *)
Definition ascii_digits : pystr := [48; 49; 50; 51; 52; 53; 54; 55; 56; 57]%N.

(** The classes [CL] do not tell one ASCII digit from another. *)
Definition digit_blind (U : unicode) (ic : bool) (CL : list cclass) : bool :=
  forallb (fun cs =>
    forallb (fun a => Bool.eqb (in_class U ic cs a) (in_class U ic cs 48%N)) ascii_digits)
    CL.

(** The renaming that puts the characters [ds] in the place of the digits
    0, 1, 2, ... and leaves every other character as it is. *)
Definition rename_digits (ds : pystr) (c : N) : N :=
  if ascii_digit c then nth (N.to_nat (c - 48)) ds c else c.

(** A renaming that normalisation cannot tell from the identity. *)
Definition keeps_layout (f : N -> N) : Prop :=
  f 32%N = 32%N /\ f 10%N = 10%N /\
  forall c, is_space (f c) = is_space c /\ blank (f c) = blank c /\
            (f c =? 10)%N = (c =? 10)%N /\ replace_one (f c) = f (replace_one c).

(** The replacement of the ordinal clean-up: the digits of the match. *)
Definition ordinal_repl (m : rematch) : pystr := group_or_empty m 1.

(** A check, run on a sample text: the date pattern has one match in the
    normalised sample, it is not of the range form, and the ordinal
    clean-up leaves it as it is; the result is the text of the match. *)
Definition single_plain_match (U : unicode) (sample : pystr) : option pystr :=
  match re_finditer U true date_pattern (_normalize_text U sample) with
  | [m] =>
      if negb (is_range_match m) &&
         pystr_eqb (re_sub U true ordinal_re ordinal_repl (m_text m)) (m_text m)
      then Some (m_text m) else None
  | _ => None
  end.

(** The six digits of a printed date: two of the day, four of the year. *)
Definition date_digits (d : date) : pystr := two_digits (day d) ++ four_digits (year d).

(** [01 Month 2345]: a printed date with six different digits. *)
Definition sample_date (m : N) : pystr := s2u "01 " ++ month_name m ++ s2u " 2345".

(** The context window of the timeline for a year string: the text around
    the first place where the year stands as a word, or the first 200
    characters when there is none. *)
Definition context_of_year (U : unicode) (clean year : pystr) : pystr :=
  let idx : Z :=
    if nonempty year then
      match re_search U false (this_year_re year) clean with
      | Some ymatch => Z.of_nat (m_start ymatch)
      | None => (-1)%Z
      end
    else (-1)%Z in
  let start := if (0 <=? idx)%Z then Z.max 0 (idx - 120) else 0%Z in
  let stop := Z.min (Z.of_nat (length clean))
                    (if (0 <=? idx)%Z then idx + 160 else 200)%Z in
  strip (re_sub U false ws_plus (fun _ => [32%N])
           (slice clean (Z.to_nat start) (Z.to_nat stop))).

Definition two_dates_of_2025 : pystr :=
  s2u "Filed on 2025-01-10. The next hearing is on 15 November 2025.".

(** The ordinal suffixes of the clean-up pattern. *)
Definition ordinal_suffixes : list pystr := map s2u ["st"; "nd"; "rd"; "th"]%string.

(** A day with an ordinal suffix before the month: [15th November 2025]. *)
Definition ordinal_day_first (day suffix month year : pystr) : pystr :=
  day ++ suffix ++ 32%N :: month ++ 32%N :: year.

(** A day with an ordinal suffix after the month: [November 15th, 2025]. *)
Definition ordinal_month_first (day suffix month year : pystr) : pystr :=
  month ++ 32%N :: day ++ suffix ++ 44%N :: 32%N :: year.

(** The digits of such a text, in the place of the digits 0, 1 (the day)
    and 2, 3, 4, 5 (the year) of a sample. *)
Definition its_digits (a b y : N) : pystr := [a; b] ++ four_digits y.



(** The ways to write a number below 100 as a field of a numeric date:
    with two digits, or with one digit when it is below 10. *)
Definition field_texts (n : N) : list pystr :=
  if (n <? 10)%N then [two_digits n; [digit_char n]]
  else if (n <? 100)%N then [two_digits n] else [].

(** The separators of the numeric formats: slash, hyphen, full stop. *)
Definition separators : pystr := [47; 45; 46]%N.

(** A numeric date: two fields and a year with a separator after each field. *)
Definition numeric_text (fa : pystr) (s1 : N) (fb : pystr) (s2 : N) (year : pystr)
  : pystr := fa ++ s1 :: fb ++ s2 :: year.

Definition day_ok (n : N) : bool := ((1 <=? n) && (n <=? 31))%N.
Definition month_ok (n : N) : bool := ((1 <=? n) && (n <=? 12))%N.

(** What the numeric formats make of two fields and a year. *)
Definition day_first_reading (a b y s1 s2 : N) : option date :=
  if (s1 =? s2)%N then
    match make_date y b a with
    | Some d => Some d
    | None => make_date y a b
    end
  else None.

(** The eight digits of a numeric date with two fields of two digits. *)
Definition numeric_digits (a b y : N) : pystr := two_digits a ++ two_digits b ++ four_digits y.

(** A field of a sample text: its second digit alone, or both. *)
Definition sample_field (two : bool) (digits : string) : pystr :=
  if two then s2u digits else tl (s2u digits).

(** [01/23/4567] and the like: a numeric date with eight different digits. *)
Definition numeric_sample (two_a two_b : bool) (s1 s2 : N) : pystr :=
  numeric_text (sample_field two_a "01") s1 (sample_field two_b "23") s2 (s2u "4567").

(** An ISO date: the year, the month and the day with hyphens between. *)
Definition iso_text (y m d : N) : pystr :=
  four_digits y ++ 45%N :: two_digits m ++ 45%N :: two_digits d.

(** The eight digits of an ISO date. *)
Definition iso_digits (y m d : N) : pystr := four_digits y ++ two_digits m ++ two_digits d.
(* ================================================================== *)
(** * Properties *)

Unset Implicit Arguments.

(** ** The order on dates *)

Lemma date_compare_eq (a b : date) : date_compare a b = Eq -> a = b.
Proof.
  destruct a as [ya ma da], b as [yb mb db]; unfold date_compare; simpl.
  destruct (N.compare_spec ya yb); try discriminate.
  destruct (N.compare_spec ma mb); try discriminate.
  destruct (N.compare_spec da db); try discriminate.
  intros _; subst; reflexivity.
Qed.

Lemma date_compare_refl (a : date) : date_compare a a = Eq.
Proof. unfold date_compare; now rewrite !N.compare_refl. Qed.

Lemma date_compare_antisym (a b : date) :
  date_compare b a = CompOpp (date_compare a b).
Proof.
  unfold date_compare.
  rewrite (N.compare_antisym (year a) (year b)),
          (N.compare_antisym (month a) (month b)),
          (N.compare_antisym (day a) (day b)).
  destruct (year a ?= year b)%N; simpl; trivial.
  destruct (month a ?= month b)%N; simpl; trivial.
Qed.

Lemma date_eqb_eq (a b : date) : date_eqb a b = true <-> a = b.
Proof.
  unfold date_eqb; split.
  - destruct (date_compare a b) eqn:E; try discriminate.
    intros _; now apply date_compare_eq.
  - intros ->; now rewrite date_compare_refl.
Qed.

Lemma date_ltb_leb (a b : date) : date_ltb a b = negb (date_leb b a).
Proof.
  unfold date_ltb, date_leb; rewrite (date_compare_antisym a b).
  destruct (date_compare a b); reflexivity.
Qed.

Lemma date_leb_refl (a : date) : date_leb a a = true.
Proof. unfold date_leb; now rewrite date_compare_refl. Qed.

Lemma date_leb_total (a b : date) : date_leb a b = false -> date_leb b a = true.
Proof.
  unfold date_leb; rewrite (date_compare_antisym a b).
  destruct (date_compare a b); simpl; congruence.
Qed.

Lemma date_compare_lt_trans (a b c : date) :
  date_compare a b = Lt -> date_compare b c = Lt -> date_compare a c = Lt.
Proof.
  destruct a as [ya ma da], b as [yb mb db], c as [yc mc dc];
    unfold date_compare; simpl.
  destruct (N.compare_spec ya yb), (N.compare_spec yb yc),
           (N.compare_spec ma mb), (N.compare_spec mb mc),
           (N.compare_spec da db), (N.compare_spec db dc);
    try discriminate; intros _ _;
    repeat match goal with
    | |- context [(?x ?= ?y)%N] => destruct (N.compare_spec x y); try lia
    end; reflexivity.
Qed.

Lemma date_leb_trans (a b c : date) :
  date_leb a b = true -> date_leb b c = true -> date_leb a c = true.
Proof.
  unfold date_leb.
  destruct (date_compare a b) eqn:E1; try discriminate; intros _;
  destruct (date_compare b c) eqn:E2; try discriminate; intros _.
  - apply date_compare_eq in E1, E2; subst; now rewrite date_compare_refl.
  - apply date_compare_eq in E1; subst; now rewrite E2.
  - apply date_compare_eq in E2; subst; now rewrite E1.
  - now rewrite (date_compare_lt_trans _ _ _ E1 E2).
Qed.

Lemma date_leb_antisym (a b : date) :
  date_leb a b = true -> date_leb b a = true -> a = b.
Proof.
  unfold date_leb; rewrite (date_compare_antisym a b).
  destruct (date_compare a b) eqn:E; simpl; try discriminate.
  intros _ _; now apply date_compare_eq.
Qed.

Lemma date_ltb_leb_true (a b : date) : date_ltb a b = true -> date_leb a b = true.
Proof. unfold date_ltb, date_leb; destruct (date_compare a b); congruence. Qed.

Lemma date_ltb_irrefl (a : date) : date_ltb a a = false.
Proof. unfold date_ltb; now rewrite date_compare_refl. Qed.

Lemma date_leb_ltb_or_eq (a b : date) :
  date_leb a b = true -> a <> b -> date_ltb a b = true.
Proof.
  unfold date_leb, date_ltb; destruct (date_compare a b) eqn:E; try congruence.
  intros _ H; elim H; now apply date_compare_eq.
Qed.

(** ** Sets and sorting *)

Lemma date_mem_In (d : date) (l : list date) : date_mem d l = true <-> In d l.
Proof.
  induction l as [|x l IH]; simpl.
  - split; [discriminate | tauto].
  - rewrite orb_true_iff, IH, date_eqb_eq. split; intros [H|H]; auto.
Qed.

Lemma date_set_In (d : date) (l : list date) : In d (date_set l) <-> In d l.
Proof.
  induction l as [|x l IH]; simpl; [tauto|].
  destruct (date_mem x l) eqn:E.
  - rewrite IH. apply date_mem_In in E. split; [auto | intros [<-|H]; auto].
  - simpl; rewrite IH; tauto.
Qed.

Lemma date_set_NoDup (l : list date) : NoDup (date_set l).
Proof.
  induction l as [|x l IH]; simpl; [constructor|].
  destruct (date_mem x l) eqn:E; trivial.
  constructor; trivial.
  rewrite date_set_In, <- date_mem_In; congruence.
Qed.

Section SortLemmas.
Variable T : Type.
Variable key : T -> date.

Lemma insert_by_perm (x : T) (l : list T) :
  Permutation (insert_by key x l) (x :: l).
Proof.
  induction l as [|y l IH]; simpl; [reflexivity|].
  destruct (date_leb (key x) (key y)); [reflexivity|].
  rewrite IH; apply perm_swap.
Qed.

Lemma sort_by_perm (l : list T) : Permutation (sort_by key l) l.
Proof.
  induction l as [|x l IH]; simpl; [reflexivity|].
  rewrite insert_by_perm; now constructor.
Qed.

Lemma insert_by_sorted (x : T) (l : list T) :
  StronglySorted (key_le T key) l -> StronglySorted (key_le T key) (insert_by key x l).
Proof.
  induction 1 as [|y l Hs IH Hy]; simpl.
  - repeat constructor.
  - destruct (date_leb (key x) (key y)) eqn:E.
    + constructor; [now constructor|].
      constructor; [exact E|].
      rewrite Forall_forall in *; intros z Hz.
      exact (date_leb_trans _ _ _ E (Hy z Hz)).
    + constructor; trivial.
      rewrite Forall_forall in *; intros z Hz.
      apply (Permutation_in _ (insert_by_perm x l)) in Hz.
      destruct Hz as [<-|Hz]; [|auto].
      now apply date_leb_total.
Qed.

Lemma sort_by_sorted (l : list T) : StronglySorted (key_le T key) (sort_by key l).
Proof.
  induction l; simpl; [constructor | now apply insert_by_sorted].
Qed.

(** A stable sort leaves a list that is already in order as it is. *)
Lemma sort_by_id (l : list T) : StronglySorted (key_le T key) l -> sort_by key l = l.
Proof.
  induction 1 as [|x l Hs IH Hx]; simpl; trivial.
  rewrite IH. destruct l as [|y l]; simpl; trivial.
  inversion Hx as [|? ? Hxy _]; subst. unfold key_le, date_le in Hxy.
  now rewrite Hxy.
Qed.
End SortLemmas.

Lemma sorted_dates_In (d : date) (l : list date) : In d (sorted_dates l) <-> In d l.
Proof.
  unfold sorted_dates; split; intros H.
  - exact (Permutation_in _ (sort_by_perm _ _ l) H).
  - exact (Permutation_in _ (Permutation_sym (sort_by_perm _ _ l)) H).
Qed.

Lemma sorted_dates_NoDup (l : list date) : NoDup l -> NoDup (sorted_dates l).
Proof.
  intros H. apply (Permutation_NoDup (Permutation_sym (sort_by_perm _ _ l)) H).
Qed.

Lemma sorted_dates_le (l : list date) : StronglySorted date_le (sorted_dates l).
Proof. exact (sort_by_sorted _ (fun d => d) l). Qed.

Lemma sorted_nodup_lt (l : list date) :
  StronglySorted date_le l -> NoDup l -> StronglySorted date_lt l.
Proof.
  induction 1 as [|x l Hs IH Hx]; intros Hn; [constructor|].
  inversion Hn as [|? ? Hnx Hn']; subst.
  constructor; [auto|].
  rewrite Forall_forall in *; intros y Hy.
  apply date_leb_ltb_or_eq; [now apply Hx|].
  intros ->; contradiction.
Qed.

Lemma unique_sorted_lt U (text : pystr) :
  StronglySorted date_lt (unique_sorted_dates U text).
Proof.
  unfold unique_sorted_dates. apply sorted_nodup_lt.
  - apply sorted_dates_le.
  - apply sorted_dates_NoDup, date_set_NoDup.
Qed.

Lemma strictly_sorted_NoDup (l : list date) : StronglySorted date_lt l -> NoDup l.
Proof.
  induction 1 as [|x l Hs IH Hx]; constructor; trivial.
  intros Hin. rewrite Forall_forall in Hx. specialize (Hx x Hin).
  unfold date_lt in Hx. now rewrite date_ltb_irrefl in Hx.
Qed.

(** On a list in ascending order the two filters of the classification
    cut the list in two: the dates before the reference date, then the
    others. *)
Lemma classify_split (R : date) (l : list date) :
  StronglySorted date_lt l ->
  filter (fun d => date_ltb d R) l ++ filter (fun d => date_leb R d) l = l.
Proof.
  induction 1 as [|x l Hs IH Hx]; simpl; trivial.
  rewrite (date_ltb_leb x R).
  destruct (date_leb R x) eqn:E; simpl.
  - assert (Hall : forall y, In y l -> date_leb R y = true).
    { rewrite Forall_forall in Hx. intros y Hy.
      exact (date_leb_trans _ _ _ E (date_ltb_leb_true _ _ (Hx y Hy))). }
    assert (H1 : filter (fun d => date_ltb d R) l = []).
    { clear -Hall. induction l as [|y l IH]; simpl; trivial.
      rewrite date_ltb_leb, (Hall y (or_introl eq_refl)); simpl.
      apply IH; intros; apply Hall; now right. }
    assert (H2 : filter (fun d => date_leb R d) l = l).
    { clear -Hall. induction l as [|y l IH]; simpl; trivial.
      rewrite (Hall y (or_introl eq_refl)); f_equal.
      apply IH; intros; apply Hall; now right. }
    now rewrite H1, H2.
  - now rewrite IH.
Qed.

(** ** The matcher on the patterns of the normaliser *)

Section EngineLemmas.
Variable U : unicode.

Lemma in_class_blank (c : N) : in_class U false [CChr 32; CChr 9] c = blank c.
Proof. unfold in_class, blank; simpl. now rewrite orb_false_r. Qed.

Lemma in_class_space (ic : bool) (c : N) : in_class U ic [CSpc] c = is_space c.
Proof. unfold in_class; simpl. now rewrite orb_false_r. Qed.

Lemma in_class_nl (c : N) : in_class U false [CChr 10] c = (c =? 10)%N.
Proof. unfold in_class; simpl. now rewrite orb_false_r. Qed.

(** With nothing after it that can fail, an unbounded repetition takes
    the whole run. *)
Lemma rep_greedy_run (ic : bool) (B : Type) (g : mstate -> B) (cs : cclass)
    (rest : pystr) :
  forall lo prev pos caps,
    rep_greedy U ic cs lo None prev rest pos caps (fun s => Some (g s)) =
    let n := prefix_len (in_class U ic cs) rest in
    if lo <=? n then
      Some (g {| st_prev := run_prev (in_class U ic cs) prev rest;
                 st_rest := skipn n rest; st_pos := pos + n; st_caps := caps |})
    else None.
Proof.
  induction rest as [|c rest IH]; intros lo prev pos caps; simpl.
  - destruct lo; simpl; trivial. now rewrite Nat.add_0_r.
  - destruct (in_class U ic cs c) eqn:E; simpl.
    + rewrite IH; simpl.
      destruct lo as [|lo]; simpl.
      * now rewrite Nat.add_succ_r.
      * destruct (lo <=? prefix_len (in_class U ic cs) rest); trivial.
        now rewrite Nat.add_succ_r.
    + destruct lo; simpl; trivial. now rewrite Nat.add_0_r.
Qed.

Lemma prefix_len_ext (p q : N -> bool) (s : pystr) :
  (forall c, p c = q c) -> prefix_len p s = prefix_len q s.
Proof. intros H; induction s as [|c s IH]; simpl; trivial. now rewrite H, IH. Qed.

Lemma match_blank_run (prev : option N) (rest : pystr) (pos : nat) :
  option_map m_len (match_at U false blank_run prev rest pos) =
  match prefix_len blank rest with
  | O => None
  | S n => Some (S n)
  end.
Proof.
  unfold match_at, blank_run, plus; simpl rmatch.
  rewrite rep_greedy_run; simpl.
  rewrite (prefix_len_ext _ _ rest in_class_blank).
  destruct (prefix_len blank rest) as [|n]; simpl; trivial.
  unfold m_len; simpl. f_equal; lia.
Qed.

(** [re.sub] of [blank_run] by one space is [squeeze]. *)
Lemma sub_blank_run (rest : pystr) :
  forall prev pos,
    sub_from U false blank_run (fun _ => [32%N]) prev rest pos 0 = squeeze false rest /\
    sub_from U false blank_run (fun _ => [32%N]) prev rest pos (prefix_len blank rest)
      = squeeze true rest.
Proof.
  induction rest as [|c rest IH]; intros prev pos.
  - pose proof (match_blank_run prev [] pos) as H.
    cbn [prefix_len squeeze sub_from] in *.
    destruct (match_at U false blank_run prev [] pos); [discriminate H|]. auto.
  - pose proof (match_blank_run prev (c :: rest) pos) as H.
    cbn [prefix_len squeeze] in *.
    destruct (blank c) eqn:Ec.
    + split.
      * cbn [sub_from].
        destruct (match_at U false blank_run prev (c :: rest) pos) as [m|];
          [|discriminate H].
        cbn [option_map] in H. injection H as H. rewrite H. cbn [app].
        f_equal. apply IH.
      * cbn [sub_from]. apply IH.
    + assert (Hn : match_at U false blank_run prev (c :: rest) pos = None).
      { destruct (match_at U false blank_run prev (c :: rest) pos);
          [discriminate H|trivial]. }
      cbn [sub_from]. rewrite Hn. split; f_equal; apply IH.
Qed.

Lemma normalize_blank (s : pystr) :
  re_sub U false blank_run (fun _ => [32%N]) s = squeeze false s.
Proof. unfold re_sub. apply sub_blank_run. Qed.

Lemma is_space_nl : is_space 10 = true.
Proof. reflexivity. Qed.

Lemma eqb_nl_space (c : N) : (c =? 10)%N = true -> is_space c = true.
Proof. intros H; apply N.eqb_eq in H; now subst. Qed.

(** The length of a match of [line_break_run]: the whole run of
    whitespace, when it holds a line break. *)
Lemma match_line_break_aux (pos0 : nat) (g : mstate -> rematch)
    (Hg : forall s, m_len (g s) = st_pos s - pos0) (rest : pystr) :
  forall prev i caps,
    option_map m_len
      (rep_greedy U false [CSpc] 0 None prev rest (pos0 + i) caps
         (fun s1 => rmatch U false (RSeq (chr 10) ws_star) s1
            (fun s' => Some (g s')))) =
    if nl_in_run rest then Some (i + prefix_len is_space rest) else None.
Proof.
  assert (Hk : forall prev c rest' p caps,
    option_map m_len
      (rmatch U false (RSeq (chr 10) ws_star)
         {| st_prev := prev; st_rest := c :: rest'; st_pos := p; st_caps := caps |}
         (fun s' => Some (g s'))) =
    if (c =? 10)%N then Some (S p + prefix_len is_space rest' - pos0) else None).
  { intros prev c rest' p caps. unfold chr, ws_star, star. cbn [rmatch st_rest st_pos st_caps].
    rewrite in_class_nl. destruct (c =? 10)%N; trivial.
    rewrite rep_greedy_run. cbn [Nat.leb option_map].
    rewrite Hg. cbn [st_pos].
    now rewrite (prefix_len_ext _ _ rest' (in_class_space false)). }
  induction rest as [|c rest IH]; intros prev i caps.
  - reflexivity.
  - cbn [rep_greedy nl_in_run prefix_len hi_allows andb pred hi_pred].
    rewrite in_class_space.
    destruct (is_space c) eqn:Ec; cbn [andb].
    + replace (S (pos0 + i)) with (pos0 + S i) by lia.
      specialize (IH (Some c) (S i) caps).
      destruct (rep_greedy U false [CSpc] 0 None (Some c) rest (pos0 + S i) caps _) as [m|].
      * cbn [option_map] in *. destruct (nl_in_run rest); [|discriminate IH].
        rewrite orb_true_r. rewrite IH. f_equal; lia.
      * cbn [option_map] in IH. destruct (nl_in_run rest); [discriminate IH|].
        rewrite orb_false_r, Hk.
        destruct (c =? 10)%N; trivial. f_equal; lia.
    + rewrite Hk. destruct (c =? 10)%N eqn:E10; trivial.
      apply eqb_nl_space in E10; congruence.
Qed.

Lemma match_line_break_run (prev : option N) (rest : pystr) (pos : nat) :
  option_map m_len (match_at U false line_break_run prev rest pos) =
  if nl_in_run rest then Some (prefix_len is_space rest) else None.
Proof.
  unfold match_at, line_break_run, seqs, ws_star at 1, star.
  cbn [rmatch st_prev st_rest st_pos st_caps].
  pose proof (match_line_break_aux pos
    (fun s' => {| m_start := pos; m_end := st_pos s';
                  m_text := firstn (st_pos s' - pos) rest; m_caps := st_caps s' |})
    (fun s => eq_refl) rest prev 0 []) as H.
  rewrite Nat.add_0_r in H. exact H.
Qed.

(** [re.sub] of [line_break_run] by one line break is [trimnl]. *)
Lemma sub_line_break_run (rest : pystr) :
  forall prev pos,
    sub_from U false line_break_run (fun _ => [10%N]) prev rest pos 0
      = trimnl false rest /\
    sub_from U false line_break_run (fun _ => [10%N]) prev rest pos
      (prefix_len is_space rest) = trimnl true rest.
Proof.
  induction rest as [|c rest IH]; intros prev pos.
  - pose proof (match_line_break_run prev [] pos) as H.
    cbn [prefix_len trimnl sub_from nl_in_run] in *.
    destruct (match_at U false line_break_run prev [] pos); [discriminate H|]. auto.
  - pose proof (match_line_break_run prev (c :: rest) pos) as H.
    cbn [prefix_len trimnl sub_from] in *.
    split.
    + destruct (is_space c) eqn:Ec; cbn [andb].
      * destruct (nl_in_run (c :: rest)).
        -- destruct (match_at U false line_break_run prev (c :: rest) pos) as [m|];
             [|discriminate H].
           cbn [option_map] in H. injection H as H. rewrite H. cbn [app].
           f_equal. apply IH.
        -- destruct (match_at U false line_break_run prev (c :: rest) pos) as [m|];
             [discriminate H|].
           f_equal. apply IH.
      * assert (Hn : nl_in_run (c :: rest) = false) by (cbn [nl_in_run]; now rewrite Ec).
        rewrite Hn in H.
        destruct (match_at U false line_break_run prev (c :: rest) pos) as [m|];
          [discriminate H|].
        f_equal. apply IH.
    + destruct (is_space c) eqn:Ec.
      * apply IH.
      * destruct (match_at U false line_break_run prev (c :: rest) pos) as [m|] eqn:Em.
        -- exfalso. cbn [nl_in_run] in H. rewrite Ec in H. discriminate H.
        -- f_equal. apply IH.
Qed.

Lemma normalize_breaks (s : pystr) :
  re_sub U false line_break_run (fun _ => [10%N]) s = trimnl false s.
Proof. unfold re_sub. apply sub_line_break_run. Qed.

(** [_normalize_text] in terms of the reference functions. *)
Lemma normalize_text_eq (text : pystr) :
  _normalize_text U text = strip (trimnl false (squeeze false (replace_all text))).
Proof.
  unfold _normalize_text. now rewrite normalize_blank, normalize_breaks.
Qed.
End EngineLemmas.

(** ** Shape of a normalised text *)


Lemma blank_space (c : N) : blank c = true -> is_space c = true.
Proof.
  unfold blank; rewrite orb_true_iff, !N.eqb_eq; intros [->| ->]; reflexivity.
Qed.

Lemma not_space_not_blank (c : N) : is_space c = false -> blank c = false.
Proof.
  intros H; destruct (blank c) eqn:E; trivial.
  apply blank_space in E; congruence.
Qed.

Lemma adj_ok_tail (P : N -> N -> bool) (a : N) (s : pystr) :
  adj_ok P (a :: s) = true -> adj_ok P s = true.
Proof.
  destruct s as [|b s]; simpl; trivial.
  now rewrite andb_true_iff.
Qed.

Lemma adj_ok_cons (P : N -> N -> bool) (a b : N) (s : pystr) :
  adj_ok P (a :: b :: s) = P a b && adj_ok P (b :: s).
Proof. reflexivity. Qed.

(** *** Replacement of single characters *)

Lemma replace_char_map (old new : N) (s : pystr) :
  replace_char old [new] s = map (fun c => if (c =? old)%N then new else c) s.
Proof.
  unfold replace_char; induction s as [|c s IH]; simpl; trivial.
  rewrite IH; now destruct (c =? old)%N.
Qed.

Lemma replace_all_map (s : pystr) : replace_all s = map replace_one s.
Proof.
  unfold replace_all; rewrite !replace_char_map, !map_map.
  apply map_ext; intros c; unfold replace_one.
  destruct (N.eqb_spec c 160); [subst; reflexivity|].
  destruct (N.eqb_spec c 8211); [subst; reflexivity|].
  destruct (N.eqb_spec c 8212); [subst; reflexivity|].
  reflexivity.
Qed.

Lemma replace_one_clean (c : N) : replaced_char (replace_one c) = false.
Proof.
  unfold replace_one, replaced_char.
  destruct (N.eqb_spec c 160); [reflexivity|].
  destruct (N.eqb_spec c 8211); [reflexivity|].
  destruct (N.eqb_spec c 8212); [reflexivity|].
  destruct (N.eqb_spec c 8210); [reflexivity|].
  repeat match goal with
  | |- context [(c =? ?k)%N] => destruct (N.eqb_spec c k); [contradiction|]
  end; reflexivity.
Qed.

Lemma replace_one_id (c : N) : replaced_char c = false -> replace_one c = c.
Proof.
  unfold replace_one, replaced_char; rewrite !orb_false_iff.
  intros [[[-> ->] ->] ->]; reflexivity.
Qed.

Lemma replace_one_space (c : N) : is_space c = true -> is_space (replace_one c) = true.
Proof.
  unfold replace_one.
  destruct (N.eqb_spec c 160); [reflexivity|].
  destruct (N.eqb_spec c 8211); [subst; discriminate|].
  destruct (N.eqb_spec c 8212); [subst; discriminate|].
  destruct (N.eqb_spec c 8210); [subst; discriminate|]; trivial.
Qed.

(** *** [squeeze] *)

Lemma squeeze_replaced (s : pystr) : forall b,
  forallb (fun c => negb (replaced_char c)) s = true ->
  forallb clean_char (squeeze b s) = true.
Proof.
  induction s as [|c s IH]; intros b; simpl; trivial.
  rewrite andb_true_iff; intros [Hc Hs].
  destruct (blank c) eqn:Eb.
  - destruct b; simpl; auto.
  - simpl. rewrite (IH _ Hs), andb_true_r. unfold clean_char.
    rewrite Hc; simpl. unfold blank in Eb. apply orb_false_iff in Eb.
    now destruct Eb as [_ ->].
Qed.

Lemma squeeze_adj (s : pystr) : forall p,
  adj_ok no_blank_pair (p :: squeeze (blank p) s) = true.
Proof.
  induction s as [|c s IH]; intros p; [reflexivity|].
  cbn [squeeze]. destruct (blank c) eqn:Ec.
  - destruct (blank p) eqn:Ep.
    + specialize (IH p). now rewrite Ep in IH.
    + rewrite adj_ok_cons. unfold no_blank_pair at 1. rewrite Ep; simpl.
      apply (IH 32%N).
  - rewrite adj_ok_cons. unfold no_blank_pair at 1. rewrite Ec, andb_false_r; simpl.
    specialize (IH c). now rewrite Ec in IH.
Qed.

Lemma squeeze_blank_pairs (s : pystr) : adj_ok no_blank_pair (squeeze false s) = true.
Proof. exact (adj_ok_tail _ _ _ (squeeze_adj s 65%N)). Qed.

Lemma squeeze_id (s : pystr) : forall p,
  forallb clean_char s = true ->
  adj_ok no_blank_pair (p :: s) = true ->
  squeeze (blank p) s = s.
Proof.
  induction s as [|c s IH]; intros p Hc Ha; [reflexivity|].
  simpl in Hc; apply andb_true_iff in Hc; destruct Hc as [Hc Hs].
  rewrite adj_ok_cons in Ha; apply andb_true_iff in Ha; destruct Ha as [Hp Ha].
  cbn [squeeze]. destruct (blank c) eqn:Ec.
  - unfold no_blank_pair in Hp. rewrite Ec, andb_true_r in Hp.
    apply negb_true_iff in Hp. rewrite Hp.
    assert (c = 32%N) as ->.
    { unfold blank in Ec. unfold clean_char in Hc.
      apply andb_true_iff in Hc; destruct Hc as [_ Hc]. apply negb_true_iff in Hc.
      rewrite Hc, orb_false_r in Ec. now apply N.eqb_eq. }
    f_equal. apply (IH 32%N); trivial.
  - f_equal. specialize (IH c Hs Ha). now rewrite Ec in IH.
Qed.

Lemma squeeze_space (s : pystr) : forall b,
  forallb is_space s = true -> forallb is_space (squeeze b s) = true.
Proof.
  induction s as [|c s IH]; intros b; simpl; trivial.
  rewrite andb_true_iff; intros [Hc Hs].
  destruct (blank c); [destruct b|]; simpl; auto.
  now rewrite Hc, IH.
Qed.

(** *** [trimnl] *)

Lemma trimnl_chars (s : pystr) : forall b,
  forallb clean_char s = true -> forallb clean_char (trimnl b s) = true.
Proof.
  induction s as [|c s IH]; intros b; simpl; trivial.
  rewrite andb_true_iff; intros [Hc Hs].
  destruct b.
  - destruct (is_space c); simpl; auto. now rewrite Hc, IH.
  - destruct (is_space c && (is_space c && ((c =? 10)%N || nl_in_run s))); simpl.
    + now apply IH.
    + now rewrite Hc, IH.
Qed.

Lemma trimnl_space (s : pystr) : forall b,
  forallb is_space s = true -> forallb is_space (trimnl b s) = true.
Proof.
  induction s as [|c s IH]; intros b; simpl; trivial.
  rewrite andb_true_iff; intros [Hc Hs].
  destruct b.
  - rewrite Hc. now apply IH.
  - destruct (is_space c && (is_space c && ((c =? 10)%N || nl_in_run s))); simpl.
    + now apply IH.
    + now rewrite Hc, IH.
Qed.

Lemma trimnl_blank_pairs_aux (s : pystr) :
  (forall p, adj_ok no_blank_pair (p :: s) = true ->
             adj_ok no_blank_pair (p :: trimnl false s) = true) /\
  (adj_ok no_blank_pair s = true ->
   forall q, blank q = false -> adj_ok no_blank_pair (q :: trimnl true s) = true).
Proof.
  induction s as [|c s [IH1 IH2]]; [split; auto|].
  split.
  - intros p Ha. rewrite adj_ok_cons in Ha.
    apply andb_true_iff in Ha; destruct Ha as [Hp Ha].
    cbn [trimnl]. destruct (is_space c && nl_in_run (c :: s)).
    + rewrite adj_ok_cons. apply andb_true_iff; split.
      * unfold no_blank_pair. change (blank 10) with false. now rewrite andb_false_r.
      * apply IH2; [exact (adj_ok_tail _ _ _ Ha) | reflexivity].
    + rewrite adj_ok_cons, Hp; simpl. now apply IH1.
  - intros Ha q Hq. cbn [trimnl]. destruct (is_space c).
    + apply IH2; [exact (adj_ok_tail _ _ _ Ha) | trivial].
    + rewrite adj_ok_cons. apply andb_true_iff; split.
      * unfold no_blank_pair. now rewrite Hq.
      * now apply IH1.
Qed.

Lemma trimnl_blank_pairs (s : pystr) :
  adj_ok no_blank_pair s = true -> adj_ok no_blank_pair (trimnl false s) = true.
Proof.
  intros H. apply (adj_ok_tail _ 65%N).
  apply (proj1 (trimnl_blank_pairs_aux s)).
  destruct s as [|c s]; trivial.
Qed.

Lemma trimnl_breaks_aux (s : pystr) :
  (forall p, (is_space p = true -> (p =? 10)%N = false /\ nl_in_run s = false) ->
             adj_ok no_space_at_break (p :: trimnl false s) = true) /\
  adj_ok no_space_at_break (10%N :: trimnl true s) = true.
Proof.
  induction s as [|c s [IH1 IH2]]; [split; auto|].
  split.
  - intros p Hp. cbn [trimnl].
    destruct (is_space c && nl_in_run (c :: s)) eqn:E.
    + rewrite adj_ok_cons, IH2, andb_true_r.
      apply andb_true_iff in E; destruct E as [_ E].
      unfold no_space_at_break.
      destruct (is_space p) eqn:Esp.
      * destruct (Hp eq_refl) as [_ Hn]; congruence.
      * simpl. destruct (p =? 10)%N eqn:E10; trivial.
        apply eqb_nl_space in E10; congruence.
    + rewrite adj_ok_cons. apply andb_true_iff; split.
      * unfold no_space_at_break.
        assert (Hc10 : (c =? 10)%N = false).
        { destruct (c =? 10)%N eqn:E10; trivial.
          rewrite (eqb_nl_space _ E10) in E. cbn [nl_in_run] in E.
          rewrite (eqb_nl_space _ E10), E10 in E. discriminate E. }
        rewrite Hc10, andb_false_r; simpl.
        destruct (p =? 10)%N eqn:Ep10; trivial.
        destruct (Hp (eqb_nl_space _ Ep10)) as [Hx _]; congruence.
      * apply IH1. intros Hc. rewrite Hc in E. cbn [andb nl_in_run] in E.
        rewrite Hc in E; cbn [andb] in E. now apply orb_false_iff in E.
  - cbn [trimnl]. destruct (is_space c) eqn:Ec; trivial.
    rewrite adj_ok_cons. apply andb_true_iff; split.
    + unfold no_space_at_break. rewrite Ec. simpl.
      destruct (c =? 10)%N eqn:E10; trivial.
      apply eqb_nl_space in E10; congruence.
    + apply IH1. intros H; congruence.
Qed.

Lemma trimnl_breaks (s : pystr) : adj_ok no_space_at_break (trimnl false s) = true.
Proof.
  apply (adj_ok_tail _ 65%N). apply (proj1 (trimnl_breaks_aux s)).
  intros H; discriminate H.
Qed.

Lemma run_without_break (s : pystr) : forall c,
  adj_ok no_space_at_break (c :: s) = true ->
  is_space c = true -> (c =? 10)%N = false -> nl_in_run s = false.
Proof.
  induction s as [|b s IH]; intros c Ha Hc H10; [reflexivity|].
  rewrite adj_ok_cons in Ha; apply andb_true_iff in Ha; destruct Ha as [Hp Ha].
  unfold no_space_at_break in Hp. rewrite Hc, H10 in Hp. simpl in Hp.
  rewrite andb_true_r in Hp. apply negb_true_iff in Hp.
  cbn [nl_in_run]. rewrite Hp. destruct (is_space b) eqn:Eb; trivial.
  simpl. now apply (IH b).
Qed.

Lemma trimnl_id (s : pystr) :
  adj_ok no_space_at_break s = true ->
  trimnl false s = s /\
  (match s with c :: _ => is_space c = false | [] => True end -> trimnl true s = s).
Proof.
  induction s as [|c s IH]; intros Ha; [split; reflexivity|].
  specialize (IH (adj_ok_tail _ _ _ Ha)). destruct IH as [IH1 IH2].
  split.
  - cbn [trimnl]. destruct (is_space c && nl_in_run (c :: s)) eqn:E.
    + apply andb_true_iff in E; destruct E as [Hc Hn].
      destruct (c =? 10)%N eqn:E10.
      * apply N.eqb_eq in E10; subst c. f_equal. apply IH2.
        destruct s as [|b s]; trivial.
        rewrite adj_ok_cons in Ha; apply andb_true_iff in Ha; destruct Ha as [Hp _].
        unfold no_space_at_break in Hp. simpl in Hp.
        apply andb_true_iff in Hp; destruct Hp as [_ Hp]. now apply negb_true_iff in Hp.
      * cbn [nl_in_run] in Hn. rewrite Hc, E10 in Hn. simpl in Hn.
        now rewrite (@run_without_break s c Ha Hc E10) in Hn.
    + now rewrite IH1.
  - intros Hc. cbn [trimnl]. rewrite Hc. now rewrite IH1.
Qed.

(** *** [strip] *)

Lemma lstrip_head (s : pystr) :
  match lstrip s with c :: _ => is_space c = false | [] => True end.
Proof.
  induction s as [|c s IH]; simpl; trivial.
  destruct (is_space c) eqn:E; trivial.
Qed.

Lemma lstrip_id (s : pystr) :
  match s with c :: _ => is_space c = false | [] => True end -> lstrip s = s.
Proof. destruct s as [|c s]; simpl; trivial. now intros ->. Qed.

Lemma lstrip_all_space (s : pystr) : forallb is_space s = true -> lstrip s = [].
Proof.
  induction s as [|c s IH]; simpl; trivial.
  rewrite andb_true_iff; intros [-> Hs]; auto.
Qed.

Lemma lstrip_forallb (p : N -> bool) (s : pystr) :
  forallb p s = true -> forallb p (lstrip s) = true.
Proof.
  induction s as [|c s IH]; simpl; trivial.
  rewrite andb_true_iff; intros [Hc Hs].
  destruct (is_space c); auto. simpl. now rewrite Hc, Hs.
Qed.

Lemma lstrip_adj (P : N -> N -> bool) (s : pystr) :
  adj_ok P s = true -> adj_ok P (lstrip s) = true.
Proof.
  induction s as [|c s IH]; intros H; trivial.
  cbn [lstrip]. destruct (is_space c); trivial.
  apply IH. exact (adj_ok_tail _ _ _ H).
Qed.

Lemma lstrip_app (a b : pystr) :
  lstrip (a ++ b) = if forallb is_space a then lstrip b else lstrip a ++ b.
Proof.
  induction a as [|c a IH]; simpl; trivial.
  destruct (is_space c); simpl; trivial.
Qed.

Lemma forallb_rev (p : N -> bool) (s : pystr) : forallb p (rev s) = forallb p s.
Proof.
  induction s as [|c s IH]; simpl; trivial.
  rewrite forallb_app, IH; simpl. rewrite andb_true_r. apply andb_comm.
Qed.

Lemma rstrip_all_space (s : pystr) : forallb is_space s = true -> rstrip s = [].
Proof.
  intros H. unfold rstrip. rewrite lstrip_all_space; trivial.
  now rewrite forallb_rev.
Qed.

(** [rstrip] from the left: the text is cut where only whitespace follows. *)
Lemma rstrip_cons (c : N) (s : pystr) :
  rstrip (c :: s) = if forallb is_space (c :: s) then [] else c :: rstrip s.
Proof.
  unfold rstrip. cbn [rev]. rewrite lstrip_app, forallb_rev.
  cbn [forallb]. destruct (forallb is_space s) eqn:Es.
  - rewrite andb_true_r. cbn [lstrip]. destruct (is_space c); trivial.
    rewrite lstrip_all_space by now rewrite forallb_rev. reflexivity.
  - rewrite andb_false_r. rewrite rev_app_distr. reflexivity.
Qed.

Lemma rstrip_forallb (p : N -> bool) (s : pystr) :
  forallb p s = true -> forallb p (rstrip s) = true.
Proof.
  induction s as [|c s IH]; [trivial|].
  rewrite rstrip_cons. cbn [forallb]. rewrite andb_true_iff; intros [Hc Hs].
  destruct (is_space c && forallb is_space s); trivial.
  cbn [forallb]. now rewrite Hc, IH.
Qed.

Lemma rstrip_adj (P : N -> N -> bool) (s : pystr) :
  adj_ok P s = true -> adj_ok P (rstrip s) = true.
Proof.
  induction s as [|c s IH]; intros H; [trivial|].
  rewrite rstrip_cons. destruct (forallb is_space (c :: s)); trivial.
  specialize (IH (adj_ok_tail _ _ _ H)).
  destruct s as [|b s]; [reflexivity|].
  rewrite rstrip_cons in *. destruct (forallb is_space (b :: s)); trivial.
  rewrite adj_ok_cons in H |- *. apply andb_true_iff in H; destruct H as [H _].
  now rewrite H, IH.
Qed.

Lemma rstrip_head (s : pystr) :
  match s with c :: _ => is_space c = false | [] => True end ->
  match rstrip s with c :: _ => is_space c = false | [] => True end.
Proof.
  destruct s as [|c s]; trivial. intros Hc. rewrite rstrip_cons.
  cbn [forallb]. now rewrite Hc.
Qed.

Lemma strip_rstrip (s : pystr) : strip s = rstrip (lstrip s).
Proof. reflexivity. Qed.

Lemma strip_id (s : pystr) :
  match s with c :: _ => is_space c = false | [] => True end ->
  match rev s with c :: _ => is_space c = false | [] => True end ->
  strip s = s.
Proof.
  intros H1 H2. unfold strip. rewrite (lstrip_id _ H1), (lstrip_id _ H2).
  apply rev_involutive.
Qed.

Lemma strip_all_space (s : pystr) : forallb is_space s = true -> strip s = [].
Proof. intros H. unfold strip. now rewrite (lstrip_all_space _ H). Qed.

(** *** The normal form *)

Section Normalised.
Variable U : unicode.

Lemma normalize_text_normalized (text : pystr) :
  normalized (_normalize_text U text).
Proof.
  rewrite normalize_text_eq. rewrite strip_rstrip.
  set (v := replace_all text).
  assert (Hv : forallb (fun c => negb (replaced_char c)) v = true).
  { unfold v. rewrite replace_all_map. rewrite forallb_forall.
    intros c Hc. apply in_map_iff in Hc. destruct Hc as [x [<- _]].
    now rewrite replace_one_clean. }
  constructor.
  - apply rstrip_forallb, lstrip_forallb, trimnl_chars.
    now apply squeeze_replaced.
  - apply rstrip_adj, lstrip_adj, trimnl_blank_pairs, squeeze_blank_pairs.
  - apply rstrip_adj, lstrip_adj, trimnl_breaks.
  - apply rstrip_head, lstrip_head.
  - unfold rstrip. rewrite rev_involutive. apply lstrip_head.
Qed.

Lemma normalized_fixed (s : pystr) : normalized s -> _normalize_text U s = s.
Proof.
  intros [Hc Hb Hn Hh Hl]. rewrite normalize_text_eq.
  assert (H1 : replace_all s = s).
  { rewrite replace_all_map. rewrite <- (map_id s) at 2. apply map_ext_in.
    intros c Hin. apply replace_one_id.
    rewrite forallb_forall in Hc. specialize (Hc c Hin).
    apply andb_true_iff in Hc. destruct Hc as [Hc _]. now apply negb_true_iff in Hc. }
  rewrite H1.
  assert (H2 : squeeze false s = s).
  { apply (squeeze_id s 65%N); trivial. destruct s; trivial. }
  rewrite H2. rewrite (proj1 (trimnl_id s Hn)).
  now apply strip_id.
Qed.

Lemma normalize_text_idempotent (text : pystr) :
  _normalize_text U (_normalize_text U text) = _normalize_text U text.
Proof. apply normalized_fixed, normalize_text_normalized. Qed.

Lemma normalize_text_space (text : pystr) :
  forallb is_space text = true -> _normalize_text U text = [].
Proof.
  intros H. rewrite normalize_text_eq. apply strip_all_space.
  apply trimnl_space, squeeze_space. rewrite replace_all_map.
  rewrite forallb_forall in *. intros c Hc. apply in_map_iff in Hc.
  destruct Hc as [x [<- Hx]]. apply replace_one_space; auto.
Qed.
End Normalised.

(** ** Parsing a formatted date gives the date back *)

(** Closed tests on characters are evaluated; the matcher is then reduced
    with the tests on unknown characters left in place. *)
Ltac eval_closed_tests :=
  repeat match goal with
  | |- context [is_space ?n] =>
      let b := eval vm_compute in (is_space n) in
      match b with
      | true => change (is_space n) with true
      | false => change (is_space n) with false
      end
  end.

Ltac split_on_continuation K :=
  repeat match goal with
  | |- context [match K ?s with _ => _ end] => destruct (K s)
  end.

Lemma N_in_range (lo len : nat) (n : N) :
  (N.of_nat lo <= n < N.of_nat (lo + len))%N -> In n (map N.of_nat (seq lo len)).
Proof.
  intros H. rewrite <- (N2Nat.id n). apply in_map, in_seq. lia.
Qed.

Section Stages.
Variable U : unicode.
Variable A : Type.

(** The day of [%d], written with two digits and followed by a space. *)
Lemma day_stage (n : N) :
  (1 <= n <= 31)%N ->
  forall (K : mstate -> option A) (c : N) (tl : pystr),
    is_space c = false ->
    rmatch U true re_d
      {| st_prev := None; st_rest := two_digits n ++ 32%N :: c :: tl;
         st_pos := 0; st_caps := [] |}
      (fun s1 => rmatch U true ws_plus s1 K)
    = K {| st_prev := Some 32%N; st_rest := c :: tl; st_pos := 3;
           st_caps := [(G_d, two_digits n)] |}.
Proof.
  intros Hn K c tl Hc.
  assert (Hin : In n (map N.of_nat (seq 1 31))) by (apply N_in_range; lia).
  cbv [seq map] in Hin.
  repeat (destruct Hin as [<-|Hin];
    [cbv -[is_space]; eval_closed_tests; rewrite ?Hc; cbv iota;
     split_on_continuation K; reflexivity|]).
  destruct Hin.
Qed.

(** The month of [%B], by its full name and followed by a space. *)
Lemma month_stage (m : N) :
  (1 <= m <= 12)%N ->
  forall (K : mstate -> option A) (c : N) (tl : pystr) dcap,
    is_space c = false ->
    rmatch U true re_B
      {| st_prev := Some 32%N; st_rest := month_name m ++ 32%N :: c :: tl;
         st_pos := 3; st_caps := dcap |}
      (fun s1 => rmatch U true ws_plus s1 K)
    = K {| st_prev := Some 32%N; st_rest := c :: tl;
           st_pos := 4 + length (month_name m);
           st_caps := (G_B, month_name m) :: dcap |}.
Proof.
  intros Hm K c tl dcap Hc.
  assert (Hin : In m (map N.of_nat (seq 1 12))) by (apply N_in_range; lia).
  cbv [seq map] in Hin.
  repeat (destruct Hin as [<-|Hin];
    [cbv -[is_space]; eval_closed_tests; rewrite ?Hc; cbv iota;
     split_on_continuation K; reflexivity|]).
  destruct Hin.
Qed.

Lemma in_class_digit (ic : bool) (c : N) : in_class U ic [CDig] c = is_decimal U c.
Proof. unfold in_class; simpl. now rewrite orb_false_r. Qed.

(** The year of [%Y]: four digits. *)
Lemma year_stage (y1 y2 y3 y4 : N) (tl : pystr) :
  is_decimal U y1 = true -> is_decimal U y2 = true ->
  is_decimal U y3 = true -> is_decimal U y4 = true ->
  forall (K : mstate -> option A) prev pos caps,
    rmatch U true re_Y
      {| st_prev := prev; st_rest := y1 :: y2 :: y3 :: y4 :: tl;
         st_pos := pos; st_caps := caps |} K
    = K {| st_prev := Some y4; st_rest := tl; st_pos := 4 + pos;
           st_caps := (G_Y, [y1; y2; y3; y4]) :: caps |}.
Proof.
  intros H1 H2 H3 H4 K prev pos caps.
  unfold re_Y. cbn [seqs rmatch st_rest st_pos st_prev st_caps].
  rewrite !in_class_digit, H1, H2, H3, H4.
  replace (S (S (S (S pos))) - pos) with 4 by lia.
  reflexivity.
Qed.
End Stages.

Section RoundTrip.
Variable U : unicode.

Lemma digit_char_range (n : N) : (48 <= digit_char n <= 57)%N.
Proof.
  unfold digit_char. pose proof (N.mod_upper_bound n 10 ltac:(lia)) as H.
  revert H. generalize (n mod 10)%N. intros; lia.
Qed.

Lemma decimal_ascii_digit (c : N) :
  (48 <= c <= 57)%N -> decimal U c = Some (c - 48)%N.
Proof.
  intros H. unfold decimal, is_ascii.
  destruct (N.ltb_spec c 128); [|lia].
  destruct (N.leb_spec 48 c); [|lia].
  destruct (N.leb_spec c 57); [|lia]. reflexivity.
Qed.

Lemma decimal_digit_char (n : N) : decimal U (digit_char n) = Some (n mod 10)%N.
Proof.
  rewrite decimal_ascii_digit by apply digit_char_range.
  unfold digit_char. f_equal. generalize (n mod 10)%N. intros; lia.
Qed.

Lemma is_decimal_digit_char (n : N) : is_decimal U (digit_char n) = true.
Proof. unfold is_decimal. now rewrite decimal_digit_char. Qed.

Lemma digit_char_not_space (n : N) : is_space (digit_char n) = false.
Proof.
  pose proof (digit_char_range n) as H. unfold is_space.
  repeat match goal with
  | |- context [(?a <=? ?b)%N] => destruct (N.leb_spec a b); try lia
  | |- context [(?a =? ?b)%N] => destruct (N.eqb_spec a b); try lia
  end; reflexivity.
Qed.

Lemma strip_digits_ends (a b : N) (s : pystr) :
  strip (digit_char a :: s ++ [digit_char b]) = digit_char a :: s ++ [digit_char b].
Proof.
  apply strip_id.
  - apply digit_char_not_space.
  - change (digit_char a :: s ++ [digit_char b])
      with ((digit_char a :: s) ++ [digit_char b]).
    rewrite rev_app_distr. simpl. apply digit_char_not_space.
Qed.

Lemma py_int_four_digits (y : N) : (y < 10000)%N -> py_int U (four_digits y) = Some y.
Proof.
  intros Hy. unfold py_int, four_digits.
  change [digit_char (y / 1000); digit_char (y / 100); digit_char (y / 10); digit_char y]
    with (digit_char (y / 1000) :: [digit_char (y / 100); digit_char (y / 10)] ++ [digit_char y]).
  rewrite strip_digits_ends. cbn [app int_digits].
  rewrite !decimal_digit_char. f_equal.
  assert (E2 : (y / 100 = y / 10 / 10)%N) by (now rewrite N.Div0.div_div).
  assert (E3 : (y / 1000 = y / 100 / 10)%N) by (now rewrite N.Div0.div_div).
  assert (H3 : (y / 1000 < 10)%N) by (apply N.Div0.div_lt_upper_bound; lia).
  rewrite (N.mod_small (y / 1000) 10) by trivial.
  pose proof (N.div_mod y 10 ltac:(lia)) as D0.
  pose proof (N.div_mod (y / 10) 10 ltac:(lia)) as D1.
  pose proof (N.div_mod (y / 100) 10 ltac:(lia)) as D2.
  rewrite <- E2 in D1. rewrite <- E3 in D2.
  revert D0 D1 D2 H3.
  generalize (y mod 10)%N, ((y / 10) mod 10)%N, ((y / 100) mod 10)%N,
             (y / 1000)%N, (y / 100)%N, (y / 10)%N.
  intros; lia.
Qed.

Lemma py_int_two_digits (d : N) : (d < 100)%N -> py_int U (two_digits d) = Some d.
Proof.
  intros Hd. unfold py_int, two_digits.
  change [digit_char (d / 10); digit_char d]
    with (digit_char (d / 10) :: [] ++ [digit_char d]).
  rewrite strip_digits_ends. cbn [app int_digits].
  rewrite !decimal_digit_char. f_equal.
  assert (H1 : (d / 10 < 10)%N) by (apply N.Div0.div_lt_upper_bound; lia).
  rewrite (N.mod_small (d / 10) 10) by trivial.
  pose proof (N.div_mod d 10 ltac:(lia)) as D0. revert D0.
  generalize (d mod 10)%N, (d / 10)%N. intros; lia.
Qed.

Lemma pretty_eq (d : date) :
  pretty d = two_digits (day d) ++ 32%N :: month_name (month d)
               ++ 32%N :: four_digits (year d).
Proof. reflexivity. Qed.

Lemma valid_date_bounds (d : date) :
  valid_date d = true ->
  (1 <= year d <= 9999 /\ 1 <= month d <= 12 /\ 1 <= day d <= 31)%N.
Proof.
  unfold valid_date, valid_ymd. rewrite !andb_true_iff, !N.leb_le.
  intros [[[[[H1 H2] H3] H4] H5] H6]. repeat split; trivial.
  assert (days_in_month (year d) (month d) <= 31)%N; [|lia].
  unfold days_in_month.
  repeat match goal with
  | |- context [match ?x with _ => _ end] => destruct x
  end; lia.
Qed.

Lemma month_name_head (m : N) :
  (1 <= m <= 12)%N ->
  exists c tl, month_name m = c :: tl /\ is_space c = false /\
               forallb (fun x => negb (x =? 44)%N) (month_name m) = true /\
               index_of (py_lower U (month_name m)) full_months 1 = Some m.
Proof.
  intros Hm.
  assert (Hin : In m (map N.of_nat (seq 1 12))) by (apply N_in_range; lia).
  cbv [seq map] in Hin.
  repeat (destruct Hin as [<-|Hin];
    [eexists; eexists; repeat split; reflexivity|]).
  destruct Hin.
Qed.

Lemma format_regex_pretty :
  format_regex pretty_fmt = seqs [re_d; ws_plus; re_B; ws_plus; re_Y].
Proof. reflexivity. Qed.

(** [strptime] reads the date back from its pretty form. *)
Lemma strptime_pretty (d : date) :
  valid_date d = true -> strptime U (pretty d) pretty_fmt = Some d.
Proof.
  intros Hv. destruct (valid_date_bounds d Hv) as [Hy [Hm Hd]].
  destruct (month_name_head _ Hm) as [c [tl [Hmn [Hc [_ Hidx]]]]].
  unfold strptime, re_match, match_at.
  rewrite format_regex_pretty. cbn [seqs rmatch].
  rewrite pretty_eq.
  assert (Hshape : month_name (month d) ++ 32%N :: four_digits (year d)
                   = c :: (tl ++ 32%N :: four_digits (year d)))
    by (rewrite Hmn; reflexivity).
  rewrite Hshape, day_stage by trivial.
  rewrite <- Hshape.
  unfold four_digits at 1.
  rewrite month_stage by (trivial; apply digit_char_not_space).
  rewrite year_stage by apply is_decimal_digit_char.
  cbn [m_end st_pos].
  replace (4 + (4 + length (month_name (month d))))
    with (length (two_digits (day d) ++ 32%N :: month_name (month d)
                   ++ 32%N :: four_digits (year d))).
  2:{ rewrite length_app. cbn [length two_digits]. rewrite length_app.
      cbn [length four_digits]. lia. }
  rewrite Nat.eqb_refl.
  unfold group. cbn [m_caps st_caps lookup_cap G_Y G_m G_B G_b G_d Nat.eqb].
  fold (four_digits (year d)).
  rewrite py_int_four_digits by lia.
  rewrite Hidx. rewrite py_int_two_digits by lia.
  cbn [opt_bind]. unfold make_date.
  unfold valid_date in Hv. rewrite Hv. now destruct d.
Qed.
End RoundTrip.

Section ParseLemmas.
Variable U : unicode.

Lemma replace_char_id (old : N) (new s : pystr) :
  forallb (fun x => negb (x =? old)%N) s = true -> replace_char old new s = s.
Proof.
  unfold replace_char. induction s as [|c s IH]; simpl; trivial.
  rewrite andb_true_iff; intros [Hc Hs]. apply negb_true_iff in Hc.
  rewrite Hc. simpl. now rewrite IH.
Qed.

Lemma digit_char_not_comma (n : N) : negb (digit_char n =? 44)%N = true.
Proof.
  pose proof (digit_char_range n). apply negb_true_iff, N.eqb_neq. lia.
Qed.

Lemma pretty_no_comma (d : date) :
  valid_date d = true -> forallb (fun x => negb (x =? 44)%N) (pretty d) = true.
Proof.
  intros Hv. destruct (valid_date_bounds d Hv) as [_ [Hm _]].
  destruct (month_name_head U _ Hm) as [c [tl [_ [_ [Hn _]]]]].
  rewrite pretty_eq. unfold two_digits, four_digits.
  cbn [app forallb]. rewrite forallb_app. cbn [forallb].
  now rewrite Hn, !digit_char_not_comma.
Qed.

Lemma pretty_strip (d : date) : strip (pretty d) = pretty d.
Proof.
  rewrite pretty_eq. unfold two_digits, four_digits. cbn [app].
  change (digit_char (day d / 10) :: digit_char (day d) :: 32%N ::
            month_name (month d) ++ 32%N ::
            [digit_char (year d / 1000); digit_char (year d / 100);
             digit_char (year d / 10); digit_char (year d)])
    with (digit_char (day d / 10) ::
            (digit_char (day d) :: 32%N :: month_name (month d) ++ 32%N ::
               [digit_char (year d / 1000); digit_char (year d / 100);
                digit_char (year d / 10)] ++ [digit_char (year d)])).
  replace (digit_char (day d) :: 32%N :: month_name (month d) ++ 32%N ::
             [digit_char (year d / 1000); digit_char (year d / 100);
              digit_char (year d / 10)] ++ [digit_char (year d)])
    with ((digit_char (day d) :: 32%N :: month_name (month d) ++ 32%N ::
             [digit_char (year d / 1000); digit_char (year d / 100);
              digit_char (year d / 10)]) ++ [digit_char (year d)]).
  - apply strip_digits_ends.
  - cbn [app]. rewrite <- app_assoc. reflexivity.
Qed.

(** The pretty form of a date parses back to the date. *)
Lemma parse_pretty (d : date) :
  valid_date d = true -> _parse_one_date U (pretty d) = Some d.
Proof.
  intros Hv. unfold _parse_one_date.
  rewrite (replace_char_id _ _ _ (pretty_no_comma d Hv)), pretty_strip.
  change fmts with (pretty_fmt :: tl fmts). cbn [first_parse].
  now rewrite strptime_pretty.
Qed.

Lemma strptime_valid (ds fmt : pystr) (d : date) :
  strptime U ds fmt = Some d -> valid_date d = true.
Proof.
  unfold strptime.
  destruct (re_match U true (format_regex fmt) ds) as [m|]; [|discriminate].
  destruct (m_end m =? length ds); [|discriminate].
  repeat match goal with
  | |- opt_bind ?o _ = _ -> _ => destruct o; cbn [opt_bind]; [|discriminate]
  end.
  unfold make_date. destruct (valid_ymd _ _ _) eqn:E; [|discriminate].
  intros H; injection H as <-. exact E.
Qed.

Lemma first_parse_valid (ds : pystr) (fs : list pystr) (d : date) :
  first_parse U ds fs = Some d -> valid_date d = true.
Proof.
  induction fs as [|f fs IH]; simpl; [discriminate|].
  destruct (strptime U ds f) eqn:E; [|exact IH].
  intros H; injection H as <-. exact (strptime_valid _ _ _ E).
Qed.

Lemma parse_valid (ds : pystr) (d : date) :
  _parse_one_date U ds = Some d -> valid_date d = true.
Proof. unfold _parse_one_date. apply first_parse_valid. Qed.

Lemma expand_range_valid (mo d1 d2 yr : pystr) (d : date) :
  In d (_expand_range U mo d1 d2 yr) -> valid_date d = true.
Proof.
  unfold _expand_range. rewrite in_app_iff.
  intros [H|H];
    match type of H with
    | In _ (opt_list ?o) => destruct o eqn:E; simpl in H; [|contradiction]
    end;
    destruct H as [<-|[]]; exact (parse_valid _ _ E).
Qed.

Lemma dates_of_match_valid (m : rematch) (d : date) :
  In d (dates_of_match U m) -> valid_date d = true.
Proof.
  unfold dates_of_match.
  destruct (truthy (group m 2) && truthy (group m 3) && truthy (group m 4)
            && truthy (group m 5)).
  - apply expand_range_valid.
  - match goal with
    | |- In _ (opt_list ?o) -> _ => destruct o eqn:E; simpl; [|contradiction]
    end.
    intros [<-|[]]. exact (parse_valid _ _ E).
Qed.

Lemma found_dates_valid (clean : pystr) (d : date) :
  In d (found_dates U clean) -> valid_date d = true.
Proof.
  unfold found_dates. rewrite in_flat_map.
  intros [m [_ H]]. exact (dates_of_match_valid _ _ H).
Qed.

Lemma unique_sorted_valid (text : pystr) (d : date) :
  In d (unique_sorted_dates U text) -> valid_date d = true.
Proof.
  unfold unique_sorted_dates. rewrite sorted_dates_In, date_set_In.
  apply found_dates_valid.
Qed.

Lemma unique_sorted_idempotent (text : pystr) :
  unique_sorted_dates U (_normalize_text U text) = unique_sorted_dates U text.
Proof. unfold unique_sorted_dates. now rewrite normalize_text_idempotent. Qed.

Lemma pretty_inj (a b : date) :
  valid_date a = true -> valid_date b = true -> pretty a = pretty b -> a = b.
Proof.
  intros Ha Hb E. apply parse_pretty in Ha, Hb. rewrite E in Ha. congruence.
Qed.
End ParseLemmas.


(** ** Classification of the dates *)

Lemma extract_eq (U : unicode) (text : pystr) (w : world) :
  extract_and_classify_dates U text w =
  (let us := unique_sorted_dates U text in
   let today := wall_clock w (reads w) in
   let p := filter (fun d => date_ltb d today) us in
   let u := filter (fun d => date_leb today d) us in
   {| all_unique_sorted := map pretty us;
      past := {| count := length p; items := map pretty p |};
      upcoming := {| count := length u; items := map pretty u |};
      total_unique := length us |},
   {| wall_clock := wall_clock w; reads := S (reads w) |}).
Proof. reflexivity. Qed.

Lemma pretty_NoDup (U : unicode) (l : list date) :
  Forall (fun d => valid_date d = true) l -> NoDup l -> NoDup (map pretty l).
Proof.
  intros Hv Hn. induction Hn as [|x l Hx Hn IH]; simpl; [constructor|].
  inversion Hv as [|? ? Hvx Hvl]; subst.
  constructor; [|auto].
  rewrite in_map_iff. intros [y [E Hy]].
  rewrite Forall_forall in Hvl.
  assert (y = x) by (apply (pretty_inj U); auto).
  now subst.
Qed.

(** C1. For every text and every reading of the clock, every string of
    the past list is the print of a date of the text strictly before the
    reference date, every string of the upcoming list the print of a date of
    the text on or after it (the reference date itself is upcoming), and the
    two lists cut the sorted list of unique dates in two: nothing is in both,
    nothing is left out, and the counts add up to [total_unique].  The
    string of a past date is read back as that date when its year is 1000
    or later (the digits of an earlier year depend on the C library, see
    [strftime_from]). *)
Theorem C1_past_upcoming_partition (U : unicode) (T : pystr) (w : world) :
  let R := wall_clock w (reads w) in
  let E := fst (extract_and_classify_dates U T w) in
  (forall s, In s (items (past E)) ->
     exists d, In d (unique_sorted_dates U T) /\ s = pretty d /\ date_lt d R /\
               ((1000 <= year d)%N -> _parse_one_date U s = Some d)) /\
  (forall s, In s (items (upcoming E)) ->
     exists d, In d (unique_sorted_dates U T) /\ s = pretty d /\
               _parse_one_date U s = Some d /\ date_le R d) /\
  (In R (unique_sorted_dates U T) -> In (pretty R) (items (upcoming E))) /\
  (forall s, In s (all_unique_sorted E) -> _parse_one_date U s = Some R ->
     In s (items (upcoming E))) /\
  all_unique_sorted E = items (past E) ++ items (upcoming E) /\
  NoDup (all_unique_sorted E) /\
  (forall s, In s (items (past E)) -> In s (items (upcoming E)) -> False) /\
  count (past E) = length (items (past E)) /\
  count (upcoming E) = length (items (upcoming E)) /\
  total_unique E = length (all_unique_sorted E) /\
  count (past E) + count (upcoming E) = total_unique E.
Proof.
  intros R E. subst E. rewrite extract_eq. cbn [fst]. fold R.
  set (us := unique_sorted_dates U T).
  cbn [items past upcoming count all_unique_sorted total_unique].
  assert (Hs : StronglySorted date_lt us) by apply unique_sorted_lt.
  assert (Hv : forall d, In d us -> valid_date d = true)
    by apply unique_sorted_valid.
  pose proof (classify_split R us Hs) as Hsplit.
  assert (Hnd : NoDup (map pretty us)).
  { apply (pretty_NoDup U); [now apply Forall_forall | now apply strictly_sorted_NoDup]. }
  assert (Hall : map pretty us =
                 map pretty (filter (fun d => date_ltb d R) us) ++
                 map pretty (filter (fun d => date_leb R d) us)).
  { now rewrite <- map_app, Hsplit. }
  split; [|split; [|split; [|split; [|split; [|split; [|split]]]]]].
  - intros s Hin. apply in_map_iff in Hin. destruct Hin as [d [<- Hd]].
    apply filter_In in Hd. destruct Hd as [Hd Hlt].
    exists d. split; [exact Hd|]. split; [reflexivity|]. split; [exact Hlt|].
    intros _. apply parse_pretty; auto.
  - intros s Hin. apply in_map_iff in Hin. destruct Hin as [d [<- Hd]].
    apply filter_In in Hd. destruct Hd as [Hd Hle].
    exists d. split; [exact Hd|]. split; [reflexivity|].
    split; [apply parse_pretty; auto | exact Hle].
  - intros HR. apply in_map, filter_In. split; [exact HR | apply date_leb_refl].
  - intros s Hin Hp. apply in_map_iff in Hin. destruct Hin as [d [<- Hd]].
    rewrite (parse_pretty U d (Hv d Hd)) in Hp. injection Hp as ->.
    apply in_map, filter_In. split; [trivial | apply date_leb_refl].
  - exact Hall.
  - exact Hnd.
  - intros s H1 H2. rewrite Hall in Hnd.
    apply in_split in H1. destruct H1 as [l1 [l2 E1]]. rewrite E1 in Hnd.
    rewrite <- app_assoc in Hnd. apply NoDup_remove_2 in Hnd.
    apply Hnd. rewrite !in_app_iff. auto.
  - repeat split.
    + now rewrite length_map.
    + now rewrite length_map.
    + now rewrite length_map.
    + now rewrite <- length_app, Hsplit.
Qed.

(** ** The timeline *)

Section Timeline.
Variable U : unicode.

Lemma to_date_pretty (d : date) : valid_date d = true -> _to_date U (pretty d) = d.
Proof. intros H. unfold _to_date. now rewrite parse_pretty. Qed.

Lemma event_of_date (clean : pystr) (now : date) (dstr : pystr) :
  ev_date (event_of U clean now dstr) = dstr.
Proof. reflexivity. Qed.

Lemma event_of_status (clean : pystr) (now d : date) :
  valid_date d = true ->
  status (event_of U clean now (pretty d)) =
  if date_leb now d then status_upcoming else status_completed.
Proof. intros H. unfold event_of. cbn [status]. now rewrite parse_pretty. Qed.

Lemma status_distinct : status_upcoming <> status_completed.
Proof. discriminate. Qed.

Lemma events_in_order (clean : pystr) (now : date) (us : list date) :
  Forall (fun d => valid_date d = true) us ->
  StronglySorted date_lt us ->
  StronglySorted (key_le event (fun e => _to_date U (ev_date e)))
    (map (event_of U clean now) (map pretty us)).
Proof.
  intros Hv Hs. induction Hs as [|x l Hs IH Hx]; simpl; [constructor|].
  inversion Hv as [|? ? Hvx Hvl]; subst.
  constructor; [auto|].
  rewrite Forall_forall in *. intros e He.
  apply in_map_iff in He. destruct He as [s [<- Hs']].
  apply in_map_iff in Hs'. destruct Hs' as [y [<- Hy]].
  unfold key_le, date_le. rewrite !event_of_date, !to_date_pretty by auto.
  apply date_ltb_leb_true. now apply Hx.
Qed.

(** The timeline in terms of the sorted unique dates of the text: the
    events come out in the order of the dates, the clock is read twice. *)
Lemma timeline_eq (text : pystr) (w : world) :
  generate_case_timeline U text w =
  (map (event_of U (_normalize_text U text) (wall_clock w (S (reads w))))
       (map pretty (unique_sorted_dates U text)),
   {| wall_clock := wall_clock w; reads := S (S (reads w)) |}).
Proof.
  unfold generate_case_timeline, bind.
  rewrite extract_eq. cbn [now_date ret all_unique_sorted wall_clock reads].
  rewrite unique_sorted_idempotent. unfold ret.
  f_equal. apply sort_by_id. apply events_in_order.
  - apply Forall_forall, unique_sorted_valid.
  - apply unique_sorted_lt.
Qed.

Lemma timeline_keys (clean : pystr) (now : date) (us : list date) :
  Forall (fun d => valid_date d = true) us ->
  map (fun e => _to_date U (ev_date e))
      (map (event_of U clean now) (map pretty us)) = us.
Proof.
  induction 1 as [|x l Hx Hl IH]; simpl; trivial.
  now rewrite to_date_pretty, IH.
Qed.

(** Status of the events against the two lists of the classification made
    with the date [R], when the timeline compared with the date [now]. *)
Lemma timeline_status (clean : pystr) (R now : date) (us : list date) (e : event) :
  (forall d, In d us -> valid_date d = true) ->
  now = R ->
  In e (map (event_of U clean now) (map pretty us)) ->
  (status e = status_upcoming <->
     In (ev_date e) (map pretty (filter (fun d => date_leb R d) us))) /\
  (status e = status_completed <->
     In (ev_date e) (map pretty (filter (fun d => date_ltb d R) us))).
Proof.
  intros Hv -> He.
  apply in_map_iff in He. destruct He as [s [<- Hs]].
  apply in_map_iff in Hs. destruct Hs as [d [<- Hd]].
  rewrite event_of_date, event_of_status by auto.
  assert (Hin : forall f, In (pretty d) (map pretty (filter f us)) <-> f d = true).
  { intros f. rewrite in_map_iff. split.
    - intros [y [E Hy]]. apply filter_In in Hy. destruct Hy as [Hy Hf].
      apply (pretty_inj U) in E; auto. now subst.
    - intros Hf. exists d. split; trivial. apply filter_In; auto. }
  rewrite !Hin, date_ltb_leb.
  destruct (date_leb R d); simpl; split; split; intros H;
    try reflexivity; discriminate H.
Qed.
End Timeline.

(** C2. For the same text and the same reference date, the timeline has
    exactly one event per unique date of the classification (as many events
    as [total_unique]).  When the dates of the text are of the year 1000 or
    later, the events are in the order of the classification; the status of
    every event agrees with the list the date was put in; and the events
    are in ascending order of date.  (The timeline reads its dates back from
    their printed form, and the digits of a year below 1000 depend on the C
    library, see [strftime_from].) *)
Theorem C2_timeline_agrees_with_dates (U : unicode) (T : pystr) (R : date) :
  let E := fst (extract_and_classify_dates U T (frozen R)) in
  let TL := fst (generate_case_timeline U T (frozen R)) in
  length TL = total_unique E /\
  ((forall d, In d (unique_sorted_dates U T) -> (1000 <= year d)%N) ->
   map ev_date TL = all_unique_sorted E /\
   (forall e, In e TL ->
      (status e = status_upcoming <-> In (ev_date e) (items (upcoming E))) /\
      (status e = status_completed <-> In (ev_date e) (items (past E)))) /\
   map (fun e => _parse_one_date U (ev_date e)) TL =
     map Some (map (fun e => _to_date U (ev_date e)) TL) /\
   StronglySorted date_lt (map (fun e => _to_date U (ev_date e)) TL)).
Proof.
  intros E TL. subst E TL. rewrite timeline_eq, extract_eq. cbn [fst].
  cbn [items past upcoming all_unique_sorted total_unique frozen wall_clock reads].
  set (us := unique_sorted_dates U T).
  assert (Hv : forall d, In d us -> valid_date d = true) by apply unique_sorted_valid.
  split; [now rewrite !length_map|].
  intros _.
  split; [|split; [|split]].
  - rewrite map_map. now rewrite (map_ext _ (fun s => s)), map_id.
  - intros e He.
    exact (timeline_status U (_normalize_text U T) R R us e Hv eq_refl He).
  - rewrite !map_map. apply map_ext_in. intros d Hd.
    rewrite event_of_date. unfold _to_date. now rewrite parse_pretty by auto.
  - rewrite timeline_keys by now apply Forall_forall.
    apply unique_sorted_lt.
Qed.

(** The scenario of the hearing, read on 1 January 2025: one date, of the
    year 2025, one event, upcoming in both outputs. *)
Lemma C2_hearing_timeline :
  let R := {| year := 2025; month := 1; day := 1 |} in
  let E := fst (extract_and_classify_dates ascii_only scenario_text (frozen R)) in
  let TL := fst (generate_case_timeline ascii_only scenario_text (frozen R)) in
  map ev_date TL = all_unique_sorted E /\
  map ev_date TL = [s2u "15 November 2025"] /\
  map status TL = [status_upcoming] /\
  items (upcoming E) = [s2u "15 November 2025"].
Proof.
  cbv zeta.
  split; [|vm_compute; repeat split].
  refine (proj1 (proj2 (C2_timeline_agrees_with_dates ascii_only scenario_text
                          {| year := 2025; month := 1; day := 1 |}) _)).
  assert (Hu : unique_sorted_dates ascii_only scenario_text
               = [{| year := 2025; month := 11; day := 15 |}])
    by (vm_compute; reflexivity).
  rewrite Hu. intros d [<-|[]]. cbn [year]. lia.
Defined.

(** ** The reference date *)

Lemma summary_eq (U : unicode) (g : gemini) (text narrative : pystr) (w : world) :
  summarize_with_gemini g text = Some narrative ->
  generate_structured_summary U g text w =
    (Some (summary_of U g text narrative
             (fst (extract_and_classify_dates U text w))
             (fst (generate_case_timeline U text
                     {| wall_clock := wall_clock w; reads := S (reads w) |}))),
     {| wall_clock := wall_clock w; reads := S (S (S (reads w))) |}).
Proof.
  intros Hg. unfold generate_structured_summary, summary_of. rewrite Hg.
  unfold bind at 1. rewrite extract_eq. cbn [fst].
  destruct (extract_sections_invoked U text) as [sections section_count].
  unfold bind. rewrite timeline_eq. reflexivity.
Qed.

Lemma summary_of_parts (U : unicode) (g : gemini) (text narrative : pystr)
    (E : dates_info) (TL : list event) :
  dates_of_summary (summary_of U g text narrative E TL) = Some E /\
  timeline_of_summary (summary_of U g text narrative E TL) = TL.
Proof.
  unfold summary_of, dates_of_summary, timeline_of_summary.
  destruct (extract_sections_invoked U text). split; reflexivity.
Qed.

(** C3 (as the code has it). The reference date is not an input of the
    extractors: [extract_and_classify_dates] reads the wall clock once at
    each call, [generate_case_timeline] twice (once in the extraction it
    runs, once for its own comparison), so the processing of one document
    reads it three times.  The date lists use the first reading and the
    timeline the third; the statuses of the timeline agree with the date
    lists whenever these two readings show the same date. *)
Theorem C3_clock_read_at_each_call (U : unicode) (g : gemini) (T : pystr) (w : world) :
  reads (snd (extract_and_classify_dates U T w)) = 1 + reads w /\
  reads (snd (generate_case_timeline U T w)) = 2 + reads w /\
  fst (extract_and_classify_dates U T w) =
    fst (extract_and_classify_dates U T (frozen (wall_clock w (reads w)))) /\
  fst (generate_case_timeline U T w) =
    fst (generate_case_timeline U T (frozen (wall_clock w (1 + reads w)))) /\
  (forall narrative, summarize_with_gemini g T = Some narrative ->
     exists s E,
       fst (generate_structured_summary U g T w) = Some s /\
       reads (snd (generate_structured_summary U g T w)) = 3 + reads w /\
       dates_of_summary s = Some E /\
       E = fst (extract_and_classify_dates U T (frozen (wall_clock w (reads w)))) /\
       timeline_of_summary s =
         fst (generate_case_timeline U T (frozen (wall_clock w (2 + reads w)))) /\
       (wall_clock w (reads w) = wall_clock w (2 + reads w) ->
        forall e, In e (timeline_of_summary s) ->
          (status e = status_upcoming <-> In (ev_date e) (items (upcoming E))) /\
          (status e = status_completed <-> In (ev_date e) (items (past E))))).
Proof.
  split; [|split; [|split; [|split]]].
  - now rewrite extract_eq.
  - now rewrite timeline_eq.
  - now rewrite !extract_eq.
  - now rewrite !timeline_eq.
  - intros narrative Hg.
    rewrite (summary_eq U g T narrative w Hg). cbn [fst snd reads].
    set (E := fst (extract_and_classify_dates U T w)).
    set (TL := fst (generate_case_timeline U T
                      {| wall_clock := wall_clock w; reads := S (reads w) |})).
    destruct (summary_of_parts U g T narrative E TL) as [Hd Ht].
    exists (summary_of U g T narrative E TL), E.
    split; [reflexivity|]. split; [reflexivity|]. split; [exact Hd|].
    split; [subst E; now rewrite !extract_eq|].
    split; [rewrite Ht; subst TL; now rewrite !timeline_eq|].
    intros Heq e He. rewrite Ht in He. subst TL E.
    rewrite timeline_eq in He. cbn [fst wall_clock reads] in He.
    rewrite extract_eq. cbn [fst items upcoming past].
    apply (timeline_status U (_normalize_text U T) _ _ _ e
             (unique_sorted_valid U T) (eq_sym Heq) He).
Qed.

(** When midnight passes between the readings of the clock, one document
    has the same date among its upcoming dates and as a completed event of
    its timeline: the clock was read three times, not once. *)
Lemma C3_midnight_between_readings :
  let r := generate_structured_summary ascii_only (fixed_gemini (s2u "Summary."))
             hearing_text midnight_clock in
  reads (snd r) = 3 /\
  option_map lists_and_statuses (fst r) =
    Some (Some ([], [s2u "02 January 2026"]),
          [(s2u "02 January 2026", status_completed)]).
Proof. vm_compute. split; reflexivity. Qed.

(** With a clock that stays on one date the lists and the timeline agree. *)
Lemma C3_same_date_at_each_reading :
  exists s E,
    fst (generate_structured_summary ascii_only (fixed_gemini (s2u "Summary."))
           hearing_text (frozen jan_2)) = Some s /\
    dates_of_summary s = Some E /\
    forall e, In e (timeline_of_summary s) ->
      (status e = status_upcoming <-> In (ev_date e) (items (upcoming E))) /\
      (status e = status_completed <-> In (ev_date e) (items (past E))).
Proof.
  destruct (C3_clock_read_at_each_call ascii_only (fixed_gemini (s2u "Summary."))
              hearing_text (frozen jan_2)) as [_ [_ [_ [_ H]]]].
  destruct (H (s2u "Summary.") eq_refl) as [s [E [Hs [_ [Hd [_ [_ Hc]]]]]]].
  exists s, E. split; [exact Hs|]. split; [exact Hd|].
  apply Hc. reflexivity.
Defined.

(** ** The case status *)

(** C4. The rules of [detect_case_status] apply in a fixed order and the
    first that matches decides: the language of a judgment delivered or of
    a final order issued gives Closed whatever the number of upcoming
    dates; otherwise a positive number of upcoming dates gives Ongoing;
    otherwise an outcome keyword gives Closed; otherwise the case is
    Ongoing.  The narrative is compared in lower case. *)
Theorem C4_status_precedence (U : unicode) (summary_text : pystr) (md : metadata) :
  let text := py_lower U summary_text in
  (judgment_language text = true ->
     detect_case_status U summary_text md = Closed) /\
  (judgment_language text = false -> 0 < upcoming_count md ->
     detect_case_status U summary_text md = Ongoing) /\
  (judgment_language text = false -> upcoming_count md = 0 ->
     outcome_keyword text = true ->
     detect_case_status U summary_text md = Closed) /\
  (judgment_language text = false -> upcoming_count md = 0 ->
     outcome_keyword text = false ->
     detect_case_status U summary_text md = Ongoing) /\
  Closed <> Ongoing.
Proof.
  intros text. unfold detect_case_status. fold text.
  change ((contains (s2u "judgment") text && contains (s2u "delivered") text)
          || (contains (s2u "final order") text && contains (s2u "issued") text))
    with (judgment_language text).
  assert (Hk : existsb (fun k => contains k text) keywords_closed = outcome_keyword text).
  { unfold keywords_closed, outcome_keyword. cbn [map existsb].
    now rewrite orb_false_r, !orb_assoc. }
  rewrite Hk.
  repeat split.
  - now intros ->.
  - intros -> H. apply Nat.ltb_lt in H. now rewrite H.
  - intros -> -> ->. reflexivity.
  - intros -> -> ->. reflexivity.
  - discriminate.
Qed.

(** The scenario of the specification: a delivered judgment outranks two
    upcoming dates. *)
Lemma C4_judgment_outranks_upcoming :
  upcoming_count (metadata_with_upcoming 2) = 2 /\
  detect_case_status ascii_only
    (s2u "The judgment was delivered on 3 March 2024; costs are reserved.")
    (metadata_with_upcoming 2) = Closed.
Proof.
  split; [reflexivity|].
  apply (proj1 (C4_status_precedence ascii_only _ (metadata_with_upcoming 2))).
  reflexivity.
Defined.

(** ** Expansion of a range *)

(** C5. A match of the range form expands to its two boundaries and to
    nothing else: each boundary is the result of the single-date parser on
    [month day year], the start before the end, and a boundary that does
    not parse is left out while the other is kept.  The text
    [February 5-12, 2026] read before 5 February 2026 gives the two upcoming
    dates [05 February 2026] and [12 February 2026]. *)
Theorem C5_range_expands_to_boundaries (U : unicode) :
  (forall mo d1 d2 yr,
     _expand_range U mo d1 d2 yr =
       opt_list (_parse_one_date U (boundary mo d1 yr)) ++
       opt_list (_parse_one_date U (boundary mo d2 yr))) /\
  (forall mo d1 d2 yr dl dr,
     _parse_one_date U (boundary mo d1 yr) = Some dl ->
     _parse_one_date U (boundary mo d2 yr) = Some dr ->
     _expand_range U mo d1 d2 yr = [dl; dr]) /\
  (forall mo d1 d2 yr dr,
     _parse_one_date U (boundary mo d1 yr) = None ->
     _parse_one_date U (boundary mo d2 yr) = Some dr ->
     _expand_range U mo d1 d2 yr = [dr]) /\
  (forall mo d1 d2 yr dl,
     _parse_one_date U (boundary mo d1 yr) = Some dl ->
     _parse_one_date U (boundary mo d2 yr) = None ->
     _expand_range U mo d1 d2 yr = [dl]) /\
  (forall m, is_range_match m = true ->
     dates_of_match U m =
       _expand_range U (group_or_empty m 2) (group_or_empty m 3)
                       (group_or_empty m 4) (group_or_empty m 5)) /\
  map (fun m => (m_text m, is_range_match m, group m 2, group m 3, group m 4, group m 5))
      (re_finditer U true date_pattern range_text) =
    [(range_text, true, Some (s2u "February"), Some (s2u "5"), Some (s2u "12"),
      Some (s2u "2026"))] /\
  found_dates U range_text = [feb_5; feb_12] /\
  _expand_range U (s2u "February") (s2u "5") (s2u "30") (s2u "2026") = [feb_5] /\
  _expand_range U (s2u "February") (s2u "30") (s2u "12") (s2u "2026") = [feb_12] /\
  (forall w, date_lt (wall_clock w (reads w)) feb_5 ->
     let E := fst (extract_and_classify_dates U range_text w) in
     items (upcoming E) = [s2u "05 February 2026"; s2u "12 February 2026"] /\
     count (upcoming E) = 2 /\ items (past E) = [] /\ total_unique E = 2).
Proof.
  split; [reflexivity|].
  split; [intros mo d1 d2 yr dl dr H1 H2; unfold _expand_range;
          change (mo ++ [32%N] ++ d1 ++ [32%N] ++ yr) with (boundary mo d1 yr);
          change (mo ++ [32%N] ++ d2 ++ [32%N] ++ yr) with (boundary mo d2 yr);
          now rewrite H1, H2|].
  split; [intros mo d1 d2 yr dr H1 H2; unfold _expand_range;
          change (mo ++ [32%N] ++ d1 ++ [32%N] ++ yr) with (boundary mo d1 yr);
          change (mo ++ [32%N] ++ d2 ++ [32%N] ++ yr) with (boundary mo d2 yr);
          now rewrite H1, H2|].
  split; [intros mo d1 d2 yr dl H1 H2; unfold _expand_range;
          change (mo ++ [32%N] ++ d1 ++ [32%N] ++ yr) with (boundary mo d1 yr);
          change (mo ++ [32%N] ++ d2 ++ [32%N] ++ yr) with (boundary mo d2 yr);
          now rewrite H1, H2|].
  split; [intros m Hm; unfold dates_of_match; unfold is_range_match in Hm;
          now rewrite Hm|].
  split; [vm_compute; reflexivity|].
  split; [vm_compute; reflexivity|].
  split; [vm_compute; reflexivity|].
  split; [vm_compute; reflexivity|].
  intros w HR E. subst E. rewrite extract_eq. cbn [fst].
  cbn [items count upcoming past total_unique].
  assert (Hus : unique_sorted_dates U range_text = [feb_5; feb_12])
    by (vm_compute; reflexivity).
  rewrite Hus. cbn [filter].
  unfold date_lt in HR.
  assert (H5 : date_leb (wall_clock w (reads w)) feb_5 = true)
    by now apply date_ltb_leb_true.
  assert (H12 : date_leb (wall_clock w (reads w)) feb_12 = true).
  { apply (date_leb_trans _ feb_5); trivial. }
  rewrite !date_ltb_leb, H5, H12. cbn [negb map length].
  repeat split.
Qed.

(** The range read on 1 January 2026. *)
Lemma C5_range_read_on_new_year :
  let E := fst (extract_and_classify_dates ascii_only range_text (frozen new_year_2026)) in
  items (upcoming E) = [s2u "05 February 2026"; s2u "12 February 2026"] /\
  count (upcoming E) = 2 /\ items (past E) = [] /\ total_unique E = 2.
Proof.
  apply (proj2 (proj2 (proj2 (proj2 (proj2 (proj2 (proj2 (proj2 (proj2
           (C5_range_expands_to_boundaries ascii_only)))))))))
           (frozen new_year_2026)).
  reflexivity.
Defined.

(** ** Deduplication of the labels *)

Lemma pystr_eqb_eq (a b : pystr) : pystr_eqb a b = true <-> a = b.
Proof.
  revert b; induction a as [|x a IH]; intros [|y b]; simpl;
    try (split; [discriminate | discriminate]); try tauto.
  rewrite andb_true_iff, N.eqb_eq, IH. split.
  - intros [-> ->]; reflexivity.
  - intros H; injection H; auto.
Qed.

Lemma mem_str_In (s : pystr) (l : list pystr) : mem_str s l = true <-> In s l.
Proof.
  unfold mem_str. rewrite existsb_exists. split.
  - intros [x [Hx E]]. apply pystr_eqb_eq in E. now subst.
  - intros H. exists s. split; trivial. now apply pystr_eqb_eq.
Qed.

Section Dedup.
Variable U : unicode.

Lemma dedup_loop_eq (found : list pystr) : forall dedup seen,
  dedup_loop U found dedup seen = rev dedup ++ first_seen U seen found.
Proof.
  induction found as [|s found IH]; intros dedup seen; simpl.
  - now rewrite app_nil_r.
  - destruct (mem_str (py_lower U s) seen); simpl.
    + apply IH.
    + rewrite IH. simpl. now rewrite <- app_assoc.
Qed.

Lemma first_seen_In (found : list pystr) : forall seen s,
  In s (first_seen U seen found) -> In s found /\ ~ In (py_lower U s) seen.
Proof.
  induction found as [|x found IH]; intros seen s; simpl; [tauto|].
  destruct (mem_str (py_lower U x) seen) eqn:E.
  - intros H. destruct (IH _ _ H). auto.
  - intros [<-|H].
    + split; auto. rewrite <- mem_str_In. congruence.
    + destruct (IH _ _ H) as [H1 H2]. split; auto.
      intros H3. apply H2. now right.
Qed.

Lemma first_seen_keys (found : list pystr) : forall seen,
  NoDup (map (py_lower U) (first_seen U seen found)).
Proof.
  induction found as [|x found IH]; intros seen; simpl; [constructor|].
  destruct (mem_str (py_lower U x) seen); [apply IH|].
  simpl. constructor; [|apply IH].
  rewrite in_map_iff. intros [y [E Hy]].
  apply first_seen_In in Hy. destruct Hy as [_ Hy].
  apply Hy. left. auto.
Qed.

Lemma first_seen_subseq (found : list pystr) : forall seen,
  subseq (first_seen U seen found) found.
Proof.
  induction found as [|x found IH]; intros seen; simpl; [constructor|].
  destruct (mem_str (py_lower U x) seen); constructor; apply IH.
Qed.

(** Every key of [found] outside [seen] is the key of a kept label. *)
Lemma first_seen_covers (found : list pystr) : forall seen s,
  In s found -> ~ In (py_lower U s) seen ->
  exists s0, In s0 (first_seen U seen found) /\ py_lower U s0 = py_lower U s.
Proof.
  induction found as [|x found IH]; intros seen s; simpl; [tauto|].
  intros Hin Hs.
  destruct (mem_str (py_lower U x) seen) eqn:E.
  - destruct Hin as [->|Hin]; [apply mem_str_In in E; contradiction|].
    now apply IH.
  - destruct Hin as [->|Hin]; [exists s; simpl; auto|].
    destruct (pystr_eqb (py_lower U x) (py_lower U s)) eqn:Ex.
    + apply pystr_eqb_eq in Ex. exists x. simpl; auto.
    + destruct (IH (py_lower U x :: seen) s Hin) as [s0 [H0 E0]].
      * intros [H|H]; [|contradiction].
        rewrite <- pystr_eqb_eq in H. congruence.
      * exists s0. simpl; auto.
Qed.

(** The label kept for a key is the first of [found] with that key. *)
Lemma first_seen_first (pre : list pystr) : forall seen s post,
  ~ In (py_lower U s) seen ->
  (forall x, In x pre -> py_lower U x <> py_lower U s) ->
  In s (first_seen U seen (pre ++ s :: post)).
Proof.
  induction pre as [|x pre IH]; intros seen s post Hs Hpre; simpl.
  - destruct (mem_str (py_lower U s) seen) eqn:E; [|now left].
    apply mem_str_In in E. contradiction.
  - destruct (mem_str (py_lower U x) seen).
    + apply IH; trivial. intros y Hy. apply Hpre. now right.
    + right. apply IH.
      * intros [H|H]; [|contradiction]. apply (Hpre x); simpl; auto.
      * intros y Hy. apply Hpre. now right.
Qed.
End Dedup.

(** C6. The list returned by [extract_sections_invoked] is the list of the
    labels found with the case-insensitive duplicates left out: no two of
    its labels are equal up to case, it keeps the order in which the labels
    were found, every label found has a label equal to it up to case in the
    list, and that label is the first one found with this spelling up to
    case (its original casing is kept); the count returned is the length of
    the list.  On a text with [Section 420 IPC] and [section 420 ipc] the
    result is the single label [Section 420 IPC]. *)
Theorem C6_dedup_case_insensitive (U : unicode) (T : pystr) :
  let found := found_sections U T in
  let out := fst (extract_sections_invoked U T) in
  snd (extract_sections_invoked U T) = length out /\
  NoDup (map (py_lower U) out) /\
  subseq out found /\
  (forall s, In s found ->
     exists s0, In s0 out /\ py_lower U s0 = py_lower U s) /\
  (forall pre s post, found = pre ++ s :: post ->
     (forall x, In x pre -> py_lower U x <> py_lower U s) -> In s out) /\
  found_sections U two_casings = [s2u "Section 420 IPC"; s2u "Section 420 ipc"] /\
  extract_sections_invoked U two_casings = ([s2u "Section 420 IPC"], 1).
Proof.
  intros found out. subst out. unfold extract_sections_invoked. cbn [fst snd].
  fold found. rewrite dedup_loop_eq. cbn [rev app].
  split; [reflexivity|].
  split; [apply first_seen_keys|].
  split; [apply first_seen_subseq|].
  split; [intros s Hs; apply first_seen_covers; auto|].
  split; [intros pre s post -> Hpre; apply first_seen_first; auto|].
  split; vm_compute; reflexivity.
Qed.

(** ** Normalised text *)

Lemma adj_ok_spec (P : N -> N -> bool) (s : pystr) :
  adj_ok P s = true ->
  forall pre a b post, s = pre ++ a :: b :: post -> P a b = true.
Proof.
  intros H pre. revert s H. induction pre as [|x pre IH]; intros s H a b post E.
  - subst s. cbn [app] in H. rewrite adj_ok_cons in H. now apply andb_true_iff in H.
  - subst s. cbn [app] in H. apply (IH (pre ++ a :: b :: post) (adj_ok_tail _ _ _ H) a b post eq_refl).
Qed.

(** C7. Normalising a normalised text changes nothing; and a normalised
    text has no non-breaking space, no en, em or figure dash and no tab, no
    two neighbouring spaces, no whitespace before or after a line break, and
    no whitespace at its start or at its end.  The texts of this shape are
    exactly the texts that normalisation leaves as they are. *)
Theorem C7_normalize_idempotent (U : unicode) (T : pystr) :
  let y := _normalize_text U T in
  _normalize_text U y = y /\
  (forall c, In c y -> c <> 160 /\ c <> 8211 /\ c <> 8212 /\ c <> 8210 /\ c <> 9)%N /\
  (forall pre a b post, y = pre ++ a :: b :: post ->
     (a = 32%N -> b <> 32%N) /\
     (b = 10%N -> is_space a = false) /\
     (a = 10%N -> is_space b = false)) /\
  (forall c rest, y = c :: rest -> is_space c = false) /\
  (forall pre c, y = pre ++ [c] -> is_space c = false) /\
  (forall s, _normalize_text U s = s <-> normalized s).
Proof.
  intros y. destruct (normalize_text_normalized U T) as [Hc Hb Hn Hh Hl].
  fold y in Hc, Hb, Hn, Hh, Hl.
  split; [apply normalize_text_idempotent|].
  split.
  { intros c Hin. rewrite forallb_forall in Hc. specialize (Hc c Hin).
    unfold clean_char, replaced_char in Hc.
    rewrite andb_true_iff, !negb_true_iff, !orb_false_iff, !N.eqb_neq in Hc.
    tauto. }
  split.
  { intros pre a b post E.
    pose proof (adj_ok_spec _ _ Hb pre a b post E) as H1.
    pose proof (adj_ok_spec _ _ Hn pre a b post E) as H2.
    unfold no_blank_pair in H1. unfold no_space_at_break in H2.
    apply andb_true_iff in H2. destruct H2 as [H2 H3].
    rewrite negb_true_iff in H1, H2, H3.
    split; [|split].
    - intros -> ->. discriminate H1.
    - intros ->. now rewrite andb_true_r in H2.
    - intros ->. exact H3. }
  split.
  { intros c rest E. now rewrite E in Hh. }
  split.
  { intros pre c E. rewrite E, rev_app_distr in Hl. exact Hl. }
  intros s. split.
  - intros E. rewrite <- E. apply normalize_text_normalized.
  - apply normalized_fixed.
Qed.

(** ** Empty input *)

Lemma found_dates_nil (U : unicode) : found_dates U [] = [].
Proof. reflexivity. Qed.

Lemma collect_nil (U : unicode) : collect_a U [] = [] /\ collect_b U [] = [].
Proof. split; reflexivity. Qed.

(** C8. On an empty text, and on a text of whitespace only, the
    extractors return their empty results: no dates, a count of zero in
    every list, no sections, no event; with these results and an empty
    narrative the case is Ongoing.  Every extractor is a total function:
    the failures of the library calls are handled where they occur. *)
Theorem C8_empty_input (U : unicode) (T : pystr) (w : world) :
  forallb is_space T = true ->
  fst (extract_and_classify_dates U T w) = empty_dates /\
  extract_sections_invoked U T = ([], 0) /\
  fst (generate_case_timeline U T w) = [] /\
  detect_case_status U []
    {| md_dates := Some (fst (extract_and_classify_dates U T w));
       md_sections := Some {| sec_count := snd (extract_sections_invoked U T);
                              sec_list := fst (extract_sections_invoked U T) |};
       md_timeline := Some (fst (generate_case_timeline U T w)) |} = Ongoing /\
  (forall g narrative, summarize_with_gemini g T = Some narrative ->
     exists s, fst (generate_structured_summary U g T w) = Some s).
Proof.
  intros Hs.
  assert (Hn : _normalize_text U T = []) by now apply normalize_text_space.
  assert (Hus : unique_sorted_dates U T = []).
  { unfold unique_sorted_dates. now rewrite Hn, found_dates_nil. }
  assert (H1 : fst (extract_and_classify_dates U T w) = empty_dates).
  { rewrite extract_eq. cbn [fst]. now rewrite Hus. }
  assert (H2 : extract_sections_invoked U T = ([], 0)).
  { unfold extract_sections_invoked, found_sections. rewrite Hn.
    destruct (collect_nil U) as [-> ->]. reflexivity. }
  assert (H3 : fst (generate_case_timeline U T w) = []).
  { rewrite timeline_eq. cbn [fst]. now rewrite Hus. }
  split; [exact H1|]. split; [exact H2|]. split; [exact H3|].
  split; [now rewrite H1, H2, H3|].
  intros g narrative Hg. unfold generate_structured_summary. rewrite Hg.
  unfold bind. rewrite extract_eq, H2, timeline_eq. eexists. reflexivity.
Qed.

(** The empty string. *)
Lemma C8_empty_string :
  fst (extract_and_classify_dates ascii_only [] (frozen epoch)) = empty_dates /\
  extract_sections_invoked ascii_only [] = ([], 0) /\
  fst (generate_case_timeline ascii_only [] (frozen epoch)) = [].
Proof.
  destruct (C8_empty_input ascii_only [] (frozen epoch) eq_refl) as [H1 [H2 [H3 _]]].
  repeat split; assumption.
Defined.

(** ** A month and a year *)

Ltac run_stage K Hc :=
  cbv -[is_space]; eval_closed_tests; rewrite ?Hc; cbv iota;
  split_on_continuation K; reflexivity.

Section MonthYearStages.
Variable U : unicode.
Variable A : Type.

(** No day can be read where a month name starts. *)
Lemma day_not_a_name (m : N) :
  (1 <= m <= 12)%N ->
  forall (K : mstate -> option A) (tl : pystr),
    rmatch U true re_d
      {| st_prev := None; st_rest := abbr_name m ++ tl; st_pos := 0; st_caps := [] |} K
    = None.
Proof.
  intros Hm K tl.
  assert (Hin : In m (map N.of_nat (seq 1 12))) by (apply N_in_range; lia).
  cbv [seq map] in Hin.
  repeat (destruct Hin as [<-|Hin]; [reflexivity|]).
  destruct Hin.
Qed.

(** No day followed by whitespace can be read at the head of three digits. *)
Lemma day_not_a_year (a b c : N) (tl : pystr) :
  is_space b = false -> is_space c = false ->
  forall (K : mstate -> option A) prev pos caps,
    rmatch U true re_d
      {| st_prev := prev; st_rest := a :: b :: c :: tl; st_pos := pos; st_caps := caps |}
      (fun s => rmatch U true ws_plus s K)
    = None.
Proof.
  intros Hb Hc K prev pos caps.
  unfold re_d, ws_plus, plus, chr.
  cbn [alts rmatch rep_greedy st_rest st_pos st_caps st_prev hi_allows andb].
  rewrite !in_class_space, Hb, Hc.
  repeat match goal with
  | |- context [in_class U true ?cs ?x] => destruct (in_class U true cs x)
  end; reflexivity.
Qed.

Lemma full_name_stage (m : N) :
  (1 <= m <= 12)%N ->
  forall (K : mstate -> option A) (c : N) (tl : pystr),
    is_space c = false ->
    rmatch U true re_B
      {| st_prev := None; st_rest := month_name m ++ 32%N :: c :: tl;
         st_pos := 0; st_caps := [] |}
      (fun s1 => rmatch U true ws_plus s1 K)
    = K {| st_prev := Some 32%N; st_rest := c :: tl;
           st_pos := 1 + length (month_name m);
           st_caps := [(G_B, month_name m)] |}.
Proof.
  intros Hm K c tl Hc.
  assert (Hin : In m (map N.of_nat (seq 1 12))) by (apply N_in_range; lia).
  cbv [seq map] in Hin.
  repeat (destruct Hin as [<-|Hin]; [run_stage K Hc|]).
  destruct Hin.
Qed.

Lemma abbr_name_stage (m : N) :
  (1 <= m <= 12)%N ->
  forall (K : mstate -> option A) (c : N) (tl : pystr),
    is_space c = false ->
    rmatch U true re_b
      {| st_prev := None; st_rest := abbr_name m ++ 32%N :: c :: tl;
         st_pos := 0; st_caps := [] |}
      (fun s1 => rmatch U true ws_plus s1 K)
    = K {| st_prev := Some 32%N; st_rest := c :: tl; st_pos := 4;
           st_caps := [(G_b, abbr_name m)] |}.
Proof.
  intros Hm K c tl Hc.
  assert (Hin : In m (map N.of_nat (seq 1 12))) by (apply N_in_range; lia).
  cbv [seq map] in Hin.
  repeat (destruct Hin as [<-|Hin]; [run_stage K Hc|]).
  destruct Hin.
Qed.


(** A full name followed by a space is an abbreviation for May only. *)
Lemma full_as_abbr_name (m : N) :
  (1 <= m <= 12)%N ->
  forall (K : mstate -> option A) (c : N) (tl : pystr),
    is_space c = false ->
    rmatch U true re_b
      {| st_prev := None; st_rest := month_name m ++ 32%N :: c :: tl;
         st_pos := 0; st_caps := [] |}
      (fun s1 => rmatch U true ws_plus s1 K)
    = if (m =? 5)%N then
        K {| st_prev := Some 32%N; st_rest := c :: tl; st_pos := 4;
             st_caps := [(G_b, month_name m)] |}
      else None.
Proof.
  intros Hm K c tl Hc.
  assert (Hin : In m (map N.of_nat (seq 1 12))) by (apply N_in_range; lia).
  cbv [seq map] in Hin.
  repeat (destruct Hin as [<-|Hin]; [run_stage K Hc|]).
  destruct Hin.
Qed.
End MonthYearStages.

Section MonthYear.
Variable U : unicode.

Lemma abbr_name_facts (m : N) :
  (1 <= m <= 12)%N ->
  exists c tl, abbr_name m = c :: tl /\ is_space c = false /\
               forallb (fun x => negb (x =? 44)%N) (abbr_name m) = true /\
               index_of (py_lower U (abbr_name m)) abbr_months 1 = Some m /\
               month_name m = abbr_name m ++ skipn 3 (month_name m) /\
               length (abbr_name m) = 3.
Proof.
  intros Hm.
  assert (Hin : In m (map N.of_nat (seq 1 12))) by (apply N_in_range; lia).
  cbv [seq map] in Hin.
  repeat (destruct Hin as [<-|Hin];
    [eexists; eexists; repeat split; reflexivity|]).
  destruct Hin.
Qed.

Lemma make_date_first (y m : N) :
  (1 <= y <= 9999)%N -> (1 <= m <= 12)%N -> make_date y m 1 = Some (first_of y m).
Proof.
  intros Hy Hm. unfold make_date, valid_ymd.
  assert (H1 : (1 <=? days_in_month y m)%N = true).
  { apply N.leb_le. unfold days_in_month.
    repeat match goal with
    | |- context [match ?x with _ => _ end] => destruct x
    end; lia. }
  rewrite H1.
  repeat match goal with
  | |- context [(?a <=? ?b)%N] => destruct (N.leb_spec a b); try lia
  end. reflexivity.
Qed.

Lemma strptime_no_match (ds fmt : pystr) :
  re_match U true (format_regex fmt) ds = None -> strptime U ds fmt = None.
Proof. intros H. unfold strptime. now rewrite H. Qed.

Lemma four_digits_space (y : N) :
  forall a b c d, four_digits y = [a; b; c; d] ->
    is_space a = false /\ is_space b = false /\ is_space c = false.
Proof.
  intros a b c d E. unfold four_digits in E. injection E as <- <- <- <-.
  repeat split; apply digit_char_not_space.
Qed.

Section Fragment.
Variables (y m : N).
Hypothesis Hy : (1 <= y <= 9999)%N.
Hypothesis Hm : (1 <= m <= 12)%N.

Let y1 := digit_char (y / 1000).
Let y2 := digit_char (y / 100).
Let y3 := digit_char (y / 10).
Let y4 := digit_char y.

Lemma four_digits_eq : four_digits y = [y1; y2; y3; y4].
Proof. reflexivity. Qed.

(** The two formats that start with the day. *)
Lemma day_first_fails (name_tl fmt_tl : pystr) (rs : list regex) :
  format_regex fmt_tl = seqs (re_d :: ws_plus :: rs) ->
  strptime U (abbr_name m ++ name_tl) fmt_tl = None.
Proof.
  intros Hf. apply strptime_no_match. unfold re_match, match_at. rewrite Hf.
  destruct rs; cbn [seqs rmatch]; now rewrite day_not_a_name.
Qed.

Lemma day_first_fails_full (name_tl fmt_tl : pystr) (rs : list regex) :
  format_regex fmt_tl = seqs (re_d :: ws_plus :: rs) ->
  strptime U (month_name m ++ name_tl) fmt_tl = None.
Proof.
  intros Hf.
  destruct (abbr_name_facts m Hm) as [_ [_ [_ [_ [_ [_ [E _]]]]]]].
  rewrite E, <- app_assoc. now apply (day_first_fails _ _ rs).
Qed.

Lemma full_day_year_fails :
  strptime U (month_name m ++ 32%N :: four_digits y) (s2u "%B %d %Y") = None.
Proof.
  apply strptime_no_match. unfold re_match, match_at.
  change (format_regex (s2u "%B %d %Y"))
    with (seqs [re_B; ws_plus; re_d; ws_plus; re_Y]).
  cbn [seqs rmatch]. rewrite four_digits_eq.
  rewrite full_name_stage by (trivial; apply digit_char_not_space).
  now rewrite day_not_a_year by apply digit_char_not_space.
Qed.

Lemma abbr_day_year_fails (name : pystr) :
  name = month_name m \/ name = abbr_name m ->
  strptime U (name ++ 32%N :: four_digits y) (s2u "%b %d %Y") = None.
Proof.
  intros Hn. apply strptime_no_match. unfold re_match, match_at.
  change (format_regex (s2u "%b %d %Y"))
    with (seqs [re_b; ws_plus; re_d; ws_plus; re_Y]).
  cbn [seqs rmatch]. rewrite four_digits_eq.
  destruct Hn as [-> | ->].
  - rewrite full_as_abbr_name by (trivial; apply digit_char_not_space).
    destruct (m =? 5)%N; trivial.
    now rewrite day_not_a_year by apply digit_char_not_space.
  - rewrite abbr_name_stage by (trivial; apply digit_char_not_space).
    now rewrite day_not_a_year by apply digit_char_not_space.
Qed.


(** [%B %Y] on a full name and a year. *)
Lemma full_month_year :
  strptime U (month_name m ++ 32%N :: four_digits y) (s2u "%B %Y")
  = Some (first_of y m).
Proof.
  destruct (month_name_head U m Hm) as [c [tl [_ [_ [_ Hidx]]]]].
  unfold strptime, re_match, match_at.
  change (format_regex (s2u "%B %Y")) with (seqs [re_B; ws_plus; re_Y]).
  cbn [seqs rmatch]. rewrite four_digits_eq.
  rewrite full_name_stage by (trivial; apply digit_char_not_space).
  rewrite year_stage by apply is_decimal_digit_char.
  cbn [m_end st_pos].
  replace (4 + (1 + length (month_name m)))
    with (length (month_name m ++ 32%N :: [y1; y2; y3; y4]))
    by (rewrite length_app; cbn [length]; lia).
  rewrite Nat.eqb_refl.
  unfold group. cbn [m_caps st_caps lookup_cap G_Y G_m G_B G_b G_d Nat.eqb].
  rewrite <- four_digits_eq, py_int_four_digits by lia.
  rewrite Hidx. cbn [opt_bind]. now apply make_date_first.
Qed.



Lemma fragment_clean (name : pystr) :
  name = month_name m \/ name = abbr_name m ->
  strip (replace_char 44 [32%N] (name ++ 32%N :: four_digits y))
  = name ++ 32%N :: four_digits y.
Proof.
  intros Hn.
  assert (Hname : exists c tl, name = c :: tl /\ is_space c = false /\
                    forallb (fun x => negb (x =? 44)%N) name = true).
  { destruct Hn as [-> | ->].
    - destruct (month_name_head U m Hm) as [c [tl [E [Hc [Hn _]]]]].
      now exists c, tl.
    - destruct (abbr_name_facts m Hm) as [c [tl [E [Hc [Hn _]]]]].
      now exists c, tl. }
  destruct Hname as [c [tl [E [Hc Hcomma]]]].
  rewrite replace_char_id.
  - apply strip_id.
    + now rewrite E.
    + rewrite rev_app_distr. cbn. apply digit_char_not_space.
  - rewrite forallb_app, Hcomma. cbn [forallb four_digits andb].
    now rewrite !digit_char_not_comma.
Qed.

Lemma parse_full_fragment :
  _parse_one_date U (month_name m ++ 32%N :: four_digits y) = Some (first_of y m).
Proof.
  unfold _parse_one_date. rewrite fragment_clean by now left.
  unfold fmts. cbn [map first_parse].
  rewrite (day_first_fails_full _ (s2u "%d %B %Y") [re_B; ws_plus; re_Y]) by reflexivity.
  rewrite full_day_year_fails.
  rewrite (day_first_fails_full _ (s2u "%d %b %Y") [re_b; ws_plus; re_Y]) by reflexivity.
  rewrite abbr_day_year_fails by now left.
  now rewrite full_month_year.
Qed.

End Fragment.
End MonthYear.

(** ** Reference tokens of the labels *)

Section Tokens.
Variable U : unicode.

Lemma in_class_ascii_digit (c : N) : in_class U false [CRng 48 57] c = ascii_digit c.
Proof. unfold in_class, ascii_digit; simpl. now rewrite orb_false_r. Qed.

(** A string accepted by [token_re] starts with an ASCII digit. *)
Lemma token_re_digit (p : pystr) :
  is_some (re_match U false token_re p) = true ->
  exists d rest, p = d :: rest /\ ascii_digit d = true.
Proof.
  unfold re_match, match_at, token_re, plus.
  cbn [seqs rmatch st_pos st_rest st_prev st_caps].
  destruct p as [|d rest]; cbn [rep_greedy]; [discriminate|].
  cbn [hi_allows andb]. rewrite in_class_ascii_digit.
  destruct (ascii_digit d) eqn:E; [|discriminate].
  intros _. now exists d, rest.
Qed.

Lemma label_of_part_spec (act p : pystr) (label : pystr) :
  In label (label_of_part U act p) ->
  exists d rest,
    strip p = d :: rest /\ ascii_digit d = true /\
    is_some (re_match U false token_re (strip p)) = true /\
    label = s2u "Section " ++ strip p ++
            match act with [] => [] | _ => 32%N :: act end.
Proof.
  unfold label_of_part.
  destruct (strip p) as [|c q] eqn:Ep; [intros []|].
  destruct (is_some (re_match U false token_re (c :: q))) eqn:Em; [|intros []].
  intros [<-|[]].
  destruct (token_re_digit _ Em) as [d [rest [E Hd]]].
  exists d, rest. repeat split; trivial.
Qed.

(** A part that does not start with an ASCII digit gives no label. *)
Lemma label_of_part_dropped (act p : pystr) :
  match strip p with
  | d :: _ => ascii_digit d = false
  | [] => True
  end -> label_of_part U act p = [].
Proof.
  unfold label_of_part. destruct (strip p) as [|c q] eqn:Ep; trivial.
  intros Hc.
  destruct (is_some (re_match U false token_re (c :: q))) eqn:Em; trivial.
  destruct (token_re_digit _ Em) as [d [rest [E Hd]]].
  injection E as <- <-. congruence.
Qed.

Lemma collect_a_spec (clean : pystr) (label : pystr) :
  In label (collect_a U clean) ->
  exists m part d rest,
    In m (re_finditer U true patt_a clean) /\
    In part (re_split U false nums_sep (group_or_empty m G_num)) /\
    strip part = d :: rest /\ ascii_digit d = true /\
    is_some (re_match U false token_re (strip part)) = true /\
    label = s2u "Section " ++ strip part ++
            match strip (group_or_empty m G_act) with
            | [] => []
            | act => 32%N :: act
            end.
Proof.
  unfold collect_a. rewrite in_flat_map. intros [m [Hm Hl]].
  unfold labels_a in Hl. rewrite in_flat_map in Hl.
  destruct Hl as [part [Hp Hl]].
  destruct (label_of_part_spec _ _ _ Hl) as [d [rest [E [Hd [Ht El]]]]].
  exists m, part, d, rest. repeat split; trivial.
  rewrite El. now destruct (strip (group_or_empty m G_act)).
Qed.
End Tokens.

(** C10. Every label that [extract_sections_invoked] builds from a match
    of the keyword-prefixed pattern is [Section], a space, a reference token
    and, when a statute was matched, a space and its name; the token is one
    of the parts of the matched reference list, it is accepted by the token
    pattern and so starts with an ASCII digit.  A part that does not start
    with a digit gives no label: a purely alphabetic token never produces a
    [Section ...] label.  Every label of the result comes from one of the
    two pattern families. *)
Theorem C10_family_a_token_starts_with_digit (U : unicode) (T : pystr) :
  let clean := _normalize_text U T in
  (forall label, In label (collect_a U clean) ->
     exists m part d rest,
       In m (re_finditer U true patt_a clean) /\
       In part (re_split U false nums_sep (group_or_empty m G_num)) /\
       strip part = d :: rest /\ ascii_digit d = true /\
       is_some (re_match U false token_re (strip part)) = true /\
       label = s2u "Section " ++ strip part ++
               match strip (group_or_empty m G_act) with
               | [] => []
               | act => 32%N :: act
               end) /\
  (forall act p,
     match strip p with
     | d :: _ => ascii_digit d = false
     | [] => True
     end -> label_of_part U act p = []) /\
  (forall label, In label (fst (extract_sections_invoked U T)) ->
     In label (collect_a U clean) \/ In label (collect_b U clean)) /\
  collect_a U (s2u "under Section ABC of the IPC and sec. 65B") = [s2u "Section 65B"].
Proof.
  intros clean. split; [apply collect_a_spec|].
  split; [apply label_of_part_dropped|].
  split; [|vm_compute; reflexivity].
  intros label. unfold extract_sections_invoked. cbn [fst].
  rewrite dedup_loop_eq. cbn [rev app]. intros H.
  apply first_seen_In in H. destruct H as [H _].
  unfold found_sections in H. now apply in_app_iff in H.
Qed.

(** ** Two runs of the whole pipeline *)

(** The scenario of the specification, read on 1 January 2025. *)
Example hearing_scenario (U : unicode) :
  let w := frozen {| year := 2025; month := 1; day := 1 |} in
  let E := fst (extract_and_classify_dates U scenario_text w) in
  count (upcoming E) = 1 /\
  items (upcoming E) = [s2u "15 November 2025"] /\
  extract_sections_invoked U scenario_text = ([s2u "Section 138 NI Act"], 1) /\
  map (fun e => (ev_date e, status e)) (fst (generate_case_timeline U scenario_text w))
    = [(s2u "15 November 2025", status_upcoming)].
Proof. vm_compute. repeat split. Qed.

(** A numeric date that can be read both ways is read day first. *)
Remark numeric_date_day_first (U : unicode) :
  _parse_one_date U (s2u "03/04/2025") = Some {| year := 2025; month := 4; day := 3 |} /\
  _parse_one_date U (s2u "03/13/2025") = Some {| year := 2025; month := 3; day := 13 |}.
Proof. vm_compute. repeat split. Qed.

(** ** What normalisation keeps *)

Lemma visible_app (a b : pystr) : visible (a ++ b) = visible a ++ visible b.
Proof. apply filter_app. Qed.

Lemma visible_rev (s : pystr) : visible (rev s) = rev (visible s).
Proof.
  induction s as [|c s IH]; simpl; trivial.
  rewrite visible_app, IH. simpl. destruct (is_space c); simpl; trivial.
  now rewrite app_nil_r.
Qed.

Lemma visible_lstrip (s : pystr) : visible (lstrip s) = visible s.
Proof.
  induction s as [|c s IH]; simpl; trivial.
  destruct (is_space c) eqn:E; simpl; [exact IH|]. now rewrite E.
Qed.

Lemma visible_strip (s : pystr) : visible (strip s) = visible s.
Proof.
  unfold strip.
  now rewrite visible_rev, visible_lstrip, visible_rev, rev_involutive, visible_lstrip.
Qed.

Lemma visible_trimnl (s : pystr) : forall b, visible (trimnl b s) = visible s.
Proof.
  induction s as [|c s IH]; intros b; trivial.
  cbn [trimnl]. destruct b.
  - destruct (is_space c) eqn:E; cbn [visible filter]; rewrite E; cbn [negb];
      fold (visible (trimnl true s)); fold (visible (trimnl false s)); fold (visible s);
      now rewrite IH.
  - destruct (is_space c) eqn:E; cbn [andb].
    + destruct (nl_in_run (c :: s)); cbn [visible filter]; rewrite ?E; cbn [negb];
        change (is_space 10) with true; cbn [negb];
        fold (visible (trimnl true s)); fold (visible (trimnl false s)); fold (visible s);
        now rewrite IH.
    + cbn [visible filter]. rewrite E. cbn [negb].
      fold (visible (trimnl false s)); fold (visible s). now rewrite IH.
Qed.

Lemma visible_squeeze (s : pystr) : forall b, visible (squeeze b s) = visible s.
Proof.
  induction s as [|c s IH]; intros b; trivial.
  cbn [squeeze]. destruct (blank c) eqn:E.
  - pose proof (blank_space c E) as Hs.
    destruct b; cbn [visible filter]; rewrite Hs; cbn [negb];
      change (is_space 32) with true; cbn [negb];
      fold (visible (squeeze true s)); fold (visible s); now rewrite IH.
  - cbn [visible filter]. destruct (is_space c); cbn [negb];
      fold (visible (squeeze false s)); fold (visible s); now rewrite IH.
Qed.

Lemma replace_one_is_space (c : N) : is_space (replace_one c) = is_space c.
Proof.
  unfold replace_one.
  destruct (c =? 160)%N eqn:E1; [apply N.eqb_eq in E1; now subst|].
  destruct (c =? 8211)%N eqn:E2; [apply N.eqb_eq in E2; now subst|].
  destruct (c =? 8212)%N eqn:E3; [apply N.eqb_eq in E3; now subst|].
  destruct (c =? 8210)%N eqn:E4; [apply N.eqb_eq in E4; now subst|].
  reflexivity.
Qed.

Lemma replace_one_visible (c : N) :
  is_space c = false -> replace_one c = dash_to_hyphen c.
Proof.
  intros H. unfold replace_one, dash_to_hyphen.
  destruct (c =? 160)%N eqn:E1; [apply N.eqb_eq in E1; now subst|].
  destruct (c =? 8211)%N; destruct (c =? 8212)%N; destruct (c =? 8210)%N; reflexivity.
Qed.

Lemma visible_replace_all (s : pystr) :
  visible (replace_all s) = map dash_to_hyphen (visible s).
Proof.
  rewrite replace_all_map.
  induction s as [|c s IH]; simpl; trivial.
  rewrite replace_one_is_space.
  destruct (is_space c) eqn:E; simpl; [exact IH|].
  fold (visible (map replace_one s)). fold (visible s).
  now rewrite IH, (replace_one_visible c E).
Qed.

Lemma length_lstrip (s : pystr) : length (lstrip s) <= length s.
Proof.
  induction s as [|c s IH]; simpl; trivial.
  destruct (is_space c); simpl; lia.
Qed.

Lemma length_strip (s : pystr) : length (strip s) <= length s.
Proof.
  unfold strip. rewrite length_rev.
  pose proof (length_lstrip (rev (lstrip s))) as H1.
  rewrite length_rev in H1. pose proof (length_lstrip s). lia.
Qed.

Lemma length_trimnl (s : pystr) : forall b, length (trimnl b s) <= length s.
Proof.
  induction s as [|c s IH]; intros b; trivial.
  cbn [trimnl]. pose proof (IH true). pose proof (IH false).
  destruct b; destruct (is_space c); cbn [andb];
    try destruct (nl_in_run (c :: s)); simpl; lia.
Qed.

Lemma length_squeeze (s : pystr) : forall b, length (squeeze b s) <= length s.
Proof.
  induction s as [|c s IH]; intros b; trivial.
  cbn [squeeze]. pose proof (IH true). pose proof (IH false).
  destruct (blank c); destruct b; simpl; lia.
Qed.

Lemma replace_one_idem (c : N) : replace_one (replace_one c) = replace_one c.
Proof. apply replace_one_id, replace_one_clean. Qed.

Lemma normalize_replaced (U : unicode) (T : pystr) :
  _normalize_text U (map replace_one T) = _normalize_text U T.
Proof.
  rewrite !normalize_text_eq, !replace_all_map, map_map.
  do 3 f_equal. apply map_ext. intros c. apply replace_one_idem.
Qed.

(** Normalisation touches whitespace and dashes only: the characters of the
    result that are not whitespace are those of the text, in the same order,
    with the en, em and figure dashes turned into hyphens; and the result is
    never longer than the text. *)
Theorem normalize_keeps_visible_text (U : unicode) (T : pystr) :
  visible (_normalize_text U T) = map dash_to_hyphen (visible T) /\
  length (_normalize_text U T) <= length T.
Proof.
  rewrite normalize_text_eq. split.
  - now rewrite visible_strip, visible_trimnl, visible_squeeze, visible_replace_all.
  - pose proof (length_strip (trimnl false (squeeze false (replace_all T)))).
    pose proof (length_trimnl (squeeze false (replace_all T)) false).
    pose proof (length_squeeze (replace_all T) false).
    assert (length (replace_all T) = length T)
      by (rewrite replace_all_map; apply length_map).
    lia.
Qed.

(** The extractors see a text through its normalisation only: a text and
    the text with its non-breaking spaces and dashes already replaced have
    the same normal form, and two texts with the same normal form have the
    same dates, the same citations and the same timeline. *)
Theorem extractors_see_normalised_text (U : unicode) (T1 T2 : pystr) (w : world) :
  _normalize_text U T1 = _normalize_text U T2 ->
  extract_and_classify_dates U T1 w = extract_and_classify_dates U T2 w /\
  extract_sections_invoked U T1 = extract_sections_invoked U T2 /\
  generate_case_timeline U T1 w = generate_case_timeline U T2 w /\
  extract_and_classify_dates U (_normalize_text U T1) w = extract_and_classify_dates U T1 w /\
  _normalize_text U (map replace_one T1) = _normalize_text U T1.
Proof.
  intros H. repeat split.
  - rewrite !extract_eq. unfold unique_sorted_dates. now rewrite H.
  - unfold extract_sections_invoked, found_sections. now rewrite H.
  - rewrite !timeline_eq. unfold unique_sorted_dates. now rewrite H.
  - rewrite !extract_eq. now rewrite unique_sorted_idempotent.
  - apply normalize_replaced.
Qed.

Lemma extractors_see_normalised_text_dashes :
  _normalize_text ascii_only dashes_text = _normalize_text ascii_only (s2u "A - B") /\
  extract_sections_invoked ascii_only dashes_text =
    extract_sections_invoked ascii_only (s2u "A - B").
Proof.
  assert (H : _normalize_text ascii_only dashes_text =
              _normalize_text ascii_only (s2u "A - B")) by (vm_compute; reflexivity).
  split; [exact H|].
  exact (proj1 (proj2 (extractors_see_normalised_text ascii_only dashes_text
                         (s2u "A - B") (frozen epoch) H))).
Defined.

(** ** Printing and parsing of dates *)

(** A date of a year from 1000 on, printed as the output lists print it, is
    read back by the single-date parser as the same date, so two different
    dates of such years are never printed alike.  (The digits of a year
    below 1000 depend on the C library, see [strftime_from].) *)
Theorem printed_date_parses_back (U : unicode) (d : date) :
  valid_date d = true -> (1000 <= year d)%N ->
  _parse_one_date U (pretty d) = Some d /\
  _to_date U (pretty d) = d /\
  (forall d', valid_date d' = true -> (1000 <= year d')%N ->
     pretty d' = pretty d -> d' = d).
Proof.
  intros Hv Hy. split; [|split].
  - now apply parse_pretty.
  - unfold _to_date. now rewrite parse_pretty.
  - intros d' Hv' Hy' E. now apply (pretty_inj U).
Qed.

Lemma printed_date_parses_back_nov_15 :
  _parse_one_date ascii_only (s2u "15 November 2025") = Some nov_15.
Proof.
  apply (printed_date_parses_back ascii_only nov_15); [reflexivity|].
  cbn [year nov_15]. lia.
Defined.

Lemma replace_comma_spaces (s : pystr) :
  forallb space_or_comma s = true ->
  forallb is_space (replace_char 44 [32%N] s) = true.
Proof.
  induction s as [|c s IH]; simpl; trivial.
  intros H. apply andb_true_iff in H. destruct H as [Hc Hs].
  unfold space_or_comma in Hc.
  destruct (c =? 44)%N eqn:E; simpl.
  - now apply IH.
  - rewrite orb_false_r in Hc. rewrite Hc. simpl. now apply IH.
Qed.

Lemma replace_char_app (old : N) (new a b : pystr) :
  replace_char old new (a ++ b) = replace_char old new a ++ replace_char old new b.
Proof. unfold replace_char. apply flat_map_app. Qed.

Lemma lstrip_spaces_app (p s : pystr) :
  forallb is_space p = true -> lstrip (p ++ s) = lstrip s.
Proof.
  induction p as [|c p IH]; simpl; trivial.
  intros H. apply andb_true_iff in H. destruct H as [Hc Hp]. rewrite Hc. auto.
Qed.

Lemma strip_spaces_around (p s q : pystr) :
  forallb is_space p = true -> forallb is_space q = true ->
  strip (p ++ s ++ q) = strip s.
Proof.
  intros Hp Hq. unfold strip.
  rewrite (lstrip_spaces_app p _ Hp).
  destruct (forallb is_space s) eqn:Es.
  - assert (H1 : lstrip (s ++ q) = []).
    { apply lstrip_all_space. rewrite forallb_app. now rewrite Es, Hq. }
    rewrite H1, (lstrip_all_space s Es). reflexivity.
  - assert (H1 : lstrip (s ++ q) = lstrip s ++ q).
    { clear Hp Hq. induction s as [|c s IH]; [discriminate|].
      simpl in *. destruct (is_space c); simpl in *; auto. }
    rewrite H1, rev_app_distr.
    rewrite lstrip_spaces_app; trivial.
    now rewrite forallb_rev.
Qed.

(** The single-date parser at its edges: a string of whitespace and commas
    only (the empty string included) is no date; whitespace and commas
    around a date string do not matter; and what is returned is always a
    date of the calendar, with the year from 1 to 9999. *)
Theorem parse_one_date_edges (U : unicode) :
  (forall s, forallb space_or_comma s = true -> _parse_one_date U s = None) /\
  (forall p s q, forallb space_or_comma p = true -> forallb space_or_comma q = true ->
     _parse_one_date U (p ++ s ++ q) = _parse_one_date U s) /\
  (forall s d, _parse_one_date U s = Some d ->
     valid_date d = true /\
     (1 <= year d <= 9999)%N /\ (1 <= month d <= 12)%N /\ (1 <= day d <= 31)%N).
Proof.
  split; [|split].
  - intros s H. unfold _parse_one_date.
    rewrite (strip_all_space _ (replace_comma_spaces s H)).
    vm_compute. reflexivity.
  - intros p s q Hp Hq. unfold _parse_one_date.
    rewrite !replace_char_app.
    now rewrite (strip_spaces_around _ _ _ (replace_comma_spaces p Hp)
                   (replace_comma_spaces q Hq)).
  - intros s d H. pose proof (parse_valid U s d H) as Hv. split; trivial.
    unfold valid_date, valid_ymd in Hv.
    repeat (apply andb_true_iff in Hv; destruct Hv as [Hv ?]).
    repeat match goal with
    | H : (_ <=? _)%N = true |- _ => apply N.leb_le in H
    end.
    assert (days_in_month (year d) (month d) <= 31)%N.
    { unfold days_in_month.
      repeat match goal with
      | |- context [match ?x with _ => _ end] => destruct x
      end; lia. }
    lia.
Qed.

(** ** The reference date *)

Lemma filter_all_later (R : date) (l : list date) :
  (forall y, In y l -> date_leb R y = true) ->
  filter (fun d => date_ltb d R) l = [] /\ filter (fun d => date_leb R d) l = l.
Proof.
  induction l as [|y l IH]; simpl; [tauto|].
  intros Hall. rewrite date_ltb_leb, (Hall y (or_introl eq_refl)). simpl.
  destruct IH as [H1 H2]; [intros; apply Hall; now right|].
  now rewrite H1, H2.
Qed.

Lemma filter_sorted_later (R1 R2 : date) (l : list date) :
  date_le R1 R2 -> StronglySorted date_lt l ->
  exists moved,
    filter (fun d => date_ltb d R2) l = filter (fun d => date_ltb d R1) l ++ moved /\
    filter (fun d => date_leb R1 d) l = moved ++ filter (fun d => date_leb R2 d) l /\
    Forall (fun d => date_le R1 d /\ date_lt d R2) moved.
Proof.
  intros HR Hs.
  induction Hs as [|x l Hs IH Hx]; [exists []; repeat split; constructor|].
  destruct IH as [moved [IH1 [IH2 IH3]]].
  assert (Hrest : forall R, date_leb R x = true -> forall y, In y l -> date_leb R y = true).
  { rewrite Forall_forall in Hx. intros R HRx y Hy.
    exact (date_leb_trans _ _ _ HRx (date_ltb_leb_true _ _ (Hx y Hy))). }
  cbn [filter]. rewrite (date_ltb_leb x R1), (date_ltb_leb x R2).
  destruct (date_leb R1 x) eqn:E1; cbn [negb].
  - destruct (filter_all_later R1 l (Hrest R1 E1)) as [H1 H1'].
    rewrite H1, H1' in *. cbn [app] in *.
    destruct (date_leb R2 x) eqn:E2; cbn [negb].
    + destruct (filter_all_later R2 l (Hrest R2 E2)) as [H2 H2'].
      rewrite H2, H2' in *. exists []. repeat split. constructor.
    + exists (x :: moved). rewrite IH1. cbn [app]. split; [reflexivity|].
      split; [f_equal; exact IH2|].
      constructor; trivial. split; [exact E1|].
      unfold date_lt. now rewrite date_ltb_leb, E2.
  - assert (E2 : date_leb R2 x = false).
    { destruct (date_leb R2 x) eqn:E2; trivial.
      now rewrite (date_leb_trans _ _ _ HR E2) in E1. }
    rewrite E2. cbn [negb]. exists moved. rewrite IH1. now repeat split.
Qed.

(** As the reference date moves forward, dates only move from the upcoming
    list to the past list: read at a later date, the same text has the same
    sorted list, a past list that starts with the earlier past list, and an
    upcoming list that ends the earlier upcoming list; the dates that moved
    are those from the earlier reference date up to the day before the
    later one. *)
Theorem later_reading_moves_dates_to_past (U : unicode) (T : pystr) (w1 w2 : world) :
  date_le (wall_clock w1 (reads w1)) (wall_clock w2 (reads w2)) ->
  let E1 := fst (extract_and_classify_dates U T w1) in
  let E2 := fst (extract_and_classify_dates U T w2) in
  all_unique_sorted E2 = all_unique_sorted E1 /\
  total_unique E2 = total_unique E1 /\
  exists moved,
    items (past E2) = items (past E1) ++ moved /\
    items (upcoming E1) = moved ++ items (upcoming E2) /\
    count (past E2) = count (past E1) + length moved /\
    count (upcoming E1) = length moved + count (upcoming E2) /\
    forall s, In s moved ->
      exists d, _parse_one_date U s = Some d /\
                date_le (wall_clock w1 (reads w1)) d /\
                date_lt d (wall_clock w2 (reads w2)).
Proof.
  intros HR E1 E2. subst E1 E2. rewrite !extract_eq. cbn [fst all_unique_sorted
    total_unique past upcoming items count].
  split; [reflexivity|]. split; [reflexivity|].
  destruct (filter_sorted_later _ _ (unique_sorted_dates U T) HR (unique_sorted_lt U T))
    as [moved [H1 [H2 H3]]].
  exists (map pretty moved). rewrite H1, H2, !map_app, !length_app, !length_map.
  repeat split.
  intros s Hs. apply in_map_iff in Hs. destruct Hs as [d [<- Hd]].
  rewrite Forall_forall in H3. exists d. split; [|exact (H3 d Hd)].
  apply parse_pretty. apply (unique_sorted_valid U T).
  assert (Hin : In d (filter (fun d => date_leb (wall_clock w1 (reads w1)) d)
                        (unique_sorted_dates U T))).
  { rewrite H2. apply in_or_app. now left. }
  apply filter_In in Hin. tauto.
Qed.

Lemma later_reading_moves_dates_to_past_hearing :
  let E1 := fst (extract_and_classify_dates ascii_only scenario_text
                   (frozen {| year := 2025; month := 1; day := 1 |})) in
  let E2 := fst (extract_and_classify_dates ascii_only scenario_text
                   (frozen {| year := 2026; month := 1; day := 1 |})) in
  items (upcoming E1) = [s2u "15 November 2025"] /\
  items (past E2) = [s2u "15 November 2025"] /\
  all_unique_sorted E2 = all_unique_sorted E1.
Proof.
  cbv zeta. split; [vm_compute; reflexivity|]. split; [vm_compute; reflexivity|].
  exact (proj1 (later_reading_moves_dates_to_past ascii_only scenario_text
                  (frozen {| year := 2025; month := 1; day := 1 |})
                  (frozen {| year := 2026; month := 1; day := 1 |}) eq_refl)).
Defined.

(** ** The combined output *)

Lemma some_inj (A : Type) (a b : A) : Some a = Some b -> a = b.
Proof. intros H. now injection H. Qed.

Lemma detect_case_status_cases (U : unicode) (text : pystr) (md : metadata) :
  detect_case_status U text md = Closed \/ detect_case_status U text md = Ongoing.
Proof.
  unfold detect_case_status.
  repeat match goal with
  | |- context [if ?b then _ else _] => destruct b
  end; auto.
Qed.

(** The numbers of a combined output agree with its lists whatever the
    clock shows between its readings: the timeline has one event for each
    unique date, with the dates of the sorted list, and in the order of
    that list when the dates of the text are of the year 1000 or later (the
    timeline sorts by the dates read back from their printed form, and the
    digits of an earlier year depend on the C library); every count is the
    length of its list; the status is the verdict of [detect_case_status]
    on the narrative and this metadata, Closed or Ongoing; and a closed
    case has no recommendations. *)
Theorem summary_numbers_agree (U : unicode) (g : gemini) (T : pystr) (w : world)
    (s : summary) :
  fst (generate_structured_summary U g T w) = Some s ->
  exists E S TL,
    sm_metadata s = {| md_dates := Some E; md_sections := Some S; md_timeline := Some TL |} /\
    summarize_with_gemini g T = Some (summary_markdown s) /\
    length TL = total_unique E /\
    Permutation (map ev_date TL) (all_unique_sorted E) /\
    ((forall d, In d (unique_sorted_dates U T) -> (1000 <= year d)%N) ->
     map ev_date TL = all_unique_sorted E) /\
    total_unique E = length (all_unique_sorted E) /\
    count (past E) = length (items (past E)) /\
    count (upcoming E) = length (items (upcoming E)) /\
    count (past E) + count (upcoming E) = total_unique E /\
    sec_count S = length (sec_list S) /\
    (sec_list S, sec_count S) = extract_sections_invoked U T /\
    case_status s = detect_case_status U (summary_markdown s) (sm_metadata s) /\
    (case_status s = Closed \/ case_status s = Ongoing) /\
    (case_status s = Closed -> recommendations s = []) /\
    (case_status s = Ongoing ->
       recommendations s = generate_case_tips g (summary_markdown s) (sm_metadata s)).
Proof.
  destruct (summarize_with_gemini g T) as [narrative|] eqn:Hg.
  2:{ unfold generate_structured_summary. rewrite Hg. discriminate. }
  rewrite (summary_eq U g T narrative w Hg). cbn [fst].
  intros H. apply some_inj in H. subst s.
  set (w1 := {| wall_clock := wall_clock w; reads := S (reads w) |}).
  set (E := fst (extract_and_classify_dates U T w)).
  set (TL := fst (generate_case_timeline U T w1)).
  set (us := unique_sorted_dates U T).
  assert (HE : all_unique_sorted E = map pretty us /\
               total_unique E = length us /\
               count (past E) = length (items (past E)) /\
               count (upcoming E) = length (items (upcoming E)) /\
               count (past E) + count (upcoming E) = length us).
  { unfold E. rewrite extract_eq.
    cbn [fst all_unique_sorted total_unique past upcoming count items].
    rewrite !length_map. repeat split.
    rewrite <- length_app. fold us.
    now rewrite classify_split by apply unique_sorted_lt. }
  assert (HT : length TL = length us /\ map ev_date TL = map pretty us).
  { unfold TL. rewrite timeline_eq. cbn [fst]. fold us.
    split; [now rewrite !length_map|].
    generalize (map pretty us). intros l.
    induction l as [|a l IH]; cbn [map]; [reflexivity|].
    now rewrite event_of_date, IH. }
  clearbody E TL.
  destruct HE as [HE1 [HE2 [HE3 [HE4 HE5]]]]. destruct HT as [HT1 HT2].
  unfold summary_of.
  destruct (extract_sections_invoked U T) as [sections section_count] eqn:Es.
  assert (Hc : section_count = length sections).
  { unfold extract_sections_invoked in Es. now injection Es as <- <-. }
  exists E, {| sec_count := section_count; sec_list := sections |}, TL.
  cbn [sm_metadata summary_markdown case_status recommendations sec_count sec_list].
  rewrite HE1, HE2.
  split; [reflexivity|]. split; [reflexivity|].
  split; [exact HT1|]. split; [rewrite HT2; apply Permutation_refl|].
  split; [intros _; exact HT2|].
  split; [now rewrite length_map|]. split; [exact HE3|]. split; [exact HE4|].
  split; [exact HE5|]. split; [exact Hc|]. split; [reflexivity|].
  split; [reflexivity|]. split; [apply detect_case_status_cases|].
  split; intros Hst; rewrite Hst; reflexivity.
Qed.

Lemma summary_numbers_agree_hearing :
  exists s,
    fst (generate_structured_summary ascii_only (fixed_gemini (s2u "Judgment delivered."))
           scenario_text (frozen new_year_2026)) = Some s /\
    case_status s = Closed /\
    recommendations s = [] /\
    exists E TL,
      dates_of_summary s = Some E /\ timeline_of_summary s = TL /\
      length TL = total_unique E /\ map ev_date TL = all_unique_sorted E.
Proof.
  pose (g := fixed_gemini (s2u "Judgment delivered.")).
  assert (Hs : exists s, fst (generate_structured_summary ascii_only g scenario_text
                                (frozen new_year_2026)) = Some s).
  { rewrite (summary_eq ascii_only g scenario_text (s2u "Judgment delivered.")
               (frozen new_year_2026) eq_refl).
    eexists. reflexivity. }
  assert (Hy : forall d, In d (unique_sorted_dates ascii_only scenario_text) ->
                         (1000 <= year d)%N).
  { assert (Hu : unique_sorted_dates ascii_only scenario_text
                 = [{| year := 2025; month := 11; day := 15 |}])
      by (vm_compute; reflexivity).
    rewrite Hu. intros d [<-|[]]. cbn [year]. lia. }
  destruct Hs as [s Hs]. exists s. split; [exact Hs|].
  destruct (summary_numbers_agree ascii_only g scenario_text (frozen new_year_2026) s Hs)
    as (E & S & TL & Hmd & Hn & Hlen & _ & Hord & _ & _ & _ & _ & _ & _ & Hst & _ & Hcl & _).
  assert (Hc : case_status s = Closed).
  { rewrite Hst. apply some_inj in Hn. rewrite <- Hn. reflexivity. }
  split; [exact Hc|]. split; [exact (Hcl Hc)|].
  exists E, TL. unfold dates_of_summary, timeline_of_summary. rewrite Hmd.
  split; [reflexivity|]. split; [reflexivity|]. split; [exact Hlen|exact (Hord Hy)].
Defined.

(** ** The context of an event *)

Section Collapse.
Variable U : unicode.
Variable ic : bool.
Variable cs : cclass.

Lemma match_plus_run (prev : option N) (rest : pystr) (pos : nat) :
option_map m_len (match_at U ic (plus cs) prev rest pos) =
match prefix_len (in_class U ic cs) rest with
| O => None
| S n => Some (S n)
end.
Proof.
unfold match_at, plus; simpl rmatch.
rewrite rep_greedy_run; simpl.
destruct (prefix_len (in_class U ic cs) rest) as [|n]; simpl; trivial.
unfold m_len; simpl. f_equal; lia.
Qed.

(** [re.sub] of [x+] by one space is [collapse]. *)
Lemma sub_plus_run (rest : pystr) :
forall prev pos,
  sub_from U ic (plus cs) (fun _ => [32%N]) prev rest pos 0
    = collapse (in_class U ic cs) false rest /\
  sub_from U ic (plus cs) (fun _ => [32%N]) prev rest pos
      (prefix_len (in_class U ic cs) rest)
    = collapse (in_class U ic cs) true rest.
Proof.
induction rest as [|c rest IH]; intros prev pos.
- pose proof (match_plus_run prev [] pos) as H.
  cbn [prefix_len collapse sub_from] in *.
  destruct (match_at U ic (plus cs) prev [] pos); [discriminate H|]. auto.
- pose proof (match_plus_run prev (c :: rest) pos) as H.
  cbn [prefix_len collapse] in *.
  destruct (in_class U ic cs c) eqn:Ec.
  + split.
    * cbn [sub_from].
      destruct (match_at U ic (plus cs) prev (c :: rest) pos) as [m|];
        [|discriminate H].
      cbn [option_map] in H. injection H as H. rewrite H. cbn [app].
      f_equal. apply IH.
    * cbn [sub_from]. apply IH.
  + assert (Hn : match_at U ic (plus cs) prev (c :: rest) pos = None).
    { destruct (match_at U ic (plus cs) prev (c :: rest) pos);
        [discriminate H|trivial]. }
    cbn [sub_from]. rewrite Hn. split; f_equal; apply IH.
Qed.
End Collapse.

Lemma collapse_ext (p q : N -> bool) (s : pystr) :
  (forall c, p c = q c) -> forall b, collapse p b s = collapse q b s.
Proof.
  intros H. induction s as [|c s IH]; intros b; simpl; trivial.
  rewrite H. destruct (q c); destruct b; now rewrite ?IH.
Qed.

Lemma sub_whitespace (U : unicode) (s : pystr) :
  re_sub U false ws_plus (fun _ => [32%N]) s = collapse is_space false s.
Proof.
  unfold re_sub, ws_plus.
  rewrite (proj1 (sub_plus_run U false [CSpc] s None 0)).
  apply collapse_ext. apply in_class_space.
Qed.

Lemma length_collapse (p : N -> bool) (s : pystr) :
  forall b, length (collapse p b s) <= length s.
Proof.
  induction s as [|c s IH]; intros b; simpl; trivial.
  pose proof (IH true). pose proof (IH false).
  destruct (p c); destruct b; simpl; lia.
Qed.

Lemma collapse_spaces (s : pystr) : forall b c,
  In c (collapse is_space b s) -> is_space c = true -> c = 32%N.
Proof.
  induction s as [|x s IH]; intros b c; simpl; [tauto|].
  destruct (is_space x) eqn:E.
  - destruct b; simpl; [apply IH|].
    intros [<-|H]; [reflexivity|]. now apply IH with (b := true).
  - simpl. intros [<-|H] Hc; [congruence|]. now apply IH with (b := false).
Qed.

(** After [collapse], a space is never followed by a space. *)
Lemma collapse_pairs (s : pystr) : forall b,
  adj_ok (fun a b => negb (is_space a && is_space b)) (collapse is_space b s) = true /\
  (b = true ->
   match collapse is_space b s with
   | c :: _ => is_space c = false
   | [] => True
   end).
Proof.
  induction s as [|x s IH]; intros b; [simpl; auto|].
  cbn [collapse]. destruct (is_space x) eqn:E.
  - destruct (IH true) as [IH1 IH2]. specialize (IH2 eq_refl).
    destruct b; [split; auto|]. split; [|discriminate].
    cbn [adj_ok]. destruct (collapse is_space true s) as [|y l] eqn:Ey; trivial.
    rewrite IH2. simpl. exact IH1.
  - destruct (IH false) as [IH1 _]. split; [|now intros _].
    cbn [adj_ok]. destruct (collapse is_space false s) as [|y l]; trivial.
    rewrite E. simpl. exact IH1.
Qed.

Lemma visible_collapse (s : pystr) : forall b,
  visible (collapse is_space b s) = visible s.
Proof.
  induction s as [|c s IH]; intros b; trivial.
  cbn [collapse]. destruct (is_space c) eqn:E.
  - destruct b; cbn [visible filter]; rewrite E; cbn [negb];
      change (is_space 32) with true; cbn [negb];
      fold (visible (collapse is_space true s)); fold (visible s); now rewrite IH.
  - cbn [visible filter]. rewrite E. cbn [negb].
    fold (visible (collapse is_space false s)); fold (visible s). now rewrite IH.
Qed.

Lemma length_slice (s : pystr) (start stop : nat) :
  length (slice s start stop) <= stop - start.
Proof. unfold slice. rewrite length_firstn. lia. Qed.

Lemma slice_infix (s : pystr) (start stop : nat) :
  exists pre post, s = pre ++ slice s start stop ++ post.
Proof.
  unfold slice. exists (firstn start s), (skipn (stop - start) (skipn start s)).
  now rewrite firstn_skipn, firstn_skipn.
Qed.

(** The context shown with an event is a short, clean excerpt of the
    normalised text: at most 280 characters; its only whitespace is the
    plain space, never two in a row and none at either end; and its visible
    characters stand in the text, in one piece.  Every event of the timeline
    is built this way from the normalised text. *)
Theorem event_context_is_short_clean_excerpt (U : unicode) (clean dstr : pystr)
    (now : date) :
  let context := event_context (event_of U clean now dstr) in
  length context <= 280 /\
  (forall c, In c context -> is_space c = true -> c = 32%N) /\
  (forall pre a b post, context = pre ++ a :: b :: post ->
     is_space a = true -> is_space b = false) /\
  (forall c rest, context = c :: rest -> is_space c = false) /\
  (forall pre c, context = pre ++ [c] -> is_space c = false) /\
  (exists pre post, visible clean = pre ++ visible context ++ post) /\
  (forall T w e, In e (fst (generate_case_timeline U T w)) ->
     exists now' dstr', e = event_of U (_normalize_text U T) now' dstr').
Proof.
  cbv zeta. unfold event_of. cbn [event_context].
  set (idx := if truthy _ then _ else _).
  set (start := Z.to_nat (if (0 <=? idx)%Z then Z.max 0 (idx - 120) else 0%Z)).
  set (stop := Z.to_nat (Z.min (Z.of_nat (length clean))
                           (if (0 <=? idx)%Z then (idx + 160)%Z else 200%Z))).
  rewrite sub_whitespace.
  set (win := slice clean start stop).
  assert (Hwin : length win <= 280).
  { pose proof (length_slice clean start stop) as H. fold win in H.
    unfold start, stop in H. clearbody idx.
    destruct (0 <=? idx)%Z eqn:E; [apply Z.leb_le in E|]; lia. }
  assert (Hinfix : exists pre post, clean = pre ++ win ++ post) by apply slice_infix.
  clearbody win. clear idx start stop.
  set (sq := collapse is_space false win).
  set (plain := fun c => negb (is_space c) || (c =? 32)%N).
  set (pair := fun a b : N => negb (is_space a && is_space b)).
  assert (Hchars : forallb plain (strip sq) = true).
  { rewrite strip_rstrip. apply rstrip_forallb, lstrip_forallb.
    apply forallb_forall. intros c Hc. unfold plain.
    destruct (is_space c) eqn:E; trivial.
    now rewrite (collapse_spaces win false c Hc E). }
  assert (Hpairs : adj_ok pair (strip sq) = true).
  { rewrite strip_rstrip. apply rstrip_adj, lstrip_adj.
    exact (proj1 (collapse_pairs win false)). }
  split; [|split; [|split; [|split; [|split; [|split]]]]].
  - pose proof (length_strip sq). pose proof (length_collapse is_space win false).
    fold sq in H0. lia.
  - intros c Hc Hs. rewrite forallb_forall in Hchars. specialize (Hchars c Hc).
    unfold plain in Hchars. rewrite Hs in Hchars. now apply N.eqb_eq in Hchars.
  - intros pre a b post E Ha.
    pose proof (adj_ok_spec _ _ Hpairs pre a b post E) as H. unfold pair in H.
    rewrite Ha in H. now destruct (is_space b).
  - intros c rest E. pose proof (lstrip_head sq) as H.
    rewrite strip_rstrip in E. pose proof (rstrip_head (lstrip sq) H) as H'.
    now rewrite E in H'.
  - intros pre c E. unfold strip in E.
    pose proof (lstrip_head (rev (lstrip sq))) as H.
    apply (f_equal (@rev N)) in E. rewrite rev_involutive, rev_app_distr in E.
    cbn [rev app] in E. now rewrite E in H.
  - destruct Hinfix as [pre [post ->]].
    exists (visible pre), (visible post).
    unfold sq. now rewrite !visible_app, visible_strip, visible_collapse.
  - intros T w e He. rewrite timeline_eq in He. cbn [fst] in He.
    apply in_map_iff in He. destruct He as [d [<- _]]. do 2 eexists. reflexivity.
Qed.

(** ** Texts without digits *)

Section NoDigit.
Variable U : unicode.
Variable ic : bool.

Lemma rest_of_refl (a : pystr) : rest_of a a.
Proof. now exists []. Qed.

Lemma rest_of_tail (a : pystr) (c : N) (b : pystr) : rest_of a b -> rest_of a (c :: b).
Proof. intros [pre ->]. now exists (c :: pre). Qed.

Lemma rest_of_trans (a b c : pystr) : rest_of a b -> rest_of b c -> rest_of a c.
Proof. intros [p ->] [q ->]. exists (q ++ p). now rewrite app_assoc. Qed.

Lemma rep_greedy_fails (A : Type) (cs : cclass) (k : mstate -> option A) (rest : pystr) :
forall lo hi prev pos caps,
  (forall s', rest_of (st_rest s') rest -> k s' = None) ->
  rep_greedy U ic cs lo hi prev rest pos caps k = None.
Proof.
induction rest as [|c rest IH]; intros lo hi prev pos caps Hk.
- simpl. destruct lo; trivial. apply Hk. apply rest_of_refl.
- cbn [rep_greedy].
  assert (Hstop : match lo with
                  | 0 => k {| st_prev := prev; st_rest := c :: rest;
                              st_pos := pos; st_caps := caps |}
                  | S _ => None
                  end = None).
  { destruct lo; trivial. apply Hk. apply rest_of_refl. }
  rewrite Hstop.
  destruct (hi_allows hi && in_class U ic cs c); trivial.
  rewrite IH; trivial.
  intros s' Hs'. apply Hk. now apply rest_of_tail.
Qed.

(** A pattern fails when what follows it fails wherever it can stop. *)
Lemma rmatch_fails (A : Type) (r : regex) :
forall (s : mstate) (k : mstate -> option A),
  (forall s', rest_of (st_rest s') (st_rest s) -> k s' = None) ->
  rmatch U ic r s k = None.
Proof.
induction r as [|cs|a IHa b IHb|a IHa b IHb|a IHa|lo hi cs|g a IHa| | |];
  intros s k Hk; cbn [rmatch].
- apply Hk, rest_of_refl.
- destruct (st_rest s) as [|c rest'] eqn:E; trivial.
  destruct (in_class U ic cs c); trivial.
  apply Hk. cbn [st_rest]. rewrite ?E. apply rest_of_tail, rest_of_refl.
- apply IHa. intros s' Hs'. apply IHb. intros s'' Hs''.
  apply Hk. exact (rest_of_trans _ _ _ Hs'' Hs').
- rewrite (IHa s k Hk). now apply IHb.
- rewrite (IHa s k Hk). apply Hk, rest_of_refl.
- now apply rep_greedy_fails.
- apply IHa. intros s' Hs'. apply Hk. exact Hs'.
- destruct (at_word_boundary U s); trivial. apply Hk, rest_of_refl.
- destruct (st_pos s); trivial. apply Hk, rest_of_refl.
- destruct (st_rest s) as [|c [|d l]] eqn:E; trivial.
  + apply Hk. rewrite E. apply rest_of_refl.
  + destruct (c =? 10)%N; trivial. apply Hk. rewrite E. apply rest_of_refl.
Qed.

Lemma no_digit_rest (a b : pystr) : rest_of a b -> no_digit U b = true -> no_digit U a = true.
Proof.
intros [pre ->]. unfold no_digit. rewrite forallb_app, andb_true_iff. tauto.
Qed.

Lemma digit_class (cs : cclass) (c : N) :
forallb is_CDig cs = true -> is_decimal U c = false -> in_class U ic cs c = false.
Proof.
intros Hcs Hc. unfold in_class.
induction cs as [|it cs IH]; simpl in *; trivial.
apply andb_true_iff in Hcs. destruct Hcs as [Hit Hcs].
destruct it; try discriminate. simpl. rewrite Hc. simpl. auto.
Qed.

(** A pattern that needs a digit does not match in a text without one. *)
Lemma rmatch_needs_digit (A : Type) (r : regex) :
needs_digit r = true ->
forall (s : mstate) (k : mstate -> option A),
  no_digit U (st_rest s) = true -> rmatch U ic r s k = None.
Proof.
induction r as [|cs|a IHa b IHb|a IHa b IHb|a IHa|lo hi cs|g a IHa| | |];
  cbn [needs_digit]; intros Hn s k Hs; try discriminate; cbn [rmatch].
- destruct (st_rest s) as [|c rest'] eqn:E; trivial.
  simpl in Hs. apply andb_true_iff in Hs. destruct Hs as [Hc _].
  apply negb_true_iff in Hc. now rewrite (digit_class cs c Hn Hc).
- apply orb_true_iff in Hn. destruct Hn as [Hn|Hn].
  + now apply IHa.
  + apply rmatch_fails. intros s' Hs'. apply IHb; trivial.
    exact (no_digit_rest _ _ Hs' Hs).
- apply andb_true_iff in Hn. destruct Hn as [Ha Hb].
  rewrite (IHa Ha s k Hs). now apply IHb.
- apply andb_true_iff in Hn. destruct Hn as [Hlo Hcs].
  apply Nat.ltb_lt in Hlo. destruct lo as [|lo]; [lia|].
  destruct (st_rest s) as [|c rest'] eqn:E; trivial.
  cbn [rep_greedy].
  simpl in Hs. apply andb_true_iff in Hs. destruct Hs as [Hc _].
  apply negb_true_iff in Hc. rewrite (digit_class cs c Hcs Hc).
  now rewrite andb_false_r.
- now apply IHa.
Qed.

Lemma finditer_needs_digit (r : regex) (rest : pystr) :
needs_digit r = true -> no_digit U rest = true ->
forall prev pos skip, finditer_from U ic r prev rest pos skip = [].
Proof.
intros Hn. induction rest as [|c rest IH]; intros Hs prev pos skip.
- destruct skip; cbn [finditer_from]; trivial.
  unfold match_at. now rewrite rmatch_needs_digit.
- assert (Hs' : no_digit U rest = true).
  { simpl in Hs. apply andb_true_iff in Hs. tauto. }
  destruct skip; cbn [finditer_from]; [|now apply IH].
  unfold match_at. rewrite rmatch_needs_digit; trivial. now apply IH.
Qed.
End NoDigit.

Lemma squeeze_forallb (P : N -> bool) (s : pystr) : forall b,
  P 32%N = true -> forallb P s = true -> forallb P (squeeze b s) = true.
Proof.
  induction s as [|c s IH]; intros b H32; simpl; trivial.
  rewrite andb_true_iff; intros [Hc Hs].
  destruct (blank c); destruct b; simpl; rewrite ?H32, ?Hc; simpl; auto.
Qed.

Lemma trimnl_forallb (P : N -> bool) (s : pystr) : forall b,
  P 10%N = true -> forallb P s = true -> forallb P (trimnl b s) = true.
Proof.
  induction s as [|c s IH]; intros b H10; trivial.
  cbn [forallb]. rewrite andb_true_iff; intros [Hc Hs].
  cbn [trimnl].
  destruct b; destruct (is_space c); cbn [andb];
    try destruct (nl_in_run (c :: s)); cbn [forallb]; rewrite ?H10, ?Hc; simpl; auto.
Qed.

Lemma replace_one_cases (c : N) :
  replace_one c = c \/ replace_one c = 32%N \/ replace_one c = 45%N.
Proof.
  unfold replace_one.
  destruct (c =? 160)%N; auto. destruct (c =? 8211)%N; auto.
  destruct (c =? 8212)%N; auto. destruct (c =? 8210)%N; auto.
Qed.

Lemma normalize_no_digit (U : unicode) (T : pystr) :
  no_digit U T = true -> no_digit U (_normalize_text U T) = true.
Proof.
  intros H. rewrite normalize_text_eq, strip_rstrip. unfold no_digit in *.
  apply rstrip_forallb, lstrip_forallb.
  apply trimnl_forallb; [reflexivity|].
  apply squeeze_forallb; [reflexivity|].
  rewrite replace_all_map. rewrite forallb_forall in *.
  intros c Hc. apply in_map_iff in Hc. destruct Hc as [x [<- Hx]].
  destruct (replace_one_cases x) as [->|[->| ->]]; auto.
Qed.

(** No date is made up: every alternative of the date pattern needs a
    decimal digit, so a text without one has no match of the pattern, no
    date in any list and an empty timeline. *)
Theorem text_without_digit_has_no_date (U : unicode) (T : pystr) (w : world) :
  no_digit U T = true ->
  re_finditer U true date_pattern (_normalize_text U T) = [] /\
  fst (extract_and_classify_dates U T w) = empty_dates /\
  fst (generate_case_timeline U T w) = [].
Proof.
  intros H.
  assert (Hm : re_finditer U true date_pattern (_normalize_text U T) = []).
  { unfold re_finditer. apply finditer_needs_digit; [reflexivity|].
    now apply normalize_no_digit. }
  assert (Hu : unique_sorted_dates U T = []).
  { unfold unique_sorted_dates, found_dates. now rewrite Hm. }
  split; [exact Hm|]. split.
  - rewrite extract_eq. cbn [fst]. now rewrite Hu.
  - rewrite timeline_eq. cbn [fst]. now rewrite Hu.
Qed.

Lemma text_without_digit_has_no_date_adjourned :
  fst (extract_and_classify_dates ascii_only adjourned_text (frozen epoch)) = empty_dates /\
  fst (generate_case_timeline ascii_only adjourned_text (frozen epoch)) = [].
Proof.
  exact (proj2 (text_without_digit_has_no_date ascii_only adjourned_text (frozen epoch)
                  eq_refl)).
Defined.

(** ** The tips *)

Lemma lstrip_chars_head (chars s : pystr) :
  match lstrip_chars chars s with
  | c :: _ => mem_char c chars = false
  | [] => True
  end.
Proof.
  induction s as [|c s IH]; simpl; trivial.
  destruct (mem_char c chars) eqn:E; trivial.
Qed.

Lemma lstrip_chars_rest (chars s : pystr) : exists pre, s = pre ++ lstrip_chars chars s.
Proof.
  induction s as [|c s [pre IH]]; simpl; [now exists []|].
  destruct (mem_char c chars).
  - exists (c :: pre). simpl. now f_equal.
  - now exists [].
Qed.

Lemma lstrip_chars_In (chars s : pystr) (c : N) :
  In c (lstrip_chars chars s) -> In c s.
Proof.
  destruct (lstrip_chars_rest chars s) as [pre E]. intros H.
  rewrite E. apply in_or_app. now right.
Qed.

Lemma strip_chars_In (chars s : pystr) (c : N) :
  In c (strip_chars chars s) -> In c s.
Proof.
  unfold strip_chars. intros H. apply in_rev in H.
  apply lstrip_chars_In in H. apply in_rev in H. now apply lstrip_chars_In in H.
Qed.

(** After [strip(chars)], neither end of the string is one of [chars]. *)
Lemma strip_chars_ends (chars s : pystr) :
  (forall c rest, strip_chars chars s = c :: rest -> mem_char c chars = false) /\
  (forall pre c, strip_chars chars s = pre ++ [c] -> mem_char c chars = false).
Proof.
  unfold strip_chars. split.
  - intros c rest E.
    set (t := lstrip_chars chars s) in *.
    pose proof (lstrip_chars_head chars s) as Hh. fold t in Hh.
    destruct (lstrip_chars_rest chars (rev t)) as [pre Hp].
    apply (f_equal (@rev N)) in Hp. rewrite rev_involutive, rev_app_distr, E in Hp.
    rewrite Hp in Hh. exact Hh.
  - intros pre c E.
    pose proof (lstrip_chars_head chars (rev (lstrip_chars chars s))) as Hh.
    apply (f_equal (@rev N)) in E. rewrite rev_involutive, rev_app_distr in E.
    cbn [rev app] in E. now rewrite E in Hh.
Qed.

(** The pieces of a split at line breaks hold no line break. *)
Lemma split_lines_no_break (s : pystr) : forall cur piece,
  ~ In 10%N cur -> In piece (split_on [10%N] s 0 cur) -> ~ In 10%N piece.
Proof.
  induction s as [|c s IH]; intros cur piece Hcur; cbn [split_on].
  - intros [<-|[]]. now rewrite <- in_rev.
  - cbn [starts_with length Nat.sub]. rewrite andb_true_r.
    destruct (10 =? c)%N eqn:E.
    + intros [<-|H]; [now rewrite <- in_rev|]. apply (IH [] piece); auto.
    + apply IH. intros [->|H]; [|contradiction].
      now rewrite N.eqb_refl in E.
Qed.

Lemma firstn_In (A : Type) (n : nat) (l : list A) (x : A) : In x (firstn n l) -> In x l.
Proof.
  intros H. rewrite <- (firstn_skipn n l). apply in_or_app. now left.
Qed.

Lemma split_on_not_nil (sep s : pystr) : forall skip cur, split_on sep s skip cur <> [].
Proof.
  induction s as [|c s IH]; intros skip cur; cbn [split_on]; [discriminate|].
  destruct skip; [|apply IH].
  destruct (starts_with sep (c :: s)); [discriminate|apply IH].
Qed.

(** Splitting at the line breaks and joining with line breaks gives the
    text back. *)
Lemma join_split_lines (s : pystr) : forall cur,
  join_lines (split_on [10%N] s 0 cur) = rev cur ++ s.
Proof.
  induction s as [|c s IH]; intros cur; cbn [split_on].
  - cbn [join_lines]. now rewrite app_nil_r.
  - cbn [starts_with length Nat.sub]. rewrite andb_true_r.
    destruct (10 =? c)%N eqn:E.
    + apply N.eqb_eq in E. subst c.
      pose proof (split_on_not_nil [10%N] s 0 []) as Hn.
      pose proof (IH []) as H. cbn [rev app] in H.
      destruct (split_on [10%N] s 0 []) as [|l rest]; [contradiction|].
      change (join_lines (rev cur :: l :: rest))
        with (rev cur ++ 10%N :: join_lines (l :: rest)).
      now rewrite H.
    + rewrite IH. cbn [rev]. now rewrite <- app_assoc.
Qed.

(** The tips are at most five, and the function always returns a list.
    When the model answers, the tips are made from the lines of the answer,
    in their order: the answer without the whitespace at its ends is cut at
    its line breaks, the blank lines are left out, the bullets, hyphens and
    spaces at the ends of each line are taken off, and the first five are
    kept; so no tip holds a line break or starts or ends with one of these
    characters.  An empty or missing answer gives the single tip
    [No tips generated.]; any exception, of the model or of the look-up of
    the next hearing, gives the single entry [Failed to generate tips]
    with its message. *)
Theorem tips_are_at_most_five_trimmed_lines (sv : services) (summary_text : pystr)
    (md : metadata) :
  let tips := Service.generate_case_tips sv summary_text md in
  length tips <= 5 /\
  (forall e, Service.stage_info md = Throws e -> tips = Service.tips_failed e) /\
  (forall stage e,
     Service.stage_info md = Returns stage ->
     generate_content sv (Service.tips_prompt stage summary_text) = Throws e ->
     tips = Service.tips_failed e) /\
  (forall stage text,
     Service.stage_info md = Returns stage ->
     generate_content sv (Service.tips_prompt stage summary_text) = Returns text ->
     (nonempty (match text with Some t => t | None => [] end) = false ->
      tips = [s2u "No tips generated."]) /\
     (forall answer, text = Some answer -> nonempty answer = true ->
        exists lines,
          join_lines lines = strip answer /\
          (forall line, In line lines -> ~ In 10%N line) /\
          tips = firstn 5 (map (strip_chars Service.bullets)
                             (filter (fun line => nonempty (strip line)) lines))) /\
     forall tip, In tip tips ->
       ~ In 10%N tip /\
       (forall c rest, tip = c :: rest -> mem_char c Service.bullets = false) /\
       (forall pre c, tip = pre ++ [c] -> mem_char c Service.bullets = false)) /\
  Service.generate_case_tips (answering (Some bulleted_reply)) [] no_metadata =
    [s2u "Preserve the call records."; s2u "Brief the witness"; []].
Proof.
  cbv zeta.
  assert (Hex : Service.generate_case_tips (answering (Some bulleted_reply)) [] no_metadata =
                [s2u "Preserve the call records."; s2u "Brief the witness"; []])
    by (vm_compute; reflexivity).
  revert Hex. generalize (Service.generate_case_tips (answering (Some bulleted_reply)) []
                            no_metadata).
  intros ex Hex.
  unfold Service.generate_case_tips.
  destruct (Service.stage_info md) as [stage|e0] eqn:Es.
  2:{ split; [simpl; lia|]. split; [now intros e [= ->]|].
      split; [intros; discriminate|]. split; [intros; discriminate|exact Hex]. }
  destruct (generate_content sv (Service.tips_prompt stage summary_text))
    as [text|e0] eqn:Eg.
  2:{ split; [simpl; lia|]. split; [discriminate|].
      split; [intros st e [= <-] He; rewrite Eg in He; now injection He as ->|].
      split; [|exact Hex].
      intros st text [= <-] He. rewrite Eg in He. discriminate. }
  split; [rewrite length_firstn; lia|]. split; [discriminate|].
  split; [intros st e [= <-] He; rewrite Eg in He; discriminate|].
  split; [|exact Hex].
  intros st text' [= <-] He. rewrite Eg in He. injection He as <-.
  split; [|split].
  - intros Hn. destruct text as [[|c t]|]; [| discriminate Hn |]; vm_compute; reflexivity.
  - intros answer -> Hne. destruct answer as [|c t]; [discriminate|].
    exists (py_split [10%N] (strip (c :: t))).
    split; [unfold py_split; now rewrite join_split_lines|].
    split; [|reflexivity].
    intros line Hline. unfold py_split in Hline.
    apply (split_lines_no_break _ [] line) in Hline; auto.
  - intros tip Hin. apply firstn_In in Hin.
    apply in_map_iff in Hin. destruct Hin as [line [<- Hline]].
    apply filter_In in Hline. destruct Hline as [Hline Hne].
    assert (Hnb : ~ In 10%N line).
    { unfold py_split in Hline. apply (split_lines_no_break _ [] line) in Hline; auto. }
    split; [intros H; apply Hnb; exact (strip_chars_In _ _ _ H)|].
    destruct (strip_chars_ends Service.bullets line) as [H1 H2].
    split; [exact H1|exact H2].
Qed.

Lemma earliest_first (l : list date) (R : date) :
  StronglySorted date_lt l ->
  match filter (fun d => date_leb R d) l with
  | [] => True
  | d :: rest => date_le R d /\ Forall (date_lt d) rest
  end.
Proof.
  intros Hs.
  assert (Hf : StronglySorted date_lt (filter (fun d => date_leb R d) l)).
  { induction Hs as [|x l Hs IH Hx]; simpl; [constructor|].
    destruct (date_leb R x); trivial. constructor; trivial.
    rewrite Forall_forall in *. intros y Hy. apply filter_In in Hy. now apply Hx. }
  destruct (filter (fun d => date_leb R d) l) as [|d rest] eqn:E; trivial.
  split.
  - assert (H : In d (filter (fun d => date_leb R d) l)) by (rewrite E; now left).
    apply filter_In in H. apply H.
  - now inversion Hf.
Qed.

(** On the metadata that [generate_structured_summary] builds, the look-up
    of the next hearing never fails, and the date named in the prompt is
    the earliest date of the text on or after the reference date: every
    other upcoming date is later.  With no upcoming date the prompt names
    none. *)
Theorem prompt_names_the_earliest_upcoming_date (U : unicode) (T : pystr) (w : world) :
  let R := wall_clock w (reads w) in
  match items (upcoming (fst (extract_and_classify_dates U T w))) with
  | [] => Service.stage_info (metadata_of U T w) = Returns []
  | next_hearing :: rest =>
      Service.stage_info (metadata_of U T w) =
        Returns (s2u "The next upcoming date in the case is " ++ next_hearing ++ s2u ".") /\
      exists d, _parse_one_date U next_hearing = Some d /\ date_le R d /\
        forall s, In s rest -> exists d', _parse_one_date U s = Some d' /\ date_lt d d'
  end.
Proof.
  cbv zeta. unfold Service.stage_info, metadata_of, upcoming_count. cbn [md_dates].
  rewrite extract_eq. cbn [fst upcoming count items].
  pose proof (earliest_first (unique_sorted_dates U T) (wall_clock w (reads w))
                (unique_sorted_lt U T)) as H.
  assert (Hv : forall d, In d (filter (fun d => date_leb (wall_clock w (reads w)) d)
                                  (unique_sorted_dates U T)) -> valid_date d = true).
  { intros d Hd. apply filter_In in Hd. apply (unique_sorted_valid U T), Hd. }
  destruct (filter _ (unique_sorted_dates U T)) as [|d rest]; [reflexivity|].
  destruct H as [H1 H2]. cbn [length map Nat.eqb negb]. split; [reflexivity|].
  exists d. split; [apply parse_pretty, Hv; now left|]. split; [exact H1|].
  intros s Hs. apply in_map_iff in Hs. destruct Hs as [d' [<- Hd']].
  exists d'. split; [apply parse_pretty, Hv; now right|].
  rewrite Forall_forall in H2. now apply H2.
Qed.

(** ** The summary and its exception *)

Lemma summarize_not_empty (sv : services) (T s : pystr) :
  Service.summarize_with_gemini sv T = Ok s -> s <> [].
Proof.
  unfold Service.summarize_with_gemini.
  destruct (generate_content sv _) as [[[|c t]|]|m]; intros [= <-]; discriminate.
Qed.

Lemma summarize_raises (sv : services) (T : pystr) (e : error) :
  Service.summarize_with_gemini sv T = Raise e ->
  exists m, e = HTTPException 500 (s2u "Gemini summarization failed: " ++ m) /\
            generate_content sv (Service.system_prompt ++ [10; 10]%N ++ s2u "---"
                                   ++ [10%N] ++ T) = Throws m.
Proof.
  unfold Service.summarize_with_gemini.
  destruct (generate_content sv _) as [[[|c t]|]|m]; try discriminate.
  intros [= <-]. now exists m.
Qed.

(** The combined output with its exception, in terms of its parts. *)
Lemma service_summary_eq (U : unicode) (sv : services) (T : pystr) (w : world) :
  Service.generate_structured_summary U sv T w =
  match Service.summarize_with_gemini sv T with
  | Raise e => (Raise e, w)
  | Ok narrative =>
      (Ok (summary_of U (hosted sv) T narrative
             (fst (extract_and_classify_dates U T w))
             (fst (generate_case_timeline U T
                     {| wall_clock := wall_clock w; reads := S (reads w) |}))),
       {| wall_clock := wall_clock w; reads := S (S (S (reads w))) |})
  end.
Proof.
  unfold Service.generate_structured_summary, summary_of, hosted.
  cbn [generate_case_tips].
  destruct (Service.summarize_with_gemini sv T) as [narrative|e]; [|reflexivity].
  rewrite extract_eq. cbn [fst].
  destruct (extract_sections_invoked U T) as [sections section_count].
  rewrite timeline_eq. reflexivity.
Qed.

Lemma summary_of_markdown (U : unicode) (g : gemini) (T narrative : pystr)
    (E : dates_info) (TL : list event) :
  summary_markdown (summary_of U g T narrative E TL) = narrative.
Proof. unfold summary_of. now destruct (extract_sections_invoked U T). Qed.

Lemma service_summary_ok (U : unicode) (sv : services) (T : pystr) (w w' : world)
    (s : summary) :
  Service.generate_structured_summary U sv T w = (Ok s, w') ->
  summary_markdown s <> [] /\ reads w' = 3 + reads w /\ wall_clock w' = wall_clock w.
Proof.
  rewrite service_summary_eq.
  destruct (Service.summarize_with_gemini sv T) as [narrative|e] eqn:Es; [|discriminate].
  intros H. apply (f_equal snd) in H as Hw. cbn [snd] in Hw. subst w'.
  apply (f_equal (fun p => match fst p with
                           | Ok x => summary_markdown x
                           | Raise _ => []
                           end)) in H.
  cbn [fst] in H. rewrite summary_of_markdown in H. rewrite <- H.
  split; [exact (summarize_not_empty sv T narrative Es)|]. split; reflexivity.
Qed.

Lemma service_summary_raise (U : unicode) (sv : services) (T : pystr) (w w' : world)
    (e : error) :
  Service.generate_structured_summary U sv T w = (Raise e, w') ->
  w' = w /\ Service.summarize_with_gemini sv T = Raise e.
Proof.
  rewrite service_summary_eq.
  destruct (Service.summarize_with_gemini sv T) as [narrative|e0]; [discriminate|].
  now intros [= <- <-].
Qed.

(** The narrative is never empty: an empty or missing answer of the model
    is replaced by [Summary generation failed.]; the only exception is the
    [HTTPException] 500 that wraps an exception of the model, and then
    nothing else is done: the clock is not read.  Without the exception this
    is the combined output of the core, run on the hosted model. *)
Theorem summary_is_never_empty (U : unicode) (sv : services) (T : pystr) (w : world) :
  (forall s, Service.summarize_with_gemini sv T = Ok s -> s <> []) /\
  (forall s w', Service.generate_structured_summary U sv T w = (Ok s, w') ->
     summary_markdown s <> [] /\ reads w' = 3 + reads w) /\
  (forall e w', Service.generate_structured_summary U sv T w = (Raise e, w') ->
     w' = w /\
     exists m, e = HTTPException 500 (s2u "Gemini summarization failed: " ++ m) /\
               generate_content sv (Service.system_prompt ++ [10; 10]%N ++ s2u "---"
                                      ++ [10%N] ++ T) = Throws m) /\
  generate_structured_summary U (hosted sv) T w =
    (without_exception (fst (Service.generate_structured_summary U sv T w)),
     snd (Service.generate_structured_summary U sv T w)).
Proof.
  split; [exact (summarize_not_empty sv T)|]. split; [|split].
  - intros s w' H. destruct (service_summary_ok U sv T w w' s H) as [H1 [H2 _]]. auto.
  - intros e w' H. destruct (service_summary_raise U sv T w w' e H) as [-> He].
    split; trivial. exact (summarize_raises sv T e He).
  - unfold Service.generate_structured_summary, generate_structured_summary, hosted.
    cbn [summarize_with_gemini generate_case_tips].
    destruct (Service.summarize_with_gemini sv T) as [narrative|e0]; [|reflexivity].
    unfold bind at 1. rewrite extract_eq.
    destruct (extract_sections_invoked U T) as [sections section_count].
    unfold bind. rewrite timeline_eq. reflexivity.
Qed.

(** ** The bearer token *)

Lemma split_on_skip (sep s : pystr) : forall n cur,
  split_on sep s n cur = split_on sep (skipn n s) 0 cur.
Proof.
  induction s as [|c s IH]; intros n cur.
  - destruct n; reflexivity.
  - destruct n as [|n]; [reflexivity|]. cbn [split_on skipn]. apply IH.
Qed.

(** The first piece of a split is the text up to the first separator. *)
Lemma split_on_first (sep s : pystr) : forall cur,
  exists piece pieces rest,
    split_on sep s 0 cur = (rev cur ++ piece) :: pieces /\ s = piece ++ rest.
Proof.
  induction s as [|c s IH]; intros cur.
  - exists [], [], []. cbn [split_on]. now rewrite app_nil_r.
  - cbn [split_on]. destruct (starts_with sep (c :: s)).
    + exists [], (split_on sep s (length sep - 1) []), (c :: s).
      now rewrite app_nil_r.
    + destruct (IH (c :: cur)) as [piece [pieces [rest [H1 H2]]]].
      exists (c :: piece), pieces, rest. rewrite H1. cbn [rev app].
      rewrite <- app_assoc. cbn [app]. split; [reflexivity|]. now rewrite H2.
Qed.

Lemma split_on_no_sep (sep s : pystr) : forall cur,
  contains sep s = false -> split_on sep s 0 cur = [rev cur ++ s].
Proof.
  induction s as [|c s IH]; intros cur H.
  - cbn [split_on]. now rewrite app_nil_r.
  - cbn [contains] in H. apply orb_false_iff in H. destruct H as [H1 H2].
    cbn [split_on]. rewrite H1, (IH (c :: cur) H2). cbn [rev].
    now rewrite <- app_assoc.
Qed.

Lemma bearer_token_of_header (rest : pystr) :
  bearer_token (s2u "Bearer " ++ rest) = nth_error (split_on (s2u "Bearer ") rest 0 []) 0.
Proof.
  unfold bearer_token, py_split.
  change (s2u "Bearer " ++ rest) with (66%N :: s2u "earer " ++ rest).
  cbn [split_on].
  assert (Hs : starts_with (s2u "Bearer ") (66%N :: s2u "earer " ++ rest) = true)
    by reflexivity.
  rewrite Hs. cbn [nth_error].
  rewrite split_on_skip. reflexivity.
Qed.

Lemma starts_with_app (p s : pystr) :
  starts_with p s = true -> exists rest, s = p ++ rest.
Proof.
  revert s. induction p as [|x p IH]; intros s H; [now exists s|].
  destruct s as [|y s]; [discriminate|]. cbn [starts_with] in H.
  apply andb_true_iff in H. destruct H as [Hx Hp]. apply N.eqb_eq in Hx. subst y.
  destruct (IH s Hp) as [rest ->]. now exists rest.
Qed.

Lemma bearer_token_prefix (a : pystr) :
  starts_with (s2u "Bearer ") a = true ->
  exists token rest, bearer_token a = Some token /\ a = s2u "Bearer " ++ token ++ rest.
Proof.
  intros Ha. destruct (starts_with_app _ _ Ha) as [rest ->].
  rewrite bearer_token_of_header.
  destruct (split_on_first (s2u "Bearer ") rest []) as [piece [pieces [tl [H1 H2]]]].
  rewrite H1. cbn [nth_error rev app]. exists piece, tl. now rewrite H2.
Qed.

(** The back end verifies the token the front end sent: the header
    [Bearer <token>] gives the token back, as long as [Bearer ] does not
    occur in the token.  In general the token taken from a header that
    starts with [Bearer ] is what follows, up to the next [Bearer ]; the
    index 1 always exists. *)
Theorem bearer_token_round_trip (id_token : pystr) :
  contains (s2u "Bearer ") id_token = false ->
  bearer_token (authorization_header id_token) = Some id_token /\
  starts_with (s2u "Bearer ") (authorization_header id_token) = true /\
  (forall a, starts_with (s2u "Bearer ") a = true ->
     exists token rest, bearer_token a = Some token /\
                        a = s2u "Bearer " ++ token ++ rest) /\
  bearer_token (s2u "Bearer abcBearer def") = Some (s2u "abc").
Proof.
  intros H. split; [|split; [reflexivity|split; [|reflexivity]]].
  - unfold authorization_header. rewrite bearer_token_of_header.
    now rewrite (split_on_no_sep _ _ [] H).
  - exact bearer_token_prefix.
Qed.

Lemma bearer_token_round_trip_jwt :
  bearer_token (authorization_header (s2u "eyJhbGciOi.eyJ1aWQiOi.c2lnbmF0dXJl")) =
    Some (s2u "eyJhbGciOi.eyJ1aWQiOi.c2lnbmF0dXJl").
Proof.
  exact (proj1 (bearer_token_round_trip (s2u "eyJhbGciOi.eyJ1aWQiOi.c2lnbmF0dXJl") eq_refl)).
Defined.

(** ** The upload *)

(** Nothing is done for a request without a verified token: with no
    header, with a header that does not start with [Bearer ], the answer is
    the [HTTPException] 401, with a token that the verifier refuses it is
    the 403, and in all three cases no clock is read, no file written and
    no document stored.  With a verified token the files are processed for
    the [uid] of the token. *)
Theorem upload_requires_verified_token (U : unicode) (sv : services)
    (files : list upload_file) (client_name file_type : pystr) (s : server) :
  let unauthorized :=
    Raise (HTTPException 401 (s2u "Missing or invalid Authorization header")) in
  let forbidden := Raise (HTTPException 403 (s2u "Invalid or expired Firebase token")) in
  upload_and_summarize U sv files client_name file_type None s = (unauthorized, s) /\
  (forall a, starts_with (s2u "Bearer ") a = false ->
     upload_and_summarize U sv files client_name file_type (Some a) s = (unauthorized, s)) /\
  (forall a, starts_with (s2u "Bearer ") a = true ->
     exists token,
       bearer_token a = Some token /\
       (forall e, verify_id_token sv token = Throws e ->
          upload_and_summarize U sv files client_name file_type (Some a) s
            = (forbidden, s)) /\
       (forall u, verify_id_token sv token = Returns u ->
          upload_and_summarize U sv files client_name file_type (Some a) s
            = process_files U sv (uid u) client_name file_type files [] s)) /\
  (forall authorization summaries s',
     upload_and_summarize U sv files client_name file_type authorization s
       = (Ok summaries, s') ->
     exists a token u,
       authorization = Some a /\ bearer_token a = Some token /\
       verify_id_token sv token = Returns u).
Proof.
  cbv zeta. split; [reflexivity|]. split; [|split].
  - intros a Ha. unfold upload_and_summarize. rewrite Ha.
    now rewrite andb_false_r.
  - intros a Ha.
    destruct (bearer_token_prefix a Ha) as [token [rest [Ht Hr]]].
    exists token. split; [exact Ht|].
    assert (Hne : nonempty a = true) by (rewrite Hr; reflexivity).
    unfold upload_and_summarize, verify_firebase_token. rewrite Ha, Hne, Ht. cbn [andb].
    split; intros x Hx; now rewrite Hx.
  - intros [a|] summaries s'; [|discriminate].
    unfold upload_and_summarize, verify_firebase_token.
    destruct (nonempty a && starts_with (s2u "Bearer ") a); [|discriminate].
    destruct (bearer_token a) as [token|] eqn:Eb; [|discriminate].
    destruct (verify_id_token sv token) as [u|e] eqn:Ev; [|discriminate].
    intros _. now exists a, token, u.
Qed.

Lemma read_file_head (p : nat) (b : bytes) (fs : temp_files) :
  read_file p ((p, b) :: fs) = Some b.
Proof. cbn [read_file]. now rewrite Nat.eqb_refl. Qed.

Lemma remove_fresh (p : nat) (b : bytes) (fs : temp_files) :
  ~ In p (map fst fs) -> remove_file p ((p, b) :: fs) = fs.
Proof.
  intros H. unfold remove_file. cbn [filter fst]. rewrite Nat.eqb_refl. cbn [negb].
  induction fs as [|[q c] fs IH]; cbn [filter fst]; trivial.
  destruct (Nat.eqb p q) eqn:E.
  - apply Nat.eqb_eq in E. subst q. exfalso. apply H. now left.
  - cbn [negb]. f_equal. apply IH. intros Hin. apply H. now right.
Qed.

Lemma list_max_fresh (names : list nat) : ~ In (S (list_max names)) names.
Proof.
  intros H. pose proof (proj1 (list_max_le names (list_max names)) (Nat.le_refl _)) as Hm.
  rewrite Forall_forall in Hm. specialize (Hm _ H). lia.
Qed.

(** One round of the loop.  The file is skipped, or summarised and stored,
    or it ends the request, and then nothing is stored for it.  The
    temporary file is gone at the end, unless the upload could not be read
    or written: then it is left behind. *)
Lemma process_file_spec (U : unicode) (sv : services)
    (user_id client_name file_type : pystr) (file : upload_file)
    (summaries : list returned) (s : server) :
  fresh_names sv ->
  let r := fst (process_file U sv user_id client_name file_type file summaries s) in
  let s' := snd (process_file U sv user_id client_name file_type file summaries s) in
  wall_clock (sv_clock s') = wall_clock (sv_clock s) /\
  ((r = Ok summaries /\ sv_files s' = sv_files s /\ sv_summaries s' = sv_summaries s /\
    reads (sv_clock s') = reads (sv_clock s)) \/
   (exists x, r = Ok (summaries ++ [x]) /\ ret_filename x = filename file /\
              sv_files s' = sv_files s /\
              sv_summaries s' = sv_summaries s ++ [doc_of user_id client_name file_type x] /\
              reads (sv_clock s') = 3 + reads (sv_clock s)) \/
   (exists e, r = Raise e /\ sv_files s' = sv_files s /\
              sv_summaries s' = sv_summaries s /\
              reads (sv_clock s') = reads (sv_clock s)) \/
   (exists e doc, r = Raise (Exception e) /\ sv_files s' = sv_files s /\
                  sv_summaries s' = sv_summaries s /\
                  reads (sv_clock s') = 3 + reads (sv_clock s) /\
                  store_set sv (sv_summaries s) doc = Throws e) \/
   (exists e left, r = Raise (Exception e) /\ sv_files s' = left :: sv_files s /\
                   sv_summaries s' = sv_summaries s /\
                   reads (sv_clock s') = reads (sv_clock s) /\
                   ~ uploaded sv file)).
Proof.
  intros Hfresh. cbv zeta. unfold process_file.
  set (p := temp_name sv (map fst (sv_files s))).
  assert (Hp : ~ In p (map fst (sv_files s))) by apply Hfresh.
  destruct (file_read file) as [data|e] eqn:Er.
  2:{ cbn [fst snd sv_files sv_clock sv_summaries]. split; trivial.
      right. right. right. right. exists e, (p, []).
      repeat split. intros [d [Hd _]]. rewrite Er in Hd. discriminate. }
  destruct (temp_write sv data) as [|partial e] eqn:Ew.
  2:{ cbn [fst snd sv_files sv_clock sv_summaries]. split; trivial.
      right. right. right. right. exists e, (p, partial).
      repeat split. intros [d [Hd Hw]]. rewrite Er in Hd. injection Hd as <-.
      rewrite Ew in Hw. discriminate. }
  cbn [sv_files sv_clock sv_summaries].
  unfold extract_text_from_pdf. rewrite read_file_head.
  assert (Hex : path_exists p ((p, data) :: sv_files s) = true).
  { unfold path_exists. now rewrite read_file_head. }
  destruct (open_pdf sv (Some data)) as [pages|e].
  2:{ cbn [sv_files sv_clock sv_summaries fst snd]. rewrite Hex.
      cbn [sv_files sv_clock sv_summaries]. rewrite (remove_fresh _ _ _ Hp).
      split; trivial. right. right. left. eauto. }
  destruct (concat pages) as [|c0 t0].
  { cbn [sv_files sv_clock sv_summaries fst snd]. rewrite Hex.
    cbn [sv_files sv_clock sv_summaries]. rewrite (remove_fresh _ _ _ Hp).
    split; trivial. right. right. left. eauto. }
  destruct (strip (c0 :: t0)) as [|c t].
  { cbn [sv_files sv_clock sv_summaries fst snd]. rewrite Hex.
    cbn [sv_files sv_clock sv_summaries]. rewrite (remove_fresh _ _ _ Hp).
    split; trivial. now left. }
  destruct (Service.generate_structured_summary U sv (c :: t) (sv_clock s))
    as [[out|e] w'] eqn:Eg.
  - destruct (service_summary_ok U sv _ _ _ _ Eg) as [_ [Hr Hw]].
    match goal with
    | |- context [store_set sv ?docs ?doc] => destruct (store_set sv docs doc) eqn:Es
    end.
    + cbn [sv_files sv_clock sv_summaries fst snd]. rewrite Hex.
      cbn [sv_files sv_clock sv_summaries]. rewrite (remove_fresh _ _ _ Hp).
      split; [exact Hw|].
      right. left. eexists. split; [reflexivity|]. cbn [ret_filename]. split; trivial.
      split; trivial. split; [reflexivity|exact Hr].
    + cbn [sv_files sv_clock sv_summaries fst snd]. rewrite Hex.
      cbn [sv_files sv_clock sv_summaries]. rewrite (remove_fresh _ _ _ Hp).
      split; [exact Hw|].
      right. right. right. left. do 2 eexists.
      split; [reflexivity|]. split; trivial. split; trivial. split; [exact Hr|exact Es].
  - destruct (service_summary_raise U sv _ _ _ _ Eg) as [-> _].
    cbn [sv_files sv_clock sv_summaries fst snd]. rewrite Hex.
    cbn [sv_files sv_clock sv_summaries]. rewrite (remove_fresh _ _ _ Hp).
    split; trivial. right. right. left. eauto.
Qed.

Lemma subseq_nil_l (A : Type) (l : list A) : subseq [] l.
Proof. induction l; [apply subseq_nil|now apply subseq_skip]. Qed.

(** The loop: the documents stored are those of the entries collected, in
    order, whether the loop ends or an exception stops it; at most one
    temporary file is left behind, that of an upload that could not be
    read or written; and the clock is read three times for each entry, and
    three times more when the store refused the last document. *)
Lemma process_files_spec (U : unicode) (sv : services)
    (user_id client_name file_type : pystr) (files : list upload_file) :
  fresh_names sv ->
  forall (summaries : list returned) (s : server),
    let r := fst (process_files U sv user_id client_name file_type files summaries s) in
    let s' := snd (process_files U sv user_id client_name file_type files summaries s) in
    wall_clock (sv_clock s') = wall_clock (sv_clock s) /\
    exists processed left refused,
      sv_summaries s' =
        sv_summaries s ++ map (doc_of user_id client_name file_type) processed /\
      subseq (map ret_filename processed) (map filename files) /\
      sv_files s' = left ++ sv_files s /\ length left <= 1 /\
      reads (sv_clock s') = reads (sv_clock s) + 3 * (length processed + length refused) /\
      length refused <= 1 /\
      (forall out, r = Ok out -> out = summaries ++ processed /\ left = [] /\ refused = []) /\
      (left <> [] -> exists file, In file files /\ ~ uploaded sv file) /\
      (forall doc, In doc refused ->
         exists e docs, r = Raise (Exception e) /\ store_set sv docs doc = Throws e).
Proof.
  intros Hfresh. induction files as [|file files IH]; intros summaries s; cbv zeta.
  - cbn [process_files fst snd]. split; trivial.
    exists [], [], []. cbn [map length app]. rewrite !app_nil_r.
    split; trivial. split; [apply subseq_nil|]. split; trivial. split; [lia|].
    split; [lia|]. split; [lia|]. split; [now intros out [= <-]|].
    split; [now intros H|intros doc []].
  - cbn [process_files].
    pose proof (process_file_spec U sv user_id client_name file_type file summaries s
                  Hfresh) as H.
    cbv zeta in H.
    destruct (process_file U sv user_id client_name file_type file summaries s)
      as [r1 s1].
    cbn [fst snd] in H. destruct H as [Hw H].
    destruct H as [[-> [Hf [Hd Hr]]]
                  |[[x [-> [Hx [Hf [Hd Hr]]]]]
                  |[[e [-> [Hf [Hd Hr]]]]
                  |[[e [doc [-> [Hf [Hd [Hr Hs]]]]]]
                  |[e [left [-> [Hf [Hd [Hr Hu]]]]]]]]]].
    + specialize (IH summaries s1). cbv zeta in IH.
      destruct IH as [IHw [processed [left [refused
        [IH1 [IH2 [IH3 [IH4 [IH5 [IH6 [IH7 [IH8 IH9]]]]]]]]]]]].
      split; [congruence|].
      exists processed, left, refused. rewrite IH1, IH3, IH5, Hd, Hf, Hr.
      split; trivial. split; [cbn [map]; now apply subseq_skip|].
      split; trivial. split; trivial. split; trivial. split; trivial.
      split; [exact IH7|]. split; [|exact IH9].
      intros Hl. destruct (IH8 Hl) as [f [Hin Hno]]. exists f. split; [now right|trivial].
    + specialize (IH (summaries ++ [x]) s1). cbv zeta in IH.
      destruct IH as [IHw [processed [left [refused
        [IH1 [IH2 [IH3 [IH4 [IH5 [IH6 [IH7 [IH8 IH9]]]]]]]]]]]].
      split; [congruence|].
      exists (x :: processed), left, refused. rewrite IH1, IH3, IH5, Hd, Hf, Hr.
      cbn [map length]. rewrite <- app_assoc. cbn [app].
      split; trivial. split; [rewrite Hx; now apply subseq_keep|].
      split; trivial. split; trivial. split; [lia|]. split; trivial.
      split; [|split; [|exact IH9]].
      * intros out Hout. destruct (IH7 out Hout) as [-> [Hl Hrf]].
        rewrite <- app_assoc. auto.
      * intros Hl. destruct (IH8 Hl) as [f [Hin Hno]]. exists f. split; [now right|trivial].
    + cbn [fst snd]. split; trivial.
      exists [], [], []. cbn [map length app]. rewrite app_nil_r.
      split; trivial. split; [apply subseq_nil_l|]. split; trivial. split; [lia|].
      split; [lia|]. split; [lia|]. split; [discriminate|].
      split; [now intros H|intros d []].
    + cbn [fst snd]. split; trivial.
      exists [], [], [doc]. cbn [map length app]. rewrite app_nil_r.
      split; trivial. split; [apply subseq_nil_l|]. split; trivial. split; [lia|].
      split; [lia|]. split; [lia|]. split; [discriminate|].
      split; [now intros H|].
      intros d [<-|[]]. now exists e, (sv_summaries s).
    + cbn [fst snd]. split; trivial.
      exists [], [left], []. cbn [map length app]. rewrite app_nil_r.
      split; trivial. split; [apply subseq_nil_l|]. split; trivial. split; [lia|].
      split; [lia|]. split; [lia|]. split; [discriminate|].
      split; [|intros d []].
      intros _. exists file. split; [now left|exact Hu].
Qed.

Lemma process_files_app (U : unicode) (sv : services)
    (user_id client_name file_type : pystr) (files1 files2 : list upload_file) :
  forall summaries s,
    process_files U sv user_id client_name file_type (files1 ++ files2) summaries s =
    match process_files U sv user_id client_name file_type files1 summaries s with
    | (Ok summaries', s') =>
        process_files U sv user_id client_name file_type files2 summaries' s'
    | (Raise e, s') => (Raise e, s')
    end.
Proof.
  induction files1 as [|file files1 IH]; intros summaries s; [reflexivity|].
  cbn [app process_files].
  destruct (process_file U sv user_id client_name file_type file summaries s)
    as [[out|e] s1]; [apply IH|reflexivity].
Qed.

(** A request stores one document for each entry it collects: whether it
    ends with the response or with an exception, the collection is the old
    one followed by the documents of the entries collected, in order, each
    under the [uid] of the token with the summary, status, recommendations
    and metadata of its entry; the file names of the entries are file names
    of the request, in order; and the response, when there is one, is the
    list of these entries.  A response leaves no temporary file behind and
    has read the clock three times for each entry.  A request that ends
    with an exception leaves at most one temporary file behind, and only
    when an upload could not be read or written to its temporary file; it
    has read the clock three times more when the store refused a document
    that had been summarised. *)
Theorem upload_stores_what_it_summarises (U : unicode) (sv : services)
    (files : list upload_file) (client_name file_type : pystr)
    (authorization : option pystr) (s : server) :
  fresh_names sv ->
  let r := fst (upload_and_summarize U sv files client_name file_type authorization s) in
  let s' := snd (upload_and_summarize U sv files client_name file_type authorization s) in
  wall_clock (sv_clock s') = wall_clock (sv_clock s) /\
  exists user_id processed left refused,
    sv_summaries s' =
      sv_summaries s ++ map (doc_of user_id client_name file_type) processed /\
    subseq (map ret_filename processed) (map filename files) /\
    sv_files s' = left ++ sv_files s /\ length left <= 1 /\
    reads (sv_clock s') = reads (sv_clock s) + 3 * (length processed + length refused) /\
    length refused <= 1 /\
    (forall summaries, r = Ok summaries ->
       summaries = processed /\ sv_files s' = sv_files s /\
       reads (sv_clock s') = reads (sv_clock s) + 3 * length processed) /\
    ((forall file, In file files -> uploaded sv file) -> sv_files s' = sv_files s) /\
    (forall doc, In doc refused ->
       exists e docs, r = Raise (Exception e) /\ store_set sv docs doc = Throws e) /\
    (processed <> [] ->
     exists a token, authorization = Some a /\ bearer_token a = Some token /\
                     verify_id_token sv token = Returns {| uid := user_id |}).
Proof.
  intros Hfresh. cbv zeta.
  assert (Hnothing : forall e,
    wall_clock (sv_clock (snd (@Raise (list returned) e, s))) = wall_clock (sv_clock s) /\
    exists user_id processed left refused,
      sv_summaries (snd (@Raise (list returned) e, s)) =
        sv_summaries s ++ map (doc_of user_id client_name file_type) processed /\
      subseq (map ret_filename processed) (map filename files) /\
      sv_files (snd (@Raise (list returned) e, s)) = left ++ sv_files s /\
      length left <= 1 /\
      reads (sv_clock (snd (@Raise (list returned) e, s)))
        = reads (sv_clock s) + 3 * (length processed + length refused) /\
      length refused <= 1 /\
      (forall summaries, fst (@Raise (list returned) e, s) = Ok summaries ->
         summaries = processed /\
         sv_files (snd (@Raise (list returned) e, s)) = sv_files s /\
         reads (sv_clock (snd (@Raise (list returned) e, s)))
           = reads (sv_clock s) + 3 * length processed) /\
      ((forall file, In file files -> uploaded sv file) ->
       sv_files (snd (@Raise (list returned) e, s)) = sv_files s) /\
      (forall doc, In doc refused ->
         exists e' docs, fst (@Raise (list returned) e, s) = Raise (Exception e') /\
                         store_set sv docs doc = Throws e') /\
      (processed <> [] ->
       exists a token, authorization = Some a /\ bearer_token a = Some token /\
                       verify_id_token sv token = Returns {| uid := user_id |})).
  { intros e. cbn [fst snd]. split; trivial.
    exists [], [], [], []. cbn [map length app]. rewrite app_nil_r.
    split; trivial. split; [apply subseq_nil_l|]. split; trivial. split; [lia|].
    split; [lia|]. split; [lia|]. split; [discriminate|]. split; trivial.
    split; [intros doc []|now intros H]. }
  unfold upload_and_summarize, verify_firebase_token.
  destruct authorization as [a|]; [|apply Hnothing].
  destruct (nonempty a && starts_with (s2u "Bearer ") a); [|apply Hnothing].
  destruct (bearer_token a) as [token|] eqn:Eb; [|apply Hnothing].
  destruct (verify_id_token sv token) as [[user_id]|e] eqn:Ev; [|apply Hnothing].
  cbn [uid].
  pose proof (process_files_spec U sv user_id client_name file_type files Hfresh [] s) as H.
  cbv zeta in H.
  destruct H as [Hw [processed [left [refused [H1 [H2 [H3 [H4 [H5 [H6 [H7 [H8 H9]]]]]]]]]]]].
  split; [exact Hw|].
  exists user_id, processed, left, refused.
  split; [exact H1|]. split; [exact H2|]. split; [exact H3|]. split; [exact H4|].
  split; [exact H5|]. split; [exact H6|].
  split; [|split; [|split; [exact H9|]]].
  - intros out Hout. destruct (H7 out Hout) as [-> [Hl Hr]].
    rewrite H3, H5, Hl, Hr. cbn [app length]. split; trivial. split; trivial.
    f_equal. f_equal. lia.
  - intros Hall. rewrite H3. destruct left as [|l left]; [reflexivity|].
    destruct H8 as [file [Hin Hno]]; [discriminate|].
    exfalso. apply Hno, Hall, Hin.
  - intros _. now exists a, token.
Qed.

Lemma demo_fresh : fresh_names demo_services.
Proof. intros names. apply list_max_fresh. Qed.

(** Three uploads, one of them blank: two documents are stored and no
    temporary file is left.  An upload that cannot be read ends the
    request, with the first document stored and an empty temporary file
    left behind. *)
Lemma upload_stores_what_it_summarises_demo :
  let run := upload_and_summarize ascii_only demo_services (firstn 3 demo_files)
               (s2u "Asha") (s2u "Court Order")
               (Some (authorization_header (s2u "token-of-u1"))) demo_server in
  let broken := upload_and_summarize ascii_only demo_services broken_files
                  (s2u "Asha") (s2u "Court Order")
                  (Some (authorization_header (s2u "token-of-u1"))) demo_server in
  option_map (map ret_filename) (without_exception (fst run))
    = Some [s2u "a.pdf"; s2u "b.pdf"] /\
  map (fun d => (doc_user_id d, doc_filename d, doc_case_status d))
      (sv_summaries (snd run))
    = [(s2u "u1", s2u "a.pdf", Closed); (s2u "u1", s2u "b.pdf", Closed)] /\
  sv_files (snd run) = [(3, [1%N])] /\
  fst broken = Raise (Exception (s2u "client disconnected")) /\
  map doc_filename (sv_summaries (snd broken)) = [s2u "a.pdf"] /\
  sv_files (snd broken) = [(4, []); (3, [1%N])].
Proof.
  cbv zeta. split; [vm_compute; reflexivity|]. split; [vm_compute; reflexivity|].
  split; [|vm_compute; repeat split].
  destruct (upload_stores_what_it_summarises ascii_only demo_services
              (firstn 3 demo_files) (s2u "Asha") (s2u "Court Order")
              (Some (authorization_header (s2u "token-of-u1"))) demo_server
              demo_fresh)
    as [_ [user_id [processed [left [refused [_ [_ [_ [_ [_ [_ [_ [Hall _]]]]]]]]]]]]].
  apply Hall. intros file Hin. unfold uploaded.
  cbv [demo_files firstn In] in Hin.
  destruct Hin as [<-|[<-|[<-|[]]]]; eexists; (split; [reflexivity|vm_compute; reflexivity]).
Defined.

(** A request is not all or nothing.  What was stored for the first files
    stays stored when a later file ends the request with an exception: the
    collection after the whole request starts with the collection after the
    first files alone, the temporary files and the clock apart. *)
Theorem failure_keeps_earlier_documents (U : unicode) (sv : services)
    (files1 files2 : list upload_file) (client_name file_type : pystr)
    (authorization : option pystr) (s s1 : server) (summaries1 : list returned) :
  fresh_names sv ->
  upload_and_summarize U sv files1 client_name file_type authorization s
    = (Ok summaries1, s1) ->
  let whole := upload_and_summarize U sv (files1 ++ files2) client_name file_type
                 authorization s in
  (exists more, sv_summaries (snd whole) = sv_summaries s1 ++ more) /\
  length (sv_summaries s1) = length (sv_summaries s) + length summaries1 /\
  (forall summaries, fst whole = Ok summaries ->
     exists more, summaries = summaries1 ++ more).
Proof.
  intros Hfresh H1. cbv zeta. revert H1.
  unfold upload_and_summarize, verify_firebase_token.
  destruct authorization as [a|]; [|discriminate].
  destruct (nonempty a && starts_with (s2u "Bearer ") a); [|discriminate].
  destruct (bearer_token a) as [token|]; [|discriminate].
  destruct (verify_id_token sv token) as [[user_id]|e]; [|discriminate].
  cbn [uid]. intros H1. rewrite process_files_app, H1.
  pose proof (process_files_spec U sv user_id client_name file_type files2 Hfresh
                summaries1 s1) as H2.
  pose proof (process_files_spec U sv user_id client_name file_type files1 Hfresh
                [] s) as H0.
  cbv zeta in H0, H2. rewrite H1 in H0. cbn [fst snd] in H0.
  destruct H0 as [_ [p1 [l1 [r1 [Hd1 [_ [_ [_ [_ [_ [Ho1 _]]]]]]]]]]].
  destruct H2 as [_ [p2 [l2 [r2 [Hd2 [_ [_ [_ [_ [_ [Ho2 _]]]]]]]]]]].
  split; [now exists (map (doc_of user_id client_name file_type) p2)|].
  split.
  - rewrite Hd1, length_app, length_map.
    now rewrite (proj1 (Ho1 summaries1 eq_refl)).
  - intros out Hout. exists p2. now apply Ho2.
Qed.

Lemma failure_keeps_earlier_documents_demo :
  let whole := upload_and_summarize ascii_only demo_services demo_files
                 (s2u "Asha") (s2u "Court Order")
                 (Some (authorization_header (s2u "token-of-u1"))) demo_server in
  fst whole = Raise (HTTPException 400 (s2u "Could not extract text from the PDF.")) /\
  map doc_filename (sv_summaries (snd whole)) = [s2u "a.pdf"; s2u "b.pdf"] /\
  exists s1 summaries1 more,
    upload_and_summarize ascii_only demo_services (firstn 3 demo_files)
      (s2u "Asha") (s2u "Court Order")
      (Some (authorization_header (s2u "token-of-u1"))) demo_server = (Ok summaries1, s1) /\
    sv_summaries (snd whole) = sv_summaries s1 ++ more.
Proof.
  cbv zeta. split; [vm_compute; reflexivity|]. split; [vm_compute; reflexivity|].
  destruct (upload_and_summarize ascii_only demo_services (firstn 3 demo_files)
              (s2u "Asha") (s2u "Court Order")
              (Some (authorization_header (s2u "token-of-u1"))) demo_server)
    as [[summaries1|e] s1] eqn:E1.
  2:{ vm_compute in E1. discriminate E1. }
  destruct (failure_keeps_earlier_documents ascii_only demo_services
              (firstn 3 demo_files) (skipn 3 demo_files) (s2u "Asha") (s2u "Court Order")
              (Some (authorization_header (s2u "token-of-u1"))) demo_server s1 summaries1
              demo_fresh E1) as [[more Hmore] _].
  exists s1, summaries1, more. split; [reflexivity|exact Hmore].
Defined.

(** ** Renaming the characters a pattern cannot tell apart *)

Section Rename.
Variable U : unicode.
Variable ic : bool.
Variable CL : list cclass.
Variable f : N -> N.
Hypothesis Hf : cannot_tell U ic CL f.

Lemma rename_class (cs : cclass) (c : N) :
In cs CL -> in_class U ic cs (f c) = in_class U ic cs c.
Proof. intros H. now apply (proj1 (Hf c)). Qed.

Lemma rename_boundary (s : mstate) :
at_word_boundary U (rename_state f s) = at_word_boundary U s.
Proof.
unfold at_word_boundary, rename_state. cbn [st_prev st_rest].
f_equal.
- destruct (st_prev s) as [c|]; cbn; trivial. apply (Hf c).
- destruct (st_rest s) as [|c l]; cbn; trivial. apply (Hf c).
Qed.

Lemma rep_greedy_rename (A B : Type) (F : A -> B) (cs : cclass)
  (k : mstate -> option B) (k0 : mstate -> option A) :
In cs CL ->
(forall s1, k (rename_state f s1) = option_map F (k0 s1)) ->
forall rest lo hi prev pos caps,
  rep_greedy U ic cs lo hi (option_map f prev) (map f rest) pos (rename_caps f caps) k =
  option_map F (rep_greedy U ic cs lo hi prev rest pos caps k0).
Proof.
intros Hcs Hk. induction rest as [|c rest IH]; intros lo hi prev pos caps.
- cbn [map rep_greedy]. destruct lo; trivial.
  apply (Hk {| st_prev := prev; st_rest := []; st_pos := pos; st_caps := caps |}).
- cbn [map rep_greedy]. rewrite (rename_class cs c Hcs).
  assert (Hstop :
    match lo with
    | 0 => k {| st_prev := option_map f prev; st_rest := f c :: map f rest;
                st_pos := pos; st_caps := rename_caps f caps |}
    | S _ => None
    end =
    option_map F
      match lo with
      | 0 => k0 {| st_prev := prev; st_rest := c :: rest; st_pos := pos;
                   st_caps := caps |}
      | S _ => None
      end).
  { destruct lo; trivial.
    apply (Hk {| st_prev := prev; st_rest := c :: rest; st_pos := pos;
                 st_caps := caps |}). }
  destruct (hi_allows hi && in_class U ic cs c); [|exact Hstop].
  change (Some (f c)) with (option_map f (Some c)). rewrite IH.
  destruct (rep_greedy U ic cs (pred lo) (hi_pred hi) (Some c) rest (S pos) caps k0);
    [reflexivity|exact Hstop].
Qed.

(** The matcher commutes with the renaming. *)
Lemma rmatch_rename (A B : Type) (F : A -> B) (r : regex) :
incl (classes r) CL ->
forall (k : mstate -> option B) (k0 : mstate -> option A) (s : mstate),
  (forall s1, k (rename_state f s1) = option_map F (k0 s1)) ->
  rmatch U ic r (rename_state f s) k = option_map F (rmatch U ic r s k0).
Proof.
induction r as [|cs|a IHa b IHb|a IHa b IHb|a IHa|lo hi cs|g a IHa| | |];
  intros Hin k k0 s Hk; cbn [rmatch classes] in *.
- apply Hk.
- cbn [rename_state st_rest st_pos st_caps].
  destruct (st_rest s) as [|c rest]; cbn [map]; trivial.
  rewrite (rename_class cs c (Hin cs (or_introl eq_refl))).
  destruct (in_class U ic cs c); trivial.
  apply (Hk {| st_prev := Some c; st_rest := rest; st_pos := S (st_pos s);
               st_caps := st_caps s |}).
- apply IHa; [intros x Hx; apply Hin, in_or_app; now left|].
  intros s1. apply IHb; [intros x Hx; apply Hin, in_or_app; now right|exact Hk].
- rewrite (IHa (fun x Hx => Hin x (in_or_app _ _ x (or_introl Hx))) k k0 s Hk).
  rewrite (IHb (fun x Hx => Hin x (in_or_app _ _ x (or_intror Hx))) k k0 s Hk).
  now destruct (rmatch U ic a s k0).
- rewrite (IHa Hin k k0 s Hk), Hk. now destruct (rmatch U ic a s k0).
- cbn [rename_state st_prev st_rest st_pos st_caps].
  apply rep_greedy_rename; [apply Hin; now left|exact Hk].
- apply IHa; [exact Hin|]. intros s1.
  cbn [rename_state st_prev st_rest st_pos st_caps].
  rewrite firstn_map.
  apply (Hk {| st_prev := st_prev s1; st_rest := st_rest s1; st_pos := st_pos s1;
               st_caps := (g, firstn (st_pos s1 - st_pos s) (st_rest s)) :: st_caps s1 |}).
- rewrite rename_boundary, Hk. now destruct (at_word_boundary U s).
- cbn [rename_state st_pos]. rewrite Hk. now destruct (st_pos s).
- rewrite Hk. cbn [rename_state st_rest].
  destruct (st_rest s) as [|c [|d l]]; cbn [map]; trivial.
  rewrite (proj2 (proj2 (Hf c))). now destruct (c =? 10)%N.
Qed.

Variable r : regex.
Hypothesis Hr : incl (classes r) CL.

Lemma match_at_rename (prev : option N) (rest : pystr) (pos : nat) :
match_at U ic r (option_map f prev) (map f rest) pos =
option_map (rename_match f) (match_at U ic r prev rest pos).
Proof.
unfold match_at.
change {| st_prev := option_map f prev; st_rest := map f rest; st_pos := pos;
          st_caps := [] |}
  with (rename_state f {| st_prev := prev; st_rest := rest; st_pos := pos;
                          st_caps := [] |}).
apply rmatch_rename; [exact Hr|].
intros s1. cbn [option_map rename_state rename_match st_pos st_caps m_start m_end
                  m_text m_caps].
now rewrite firstn_map.
Qed.

Lemma finditer_rename (rest : pystr) : forall prev pos skip,
finditer_from U ic r (option_map f prev) (map f rest) pos skip =
map (rename_match f) (finditer_from U ic r prev rest pos skip).
Proof.
induction rest as [|c rest IH]; intros prev pos skip.
- destruct skip; cbn [map finditer_from]; trivial.
  pose proof (match_at_rename prev [] pos) as Hm. cbn [map] in Hm. rewrite Hm.
  now destruct (match_at U ic r prev [] pos).
- destruct skip; cbn [map finditer_from].
  + pose proof (match_at_rename prev (c :: rest) pos) as Hm. cbn [map] in Hm. rewrite Hm.
    destruct (match_at U ic r prev (c :: rest) pos) as [m|]; cbn [option_map map].
    * f_equal. apply (IH (Some c)).
    * apply (IH (Some c)).
  + apply (IH (Some c)).
Qed.

Lemma search_rename (rest : pystr) : forall prev pos,
search_from U ic r (option_map f prev) (map f rest) pos =
option_map (rename_match f) (search_from U ic r prev rest pos).
Proof.
induction rest as [|c rest IH]; intros prev pos; cbn [map search_from].
- pose proof (match_at_rename prev [] pos) as Hm. cbn [map] in Hm. rewrite Hm.
  now destruct (match_at U ic r prev [] pos).
- pose proof (match_at_rename prev (c :: rest) pos) as Hm. cbn [map] in Hm. rewrite Hm.
  destruct (match_at U ic r prev (c :: rest) pos); trivial.
  apply (IH (Some c)).
Qed.

Lemma sub_rename (repl repl0 : rematch -> pystr) (rest : pystr) :
(forall m, repl (rename_match f m) = map f (repl0 m)) ->
forall prev pos skip,
  sub_from U ic r repl (option_map f prev) (map f rest) pos skip =
  map f (sub_from U ic r repl0 prev rest pos skip).
Proof.
intros Hrepl. induction rest as [|c rest IH]; intros prev pos skip.
- destruct skip; cbn [map sub_from]; trivial.
  pose proof (match_at_rename prev [] pos) as Hm. cbn [map] in Hm. rewrite Hm.
  destruct (match_at U ic r prev [] pos); cbn [option_map map]; trivial.
  now rewrite Hrepl, !app_nil_r.
- destruct skip; cbn [map sub_from].
  + pose proof (match_at_rename prev (c :: rest) pos) as Hm. cbn [map] in Hm. rewrite Hm.
    destruct (match_at U ic r prev (c :: rest) pos) as [m|]; cbn [option_map map].
    * rewrite Hrepl, map_app. f_equal.
      change (m_len (rename_match f m)) with (m_len m).
      destruct (m_len m); cbn [map]; [f_equal|]; apply (IH (Some c)).
    * f_equal. apply (IH (Some c)).
  + apply (IH (Some c)).
Qed.
End Rename.

(** *** Renaming digits *)

Lemma ascii_digit_In (c : N) : ascii_digit c = true -> In c ascii_digits.
Proof.
  unfold ascii_digit. rewrite andb_true_iff, !N.leb_le. intros [H1 H2].
  change ascii_digits with (map N.of_nat (seq 48 10)). apply N_in_range. lia.
Qed.

Lemma rename_digits_digit (ds : pystr) (c : N) :
  forallb ascii_digit ds = true -> ascii_digit c = true ->
  ascii_digit (rename_digits ds c) = true.
Proof.
  intros Hds Hc. unfold rename_digits. rewrite Hc.
  destruct (nth_in_or_default (N.to_nat (c - 48)) ds c) as [H|H].
  - rewrite forallb_forall in Hds. now apply Hds.
  - now rewrite H.
Qed.

Lemma rename_digits_other (ds : pystr) (c : N) :
  ascii_digit c = false -> rename_digits ds c = c.
Proof. intros H. unfold rename_digits. now rewrite H. Qed.

Lemma digit_facts (U : unicode) (c : N) :
  ascii_digit c = true ->
  is_word U c = true /\ is_decimal U c = true /\ is_space c = false /\
  blank c = false /\ (c =? 10)%N = false /\ (c =? 44)%N = false /\ replace_one c = c.
Proof.
  intros H. apply ascii_digit_In in H. cbv [ascii_digits In] in H.
  repeat (destruct H as [<-|H]; [repeat split; reflexivity|]). destruct H.
Qed.

Lemma digit_blind_class (U : unicode) (ic : bool) (CL : list cclass) (cs : cclass)
    (a b : N) :
  digit_blind U ic CL = true -> In cs CL ->
  ascii_digit a = true -> ascii_digit b = true ->
  in_class U ic cs a = in_class U ic cs b.
Proof.
  intros Hb Hcs Ha Hb'. unfold digit_blind in Hb.
  rewrite forallb_forall in Hb. specialize (Hb cs Hcs). rewrite forallb_forall in Hb.
  pose proof (Hb a (ascii_digit_In a Ha)) as H1.
  pose proof (Hb b (ascii_digit_In b Hb')) as H2.
  apply eqb_prop in H1, H2. congruence.
Qed.

(** A pattern that does not tell the digits apart does not see a renaming
    of the digits by digits. *)
Lemma rename_digits_cannot_tell (U : unicode) (ic : bool) (CL : list cclass) (ds : pystr) :
  digit_blind U ic CL = true -> forallb ascii_digit ds = true ->
  cannot_tell U ic CL (rename_digits ds).
Proof.
  intros Hb Hds c. destruct (ascii_digit c) eqn:Ec.
  - pose proof (rename_digits_digit ds c Hds Ec) as Hd.
    destruct (digit_facts U c Ec) as [Hw [_ [_ [_ [Hn _]]]]].
    destruct (digit_facts U _ Hd) as [Hw' [_ [_ [_ [Hn' _]]]]].
    split; [|split; congruence].
    intros cs Hcs. now apply (digit_blind_class U ic CL).
  - rewrite (rename_digits_other ds c Ec). auto.
Qed.

Lemma rename_digits_layout (ds : pystr) :
  forallb ascii_digit ds = true -> keeps_layout (rename_digits ds).
Proof.
  intros Hds. split; [reflexivity|]. split; [reflexivity|]. intros c.
  destruct (ascii_digit c) eqn:Ec.
  - pose proof (rename_digits_digit ds c Hds Ec) as Hd.
    destruct (digit_facts ascii_only c Ec) as [_ [_ [H1 [H2 [H3 [_ H4]]]]]].
    destruct (digit_facts ascii_only _ Hd) as [_ [_ [H1' [H2' [H3' [_ H4']]]]]].
    rewrite H4, H4'. repeat split; congruence.
  - rewrite (rename_digits_other ds c Ec). repeat split.
    assert (Hr : ascii_digit (replace_one c) = false).
    { destruct (replace_one_cases c) as [->|[->| ->]]; auto. }
    now rewrite (rename_digits_other ds _ Hr).
Qed.

(** *** Normalisation of a renamed text *)

Section Layout.
Variable f : N -> N.
Hypothesis Hf : keeps_layout f.

Lemma squeeze_rename (s : pystr) : forall b,
squeeze b (map f s) = map f (squeeze b s).
Proof.
destruct Hf as [H32 [_ H]].
induction s as [|c s IH]; intros b; cbn [map squeeze]; trivial.
rewrite (proj1 (proj2 (H c))).
destruct (blank c); destruct b; cbn [map]; rewrite ?IH, ?H32; reflexivity.
Qed.

Lemma nl_in_run_rename (s : pystr) : nl_in_run (map f s) = nl_in_run s.
Proof.
destruct Hf as [_ [_ H]].
induction s as [|c s IH]; cbn [map nl_in_run]; trivial.
now rewrite (proj1 (H c)), (proj1 (proj2 (proj2 (H c)))), IH.
Qed.

Lemma trimnl_rename (s : pystr) : forall b,
trimnl b (map f s) = map f (trimnl b s).
Proof.
destruct Hf as [_ [H10 H]].
induction s as [|c s IH]; intros b; trivial.
change (map f (c :: s)) with (f c :: map f s).
cbn [trimnl]. change (f c :: map f s) with (map f (c :: s)).
rewrite nl_in_run_rename, (proj1 (H c)).
destruct b; destruct (is_space c); cbn [andb];
  try destruct (nl_in_run (c :: s)); cbn [map]; rewrite ?IH, ?H10; reflexivity.
Qed.

Lemma lstrip_rename (s : pystr) : lstrip (map f s) = map f (lstrip s).
Proof.
destruct Hf as [_ [_ H]].
induction s as [|c s IH]; cbn [map lstrip]; trivial.
rewrite (proj1 (H c)). now destruct (is_space c).
Qed.

Lemma strip_rename (s : pystr) : strip (map f s) = map f (strip s).
Proof.
unfold strip. now rewrite lstrip_rename, <- map_rev, lstrip_rename, map_rev.
Qed.

Lemma normalize_rename (U : unicode) (s : pystr) :
_normalize_text U (map f s) = map f (_normalize_text U s).
Proof.
rewrite !normalize_text_eq, !replace_all_map.
rewrite <- strip_rename, <- trimnl_rename, <- squeeze_rename. do 3 f_equal.
rewrite !map_map. apply map_ext. intros c. apply (proj2 (proj2 Hf) c).
Qed.
End Layout.

(** ** Texts that differ in their digits only *)

Lemma lookup_cap_rename (f : N -> N) (g : nat) (caps : list (nat * pystr)) :
  lookup_cap g (rename_caps f caps) = option_map (map f) (lookup_cap g caps).
Proof.
  induction caps as [|[g' v] caps IH]; cbn [rename_caps map lookup_cap fst snd]; trivial.
  destruct (Nat.eqb g g'); trivial.
Qed.

Lemma group_rename (f : N -> N) (m : rematch) (g : nat) :
  group (rename_match f m) g = option_map (map f) (group m g).
Proof. unfold group. apply lookup_cap_rename. Qed.

Lemma truthy_rename (f : N -> N) (o : option pystr) :
  truthy (option_map (map f) o) = truthy o.
Proof. destruct o as [[|c l]|]; reflexivity. Qed.

Lemma group_or_empty_rename (f : N -> N) (m : rematch) (g : nat) :
  group_or_empty (rename_match f m) g = map f (group_or_empty m g).
Proof.
  unfold group_or_empty. rewrite group_rename. now destruct (group m g).
Qed.

Lemma is_range_match_rename (f : N -> N) (m : rematch) :
  is_range_match (rename_match f m) = is_range_match m.
Proof. unfold is_range_match. now rewrite !group_rename, !truthy_rename. Qed.

Lemma sorted_set_opt (o : option date) : sorted_dates (date_set (opt_list o)) = opt_list o.
Proof. destruct o; reflexivity. Qed.

Section Digits.
Variable U : unicode.
Variable ds : pystr.
Hypothesis Hds : forallb ascii_digit ds = true.

Lemma date_pattern_blind (ic : bool) :
digit_blind U ic (classes date_pattern) = true /\
digit_blind U ic (classes ordinal_re) = true /\
digit_blind U ic (classes year_re) = true.
Proof. destruct ic; vm_compute; repeat split. Qed.

Lemma finditer_digits (sample : pystr) :
re_finditer U true date_pattern (map (rename_digits ds) sample) =
map (rename_match (rename_digits ds)) (re_finditer U true date_pattern sample).
Proof.
unfold re_finditer.
apply (finditer_rename U true (classes date_pattern) (rename_digits ds)
         (rename_digits_cannot_tell U true _ ds (proj1 (date_pattern_blind true)) Hds)
         date_pattern (incl_refl _) sample None 0 0).
Qed.

Lemma ordinal_digits (raw : pystr) :
re_sub U true ordinal_re ordinal_repl (map (rename_digits ds) raw) =
map (rename_digits ds) (re_sub U true ordinal_re ordinal_repl raw).
Proof.
unfold re_sub.
apply (sub_rename U true (classes ordinal_re) (rename_digits ds)
         (rename_digits_cannot_tell U true _ ds
            (proj1 (proj2 (date_pattern_blind true))) Hds)
         ordinal_re (incl_refl _) ordinal_repl ordinal_repl raw
         (fun m => group_or_empty_rename _ m 1) None 0 0).
Qed.

Lemma year_search_digits (sample : pystr) :
re_search U false year_re (map (rename_digits ds) sample) =
option_map (rename_match (rename_digits ds)) (re_search U false year_re sample).
Proof.
unfold re_search.
apply (search_rename U false (classes year_re) (rename_digits ds)
         (rename_digits_cannot_tell U false _ ds
            (proj2 (proj2 (date_pattern_blind false))) Hds)
         year_re (incl_refl _) sample None 0).
Qed.

(** The dates of a text, from what the date pattern does on a sample with
  other digits. *)
Lemma unique_sorted_of_sample (sample raw : pystr) :
single_plain_match U sample = Some raw ->
unique_sorted_dates U (map (rename_digits ds) sample) =
opt_list (_parse_one_date U (replace_char 44 [32%N] (map (rename_digits ds) raw))).
Proof.
unfold single_plain_match, unique_sorted_dates, found_dates.
rewrite (normalize_rename _ (rename_digits_layout ds Hds)), finditer_digits.
destruct (re_finditer U true date_pattern (_normalize_text U sample)) as [|m [|m' l]];
  try discriminate.
destruct (is_range_match m) eqn:Er; [discriminate|]. cbn [negb andb].
destruct (pystr_eqb _ _) eqn:Es; [|discriminate]. intros [= <-].
apply pystr_eqb_eq in Es.
cbn [map flat_map]. rewrite app_nil_r.
unfold dates_of_match. fold (is_range_match (rename_match (rename_digits ds) m)).
rewrite is_range_match_rename, Er.
change (m_text (rename_match (rename_digits ds) m))
  with (map (rename_digits ds) (m_text m)).
fold ordinal_repl. rewrite ordinal_digits, Es. apply sorted_set_opt.
Qed.

Lemma unique_sorted_of_sample_none (sample : pystr) :
re_finditer U true date_pattern (_normalize_text U sample) = [] ->
unique_sorted_dates U (map (rename_digits ds) sample) = [].
Proof.
intros H. unfold unique_sorted_dates, found_dates.
now rewrite (normalize_rename _ (rename_digits_layout ds Hds)), finditer_digits, H.
Qed.
End Digits.

Lemma digit_char_ascii (n : N) : ascii_digit (digit_char n) = true.
Proof.
  pose proof (digit_char_range n) as H. unfold ascii_digit.
  apply andb_true_iff. rewrite !N.leb_le. lia.
Qed.

Lemma date_digits_ascii (d : date) : forallb ascii_digit (date_digits d) = true.
Proof.
  unfold date_digits, two_digits, four_digits. cbn [app forallb].
  now rewrite !digit_char_ascii.
Qed.

Lemma month_cases (m : N) (P : N -> Prop) :
  (1 <= m <= 12)%N ->
  P 1%N -> P 2%N -> P 3%N -> P 4%N -> P 5%N -> P 6%N ->
  P 7%N -> P 8%N -> P 9%N -> P 10%N -> P 11%N -> P 12%N -> P m.
Proof.
  intros Hm. assert (Hin : In m (map N.of_nat (seq 1 12))) by (apply N_in_range; lia).
  cbv [seq map] in Hin. intros.
  repeat (destruct Hin as [<-|Hin]; [assumption|]). destruct Hin.
Qed.

Lemma printed_is_sample (U : unicode) (d : date) :
  (1 <= month d <= 12)%N ->
  pretty d = map (rename_digits (date_digits d)) (sample_date (month d)) /\
  single_plain_match U (sample_date (month d)) = Some (sample_date (month d)).
Proof.
  intros Hm. destruct d as [y m dd]. cbn [month] in *.
  apply (month_cases m (fun m =>
    pretty {| year := y; month := m; day := dd |} =
      map (rename_digits (date_digits {| year := y; month := m; day := dd |}))
          (sample_date m) /\
    single_plain_match U (sample_date m) = Some (sample_date m))); trivial;
    (split; [reflexivity|vm_compute; reflexivity]).
Qed.

(** A printed date is recognised: for every date of the calendar of a year
    from 1000 on, the text made of the date as the output lists print it
    has this date as its only date, so that the extraction applied to one
    of its own output strings gives the string back, in the lists and in
    the timeline.  (The digits of a year below 1000 depend on the C
    library, see [strftime_from].) *)
Theorem printed_date_is_extracted (U : unicode) (d : date) (w : world) :
  valid_date d = true -> (1000 <= year d)%N ->
  unique_sorted_dates U (pretty d) = [d] /\
  all_unique_sorted (fst (extract_and_classify_dates U (pretty d) w)) = [pretty d] /\
  total_unique (fst (extract_and_classify_dates U (pretty d) w)) = 1 /\
  map ev_date (fst (generate_case_timeline U (pretty d) w)) = [pretty d].
Proof.
  intros Hv Hy.
  assert (Hm : (1 <= month d <= 12)%N).
  { pose proof (valid_date_bounds d Hv). lia. }
  destruct (printed_is_sample U d Hm) as [Hp Hs].
  assert (Hu : unique_sorted_dates U (pretty d) = [d]).
  { rewrite Hp at 1.
    rewrite (unique_sorted_of_sample U _ (date_digits_ascii d) _ _ Hs), <- Hp.
    rewrite (replace_char_id _ _ _ (pretty_no_comma U d Hv)).
    now rewrite (parse_pretty U d Hv). }
  split; [exact Hu|].
  rewrite extract_eq, timeline_eq. cbn [fst all_unique_sorted total_unique].
  rewrite Hu. cbn [map length]. repeat split.
Qed.

Lemma printed_date_is_extracted_nov_15 :
  unique_sorted_dates ascii_only (s2u "15 November 2025")
    = [{| year := 2025; month := 11; day := 15 |}].
Proof.
  apply (printed_date_is_extracted ascii_only
           {| year := 2025; month := 11; day := 15 |} (frozen epoch)); [reflexivity|].
  cbn [year]. lia.
Defined.

(** ** The context of an event is found by the year *)

Lemma year_of_printed (U : unicode) (d : date) :
  valid_date d = true ->
  exists m, re_search U false year_re (pretty d) = Some m /\
            group m 1 = Some (four_digits (year d)).
Proof.
  intros Hv.
  assert (Hm : (1 <= month d <= 12)%N).
  { pose proof (valid_date_bounds d Hv). lia. }
  destruct (printed_is_sample U d Hm) as [Hp _]. rewrite Hp.
  rewrite (year_search_digits U _ (date_digits_ascii d)).
  assert (Hs : exists m0, re_search U false year_re (sample_date (month d)) = Some m0 /\
                          group m0 1 = Some (s2u "2345")).
  { apply (month_cases (month d) (fun m =>
      exists m0, re_search U false year_re (sample_date m) = Some m0 /\
                 group m0 1 = Some (s2u "2345"))); trivial;
      (eexists; split; [vm_compute; reflexivity|reflexivity]). }
  destruct Hs as [m0 [Hs Hg]]. rewrite Hs. cbn [option_map].
  eexists. split; [reflexivity|]. rewrite group_rename, Hg. reflexivity.
Qed.

Lemma event_context_year (U : unicode) (clean : pystr) (now : date) (d : date) :
  valid_date d = true ->
  event_context (event_of U clean now (pretty d)) =
  context_of_year U clean (four_digits (year d)).
Proof.
  intros Hv. destruct (year_of_printed U d Hv) as [m [Hs Hg]].
  unfold event_of, context_of_year. cbn [event_context]. rewrite Hs, Hg. reflexivity.
Qed.

Lemma timeline_event_date (U : unicode) (T : pystr) (w : world) (e : event) :
  In e (fst (generate_case_timeline U T w)) ->
  exists d, valid_date d = true /\ _to_date U (ev_date e) = d /\
            e = event_of U (_normalize_text U T) (wall_clock w (S (reads w))) (pretty d).
Proof.
  rewrite timeline_eq. cbn [fst]. intros He.
  apply in_map_iff in He. destruct He as [s [<- Hs]].
  apply in_map_iff in Hs. destruct Hs as [d [<- Hd]].
  pose proof (unique_sorted_valid U T d Hd) as Hv.
  exists d. rewrite event_of_date, (to_date_pretty U d Hv). auto.
Qed.

(** The context of an event is found by the year of its date alone: for a
    date of the text of a year from 1000 on, the context of its event is
    the window around the first place of the normalised text where this
    year stands as a word, whatever date stands there.  So two events of
    the same text for dates of the same such year always show the same
    context. *)
Theorem events_of_one_year_share_their_context (U : unicode) (T : pystr) (w : world)
    (e1 e2 : event) (d1 d2 : date) :
  In e1 (fst (generate_case_timeline U T w)) ->
  In e2 (fst (generate_case_timeline U T w)) ->
  In d1 (unique_sorted_dates U T) -> In d2 (unique_sorted_dates U T) ->
  ev_date e1 = pretty d1 -> ev_date e2 = pretty d2 ->
  (1000 <= year d1)%N -> year d1 = year d2 ->
  event_context e1 = event_context e2 /\
  event_context e1 = context_of_year U (_normalize_text U T) (four_digits (year d1)).
Proof.
  intros H1 H2 Hi1 Hi2 E1 E2 Hy1 Hy.
  pose proof (unique_sorted_valid U T d1 Hi1) as Hv1.
  pose proof (unique_sorted_valid U T d2 Hi2) as Hv2.
  destruct (timeline_event_date U T w e1 H1) as [x1 [_ [_ Hx1]]].
  destruct (timeline_event_date U T w e2 H2) as [x2 [_ [_ Hx2]]].
  assert (Hp1 : pretty x1 = pretty d1) by (rewrite <- E1, Hx1; reflexivity).
  assert (Hp2 : pretty x2 = pretty d2) by (rewrite <- E2, Hx2; reflexivity).
  rewrite Hx1, Hx2, Hp1, Hp2.
  rewrite (event_context_year U _ _ d1 Hv1), (event_context_year U _ _ d2 Hv2).
  rewrite Hy. split; reflexivity.
Qed.

Lemma events_of_one_year_share_their_context_2025 :
  exists e1 e2,
    map ev_date (fst (generate_case_timeline ascii_only two_dates_of_2025 (frozen epoch)))
      = [ev_date e1; ev_date e2] /\
    ev_date e1 = s2u "10 January 2025" /\ ev_date e2 = s2u "15 November 2025" /\
    event_context e1 = event_context e2.
Proof.
  assert (E : exists e1 e2,
            fst (generate_case_timeline ascii_only two_dates_of_2025 (frozen epoch))
              = [e1; e2] /\
            ev_date e1 = s2u "10 January 2025" /\ ev_date e2 = s2u "15 November 2025").
  { vm_compute. do 2 eexists. repeat split. }
  destruct E as [e1 [e2 [E [Hd1 Hd2]]]]. exists e1, e2.
  assert (H1 : In e1 (fst (generate_case_timeline ascii_only two_dates_of_2025
                             (frozen epoch)))) by (rewrite E; left; reflexivity).
  assert (H2 : In e2 (fst (generate_case_timeline ascii_only two_dates_of_2025
                             (frozen epoch)))) by (rewrite E; right; left; reflexivity).
  assert (Hu : unique_sorted_dates ascii_only two_dates_of_2025
               = [{| year := 2025; month := 1; day := 10 |};
                  {| year := 2025; month := 11; day := 15 |}])
    by (vm_compute; reflexivity).
  split; [rewrite E; reflexivity|]. split; [exact Hd1|]. split; [exact Hd2|].
  apply (events_of_one_year_share_their_context ascii_only two_dates_of_2025
           (frozen epoch) e1 e2
           {| year := 2025; month := 1; day := 10 |}
           {| year := 2025; month := 11; day := 15 |} H1 H2).
  - rewrite Hu. left. reflexivity.
  - rewrite Hu. right. left. reflexivity.
  - exact Hd1.
  - exact Hd2.
  - cbn [year]. lia.
  - reflexivity.
Defined.

(** ** Days written as ordinals *)

Lemma rename_no_digit (ds s : pystr) :
  forallb (fun c => negb (ascii_digit c)) s = true -> map (rename_digits ds) s = s.
Proof.
  induction s as [|c s IH]; cbn [forallb map]; trivial.
  rewrite andb_true_iff. intros [Hc Hs]. apply negb_true_iff in Hc.
  now rewrite (rename_digits_other ds c Hc), IH.
Qed.

Lemma month_name_no_digit (m : N) :
  (1 <= m <= 12)%N -> forallb (fun c => negb (ascii_digit c)) (month_name m) = true.
Proof.
  intros Hm.
  apply (month_cases m (fun m =>
    forallb (fun c => negb (ascii_digit c)) (month_name m) = true)); trivial.
Qed.

Lemma suffix_no_digit (suffix : pystr) :
  In suffix ordinal_suffixes -> forallb (fun c => negb (ascii_digit c)) suffix = true.
Proof.
  intros Hs. cbv [ordinal_suffixes map In] in Hs.
  repeat (destruct Hs as [<-|Hs]; [reflexivity|]). destruct Hs.
Qed.

Lemma its_digits_ascii (a b y : N) :
  ascii_digit a = true -> ascii_digit b = true ->
  forallb ascii_digit (its_digits a b y) = true.
Proof.
  intros Ha Hb. unfold its_digits, four_digits. cbn [app forallb].
  now rewrite Ha, Hb, !digit_char_ascii.
Qed.

Lemma month_year_parsed (U : unicode) (y m : N) :
  (1 <= y <= 9999)%N -> (1 <= m <= 12)%N ->
  opt_list (_parse_one_date U (replace_char 44 [32%N]
              (month_name m ++ 32%N :: four_digits y))) = [first_of y m].
Proof.
  intros Hy Hm. rewrite replace_char_id.
  - now rewrite (parse_full_fragment U y m Hy Hm).
  - destruct (month_name_head U m Hm) as [c [tl [_ [_ [Hc _]]]]].
    rewrite forallb_app, Hc. cbn [forallb four_digits andb].
    now rewrite !digit_char_not_comma.
Qed.

Lemma ordinal_samples (U : unicode) (m : N) (suffix : pystr) :
  (1 <= m <= 12)%N -> In suffix ordinal_suffixes ->
  let month := month_name m in
  let sample_year := s2u "2345" in
  let raw := month ++ 32%N :: sample_year in
  single_plain_match U (ordinal_day_first (s2u "01") suffix month sample_year) = Some raw /\
  single_plain_match U (ordinal_day_first (s2u "1") suffix month sample_year) = Some raw /\
  re_finditer U true date_pattern
    (_normalize_text U (ordinal_month_first (s2u "01") suffix month sample_year)) = [] /\
  re_finditer U true date_pattern
    (_normalize_text U (ordinal_month_first (s2u "1") suffix month sample_year)) = [].
Proof.
  intros Hm Hs. cbv zeta.
  apply (month_cases m (fun m =>
    single_plain_match U (ordinal_day_first (s2u "01") suffix (month_name m) (s2u "2345"))
      = Some (month_name m ++ 32%N :: s2u "2345") /\
    single_plain_match U (ordinal_day_first (s2u "1") suffix (month_name m) (s2u "2345"))
      = Some (month_name m ++ 32%N :: s2u "2345") /\
    re_finditer U true date_pattern
      (_normalize_text U (ordinal_month_first (s2u "01") suffix (month_name m) (s2u "2345")))
      = [] /\
    re_finditer U true date_pattern
      (_normalize_text U (ordinal_month_first (s2u "1") suffix (month_name m) (s2u "2345")))
      = [])); trivial;
    cbv [ordinal_suffixes map In] in Hs;
    repeat (destruct Hs as [<-|Hs]; [vm_compute; repeat split|]); destruct Hs.
Qed.

(** The texts with the digits [a], [b] and those of the year [y] are the
    samples with their digits renamed. *)
Lemma ordinal_texts (a b y m : N) (suffix : pystr) :
  (1 <= m <= 12)%N -> In suffix ordinal_suffixes ->
  let f := rename_digits (its_digits a b y) in
  let month := month_name m in
  ordinal_day_first [a; b] suffix month (four_digits y)
    = map f (ordinal_day_first (s2u "01") suffix month (s2u "2345")) /\
  ordinal_day_first [b] suffix month (four_digits y)
    = map f (ordinal_day_first (s2u "1") suffix month (s2u "2345")) /\
  ordinal_month_first [a; b] suffix month (four_digits y)
    = map f (ordinal_month_first (s2u "01") suffix month (s2u "2345")) /\
  ordinal_month_first [b] suffix month (four_digits y)
    = map f (ordinal_month_first (s2u "1") suffix month (s2u "2345")) /\
  month ++ 32%N :: four_digits y = map f (month ++ 32%N :: s2u "2345").
Proof.
  intros Hm Hs. cbv zeta. unfold ordinal_day_first, ordinal_month_first.
  pose proof (rename_no_digit (its_digits a b y) _ (month_name_no_digit m Hm)) as H1.
  pose proof (rename_no_digit (its_digits a b y) _ (suffix_no_digit suffix Hs)) as H2.
  repeat split;
    repeat (rewrite ?map_app, ?H1, ?H2; cbn [map]; rewrite ?H1, ?H2); reflexivity.
Qed.

(** A day written as an ordinal is not read.  For every one or two digits,
    every suffix [st], [nd], [rd] or [th], every month and every year, the
    mention of the form [15th November 2025] is read as the month and the
    year alone, that is as the first day of the month (which is what the
    list of dates then prints), and the mention of the form
    [November 15th, 2025] is not read at all. *)
Theorem ordinal_day_is_not_read (U : unicode) (a b y m : N) (suffix : pystr) (w : world) :
  ascii_digit a = true -> ascii_digit b = true ->
  (1 <= y <= 9999)%N -> (1 <= m <= 12)%N ->
  In suffix ordinal_suffixes ->
  let month := month_name m in
  let year := four_digits y in
  unique_sorted_dates U (ordinal_day_first [a; b] suffix month year) = [first_of y m] /\
  unique_sorted_dates U (ordinal_day_first [b] suffix month year) = [first_of y m] /\
  unique_sorted_dates U (ordinal_month_first [a; b] suffix month year) = [] /\
  unique_sorted_dates U (ordinal_month_first [b] suffix month year) = [] /\
  all_unique_sorted
    (fst (extract_and_classify_dates U (ordinal_day_first [a; b] suffix month year) w))
    = map pretty [first_of y m] /\
  total_unique
    (fst (extract_and_classify_dates U (ordinal_month_first [a; b] suffix month year) w))
    = 0.
Proof.
  intros Ha Hb Hy Hm Hs. cbv zeta.
  destruct (ordinal_texts a b y m suffix Hm Hs) as [T1 [T2 [T3 [T4 T5]]]].
  destruct (ordinal_samples U m suffix Hm Hs) as [S1 [S2 [S3 S4]]].
  pose proof (its_digits_ascii a b y Ha Hb) as Hd.
  assert (H1 : unique_sorted_dates U
                 (ordinal_day_first [a; b] suffix (month_name m) (four_digits y))
               = [first_of y m]).
  { rewrite T1, (unique_sorted_of_sample U _ Hd _ _ S1), <- T5.
    now apply month_year_parsed. }
  assert (H2 : unique_sorted_dates U
                 (ordinal_day_first [b] suffix (month_name m) (four_digits y))
               = [first_of y m]).
  { rewrite T2, (unique_sorted_of_sample U _ Hd _ _ S2), <- T5.
    now apply month_year_parsed. }
  assert (H3 : unique_sorted_dates U
                 (ordinal_month_first [a; b] suffix (month_name m) (four_digits y)) = []).
  { rewrite T3. now apply unique_sorted_of_sample_none. }
  assert (H4 : unique_sorted_dates U
                 (ordinal_month_first [b] suffix (month_name m) (four_digits y)) = []).
  { rewrite T4. now apply unique_sorted_of_sample_none. }
  split; [exact H1|]. split; [exact H2|]. split; [exact H3|]. split; [exact H4|].
  rewrite !extract_eq. cbn [fst all_unique_sorted total_unique]. rewrite H1, H3.
  split; reflexivity.
Qed.

Lemma ordinal_day_is_not_read_15th :
  unique_sorted_dates ascii_only (s2u "15th November 2025") = [first_of 2025 11] /\
  unique_sorted_dates ascii_only (s2u "November 15th, 2025") = [] /\
  all_unique_sorted
    (fst (extract_and_classify_dates ascii_only (s2u "15th November 2025") (frozen epoch)))
    = [s2u "01 November 2025"].
Proof.
  destruct (ordinal_day_is_not_read ascii_only 49 53 2025 11 (s2u "th") (frozen epoch)
              eq_refl eq_refl ltac:(lia) ltac:(lia)
              (or_intror (or_intror (or_intror (or_introl eq_refl)))))
    as [H1 [_ [H3 [_ [H5 _]]]]].
  split; [exact H1|]. split; [exact H3|exact H5].
Defined.

(** ** A month and a year without a day *)

Section Groups.
Variable U : unicode.
Variable ic : bool.
Variable A : Type.



End Groups.











(** ** Numeric dates *)

Lemma field_cases (P : pystr -> N -> Prop) :
  (forall n, In n (map N.of_nat (seq 0 100)) -> P (two_digits n) n) ->
  (forall n, In n (map N.of_nat (seq 0 10)) -> P [digit_char n] n) ->
  forall n F, In F (field_texts n) -> P F n.
Proof.
  intros H2 H1 n F. unfold field_texts.
  destruct (N.ltb_spec n 10).
  - intros [<-|[<-|[]]]; [apply H2|apply H1]; apply N_in_range; lia.
  - destruct (N.ltb_spec n 100); [|intros []].
    intros [<-|[]]. apply H2. apply N_in_range; lia.
Qed.

(** One case of a stage: the matcher is run on the known characters. *)
Ltac run_numeric_stage K :=
  cbv -[Nat.add Nat.sub firstn];
  repeat match goal with
  | |- context [firstn (S (S ?p) - ?p) _] => replace (S (S p) - p) with 2 by lia
  | |- context [firstn (S ?p - ?p) _] => replace (S p - p) with 1 by lia
  end;
  cbn [firstn Nat.add]; split_on_continuation K; reflexivity.

Ltac each_separator H :=
  cbv [separators In] in H; destruct H as [<-|[<-|[<-|[]]]].

Ltac each_number H tac :=
  cbv [seq map] in H; repeat (destruct H as [<-|H]; [tac|]); destruct H.

Lemma field_shape (n : N) (F : pystr) :
  In F (field_texts n) ->
  (n < 100)%N /\ (F = two_digits n \/ (n < 10)%N /\ F = [digit_char n]).
Proof.
  unfold field_texts.
  destruct (N.ltb_spec n 10); [|destruct (N.ltb_spec n 100)].
  - intros [<-|[<-|[]]]; (split; [lia|]); [left|right]; auto.
  - intros [<-|[]]. split; [lia|now left].
  - intros [].
Qed.

Lemma field_head (n : N) (F : pystr) :
  In F (field_texts n) -> exists t, F = digit_char (n / 10) :: t \/ F = digit_char n :: t.
Proof.
  intros HF. destruct (field_shape n F HF) as [_ [->|[_ ->]]]; eexists; [left|right];
    reflexivity.
Qed.

Lemma digit_below_ten (n : N) : In (n mod 10)%N (map N.of_nat (seq 0 10)).
Proof.
  pose proof (N.mod_upper_bound n 10 ltac:(lia)) as H. revert H.
  generalize (n mod 10)%N. intros x Hx.
  apply in_map_iff. exists (N.to_nat x). split; [apply N2Nat.id|].
  apply in_seq. lia.
Qed.

Section NumericStages.
Variable U : unicode.
Variable A : Type.

(** [%d] and the separator of the format, on a field and a separator. *)
Lemma day_sep_stage (n : N) (F : pystr) (s c : N) :
In F (field_texts n) -> In s separators -> In c separators ->
forall (K : mstate -> option A) (tl : pystr) prev pos caps,
  rmatch U true re_d
    {| st_prev := prev; st_rest := F ++ s :: tl; st_pos := pos; st_caps := caps |}
    (fun s1 => rmatch U true (chr c) s1 K)
  = if day_ok n && (s =? c)%N
    then K {| st_prev := Some s; st_rest := tl; st_pos := S (length F + pos);
              st_caps := (G_d, F) :: caps |}
    else None.
Proof.
intros HF Hs Hc K tl prev pos caps. revert n F HF.
each_separator Hs; each_separator Hc;
  (apply field_cases; intros n Hn; each_number Hn ltac:(run_numeric_stage K)).
Qed.

(** [%m] and the separator of the format, on a field and a separator. *)
Lemma month_sep_stage (n : N) (F : pystr) (s c : N) :
In F (field_texts n) -> In s separators -> In c separators ->
forall (K : mstate -> option A) (tl : pystr) prev pos caps,
  rmatch U true re_m
    {| st_prev := prev; st_rest := F ++ s :: tl; st_pos := pos; st_caps := caps |}
    (fun s1 => rmatch U true (chr c) s1 K)
  = if month_ok n && (s =? c)%N
    then K {| st_prev := Some s; st_rest := tl; st_pos := S (length F + pos);
              st_caps := (G_m, F) :: caps |}
    else None.
Proof.
intros HF Hs Hc K tl prev pos caps. revert n F HF.
each_separator Hs; each_separator Hc;
  (apply field_cases; intros n Hn; each_number Hn ltac:(run_numeric_stage K)).
Qed.

(** [%d] and whitespace: a separator is not whitespace. *)
Lemma day_space_stage (n : N) (F : pystr) (s : N) :
In F (field_texts n) -> In s separators ->
forall (K : mstate -> option A) (tl : pystr) prev pos caps,
  rmatch U true re_d
    {| st_prev := prev; st_rest := F ++ s :: tl; st_pos := pos; st_caps := caps |}
    (fun s1 => rmatch U true ws_plus s1 K) = None.
Proof.
intros HF Hs K tl prev pos caps. revert n F HF.
each_separator Hs;
  (apply field_cases; intros n Hn; each_number Hn ltac:(run_numeric_stage K)).
Qed.

(** A month name does not start with a digit. *)
Lemma name_on_digit (n : N) :
forall (K : mstate -> option A) (tl : pystr) prev pos caps,
  rmatch U true re_B
    {| st_prev := prev; st_rest := digit_char n :: tl; st_pos := pos; st_caps := caps |} K
    = None /\
  rmatch U true re_b
    {| st_prev := prev; st_rest := digit_char n :: tl; st_pos := pos; st_caps := caps |} K
    = None.
Proof.
intros K tl prev pos caps. unfold digit_char.
pose proof (digit_below_ten n) as Hx. revert Hx. generalize (n mod 10)%N. intros x Hx.
each_number Hx ltac:(split; vm_compute; reflexivity).
Qed.

Lemma name_stage (n : N) (F : pystr) :
In F (field_texts n) ->
forall (K : mstate -> option A) (tl : pystr) prev pos caps,
  rmatch U true re_B
    {| st_prev := prev; st_rest := F ++ tl; st_pos := pos; st_caps := caps |} K = None /\
  rmatch U true re_b
    {| st_prev := prev; st_rest := F ++ tl; st_pos := pos; st_caps := caps |} K = None.
Proof.
intros HF K tl prev pos caps.
destruct (field_head n F HF) as [t [-> | ->]]; apply name_on_digit.
Qed.

(** A year does not fit in a field and a separator. *)
Lemma year_on_field_stage (n : N) (F : pystr) (s : N) :
In F (field_texts n) -> In s separators ->
forall (K : mstate -> option A) (tl : pystr) prev pos caps,
  rmatch U true re_Y
    {| st_prev := prev; st_rest := F ++ s :: tl; st_pos := pos; st_caps := caps |} K
  = None.
Proof.
intros HF Hs K tl prev pos caps. revert n F HF.
each_separator Hs;
  (apply field_cases; intros n Hn; each_number Hn ltac:(run_numeric_stage K)).
Qed.
End NumericStages.

Lemma rmatch_seq5 {A : Type} (U : unicode) (ic : bool) (r1 r2 r3 r4 r5 : regex)
    (s : mstate) (K : mstate -> option A) :
  rmatch U ic (seqs [r1; r2; r3; r4; r5]) s K
  = rmatch U ic r1 s (fun s1 => rmatch U ic r2 s1 (fun s2 =>
      rmatch U ic r3 s2 (fun s3 => rmatch U ic r4 s3 (fun s4 => rmatch U ic r5 s4 K)))).
Proof. reflexivity. Qed.

Lemma rmatch_seq3 {A : Type} (U : unicode) (ic : bool) (r1 r2 r3 : regex)
    (s : mstate) (K : mstate -> option A) :
  rmatch U ic (seqs [r1; r2; r3]) s K
  = rmatch U ic r1 s (fun s1 => rmatch U ic r2 s1 (fun s2 => rmatch U ic r3 s2 K)).
Proof. reflexivity. Qed.

Lemma first_parse_cons (U : unicode) (ds f : pystr) (fs : list pystr) :
  first_parse U ds (f :: fs)
  = match strptime U ds f with Some d => Some d | None => first_parse U ds fs end.
Proof. reflexivity. Qed.

Lemma fmts_eq :
  fmts = [s2u "%d %B %Y"; s2u "%B %d %Y"; s2u "%d %b %Y"; s2u "%b %d %Y";
          s2u "%B %Y"; s2u "%b %Y"; s2u "%Y-%m-%d";
          s2u "%d/%m/%Y"; s2u "%m/%d/%Y"; s2u "%d-%m-%Y"; s2u "%m-%d-%Y";
          s2u "%d.%m.%Y"; s2u "%m.%d.%Y"].
Proof. reflexivity. Qed.

Section NumericParse.
Variable U : unicode.

Lemma py_int_field (n : N) (F : pystr) :
In F (field_texts n) -> py_int U F = Some n.
Proof.
intros HF. destruct (field_shape n F HF) as [Hn [->|[Hn' ->]]].
- now apply py_int_two_digits.
- unfold py_int. rewrite strip_id.
  + cbn [int_digits]. rewrite decimal_digit_char. cbn [N.mul N.add].
    now rewrite N.mod_small.
  + apply digit_char_not_space.
  + apply digit_char_not_space.
Qed.

Lemma field_no_comma (n : N) (F : pystr) :
In F (field_texts n) -> forallb (fun x => negb (x =? 44)%N) F = true.
Proof.
intros HF. destruct (field_shape n F HF) as [_ [->|[_ ->]]];
  cbn [two_digits forallb]; now rewrite !digit_char_not_comma.
Qed.

Lemma separator_no_comma (s : N) : In s separators -> negb (s =? 44)%N = true.
Proof. intros H. each_separator H; reflexivity. Qed.

(** Cleaning leaves a numeric date as it is. *)
Lemma numeric_clean (a b y : N) (Fa Fb : pystr) (s1 s2 : N) :
In Fa (field_texts a) -> In Fb (field_texts b) ->
In s1 separators -> In s2 separators ->
replace_char 44 [32%N] (numeric_text Fa s1 Fb s2 (four_digits y))
  = numeric_text Fa s1 Fb s2 (four_digits y) /\
strip (numeric_text Fa s1 Fb s2 (four_digits y))
  = numeric_text Fa s1 Fb s2 (four_digits y).
Proof.
intros Ha Hb H1 H2. split.
- apply replace_char_id. unfold numeric_text.
  rewrite forallb_app. cbn [forallb]. rewrite forallb_app. cbn [forallb four_digits].
  rewrite (field_no_comma _ _ Ha), (field_no_comma _ _ Hb),
    (separator_no_comma _ H1), (separator_no_comma _ H2), !digit_char_not_comma.
  reflexivity.
- apply strip_id.
  + destruct (field_head _ _ Ha) as [t [->| ->]]; apply digit_char_not_space.
  + unfold numeric_text, four_digits.
    change (Fa ++ s1 :: Fb ++ s2 ::
              [digit_char (y / 1000); digit_char (y / 100); digit_char (y / 10);
               digit_char y])
      with (Fa ++ s1 :: Fb ++
              (s2 :: [digit_char (y / 1000); digit_char (y / 100); digit_char (y / 10)])
              ++ [digit_char y]).
    rewrite !app_comm_cons, !app_assoc, rev_app_distr.
    apply digit_char_not_space.
Qed.

(** The formats that start with a month name, or with a day and a space,
  or with the year, do not read a numeric date. *)
Lemma strptime_not_numeric (a b y : N) (Fa Fb : pystr) (s1 s2 : N) (fmt : pystr) :
In Fa (field_texts a) -> In s1 separators ->
In fmt (firstn 7 fmts) ->
strptime U (numeric_text Fa s1 Fb s2 (four_digits y)) fmt = None.
Proof.
intros Ha H1 Hf. unfold numeric_text.
cbv [fmts firstn map In] in Hf.
destruct Hf as [<-|[<-|[<-|[<-|[<-|[<-|[<-|[]]]]]]]];
  unfold strptime, re_match, match_at.
- assert (E : format_regex (s2u "%d %B %Y") = seqs [re_d; ws_plus; re_B; ws_plus; re_Y]) by reflexivity.
  rewrite E, rmatch_seq5. now rewrite (day_space_stage U _ _ _ _ Ha H1).
- assert (E : format_regex (s2u "%B %d %Y") = seqs [re_B; ws_plus; re_d; ws_plus; re_Y]) by reflexivity.
  rewrite E, rmatch_seq5. now rewrite (proj1 (name_stage U _ _ _ Ha _ _ _ _ _)).
- assert (E : format_regex (s2u "%d %b %Y") = seqs [re_d; ws_plus; re_b; ws_plus; re_Y]) by reflexivity.
  rewrite E, rmatch_seq5. now rewrite (day_space_stage U _ _ _ _ Ha H1).
- assert (E : format_regex (s2u "%b %d %Y") = seqs [re_b; ws_plus; re_d; ws_plus; re_Y]) by reflexivity.
  rewrite E, rmatch_seq5. now rewrite (proj2 (name_stage U _ _ _ Ha _ _ _ _ _)).
- assert (E : format_regex (s2u "%B %Y") = seqs [re_B; ws_plus; re_Y]) by reflexivity.
  rewrite E, rmatch_seq3. now rewrite (proj1 (name_stage U _ _ _ Ha _ _ _ _ _)).
- assert (E : format_regex (s2u "%b %Y") = seqs [re_b; ws_plus; re_Y]) by reflexivity.
  rewrite E, rmatch_seq3. now rewrite (proj2 (name_stage U _ _ _ Ha _ _ _ _ _)).
- assert (E : format_regex (s2u "%Y-%m-%d") = seqs [re_Y; chr 45; re_m; chr 45; re_d]) by reflexivity.
  rewrite E, rmatch_seq5. now rewrite (year_on_field_stage U _ _ _ _ Ha H1).
Qed.

Lemma make_date_fields (y m d : N) :
day_ok d && month_ok m = false -> make_date y m d = None.
Proof.
unfold make_date, valid_ymd, day_ok, month_ok. intros H.
destruct (1 <=? m)%N eqn:E1; [|now rewrite !andb_false_r].
destruct (m <=? 12)%N eqn:E2; [|now rewrite !andb_false_r].
destruct (1 <=? d)%N eqn:E3; [|now rewrite !andb_false_r].
rewrite !andb_true_r, andb_true_l in H. apply N.leb_gt in H.
assert (Hle : (days_in_month y m <= 31)%N).
{ unfold days_in_month.
  repeat match goal with
  | |- context [match ?x with _ => _ end] => destruct x
  end; lia. }
destruct (N.leb_spec d (days_in_month y m)); [lia|].
now rewrite !andb_false_r.
Qed.

(** A format with the day first: the two separators must be the one of
  the format, and the date is made of the first field as the day. *)
Lemma strptime_day_first (a b y : N) (Fa Fb : pystr) (s1 s2 c : N) (fmt : pystr) :
format_regex fmt = seqs [re_d; chr c; re_m; chr c; re_Y] ->
In Fa (field_texts a) -> In Fb (field_texts b) ->
In s1 separators -> In s2 separators -> In c separators -> (y < 10000)%N ->
strptime U (numeric_text Fa s1 Fb s2 (four_digits y)) fmt
  = if (s1 =? c)%N && (s2 =? c)%N then make_date y b a else None.
Proof.
intros Hfmt Ha Hb H1 H2 Hc Hy.
unfold strptime, re_match, match_at. rewrite Hfmt. unfold numeric_text.
rewrite rmatch_seq5.
rewrite (day_sep_stage U _ a Fa s1 c Ha H1 Hc).
destruct (day_ok a) eqn:Da; cbn [andb];
  [|destruct ((s1 =? c)%N && (s2 =? c)%N); trivial;
    symmetry; apply make_date_fields; now rewrite Da].
destruct (s1 =? c)%N eqn:E1; cbn [andb]; [|reflexivity].
rewrite (month_sep_stage U _ b Fb s2 c Hb H2 Hc).
destruct (month_ok b) eqn:Mb; cbn [andb];
  [|destruct (s2 =? c)%N; trivial;
    symmetry; apply make_date_fields; now rewrite Mb, andb_false_r].
destruct (s2 =? c)%N eqn:E2; [|reflexivity].
unfold four_digits at 1.
rewrite year_stage by apply is_decimal_digit_char.
cbn [m_end st_pos].
match goal with
| |- context [Nat.eqb ?x ?n] =>
    replace (Nat.eqb x n) with true
      by (symmetry; apply Nat.eqb_eq; rewrite length_app; cbn [length];
          rewrite length_app; cbn [length four_digits]; lia)
end.
unfold group. cbn [m_caps st_caps lookup_cap G_Y G_m G_B G_b G_d Nat.eqb].
fold (four_digits y).
rewrite py_int_four_digits by trivial.
rewrite (py_int_field _ _ Ha), (py_int_field _ _ Hb).
reflexivity.
Qed.

(** A format with the month first. *)
Lemma strptime_month_first (a b y : N) (Fa Fb : pystr) (s1 s2 c : N) (fmt : pystr) :
format_regex fmt = seqs [re_m; chr c; re_d; chr c; re_Y] ->
In Fa (field_texts a) -> In Fb (field_texts b) ->
In s1 separators -> In s2 separators -> In c separators -> (y < 10000)%N ->
strptime U (numeric_text Fa s1 Fb s2 (four_digits y)) fmt
  = if (s1 =? c)%N && (s2 =? c)%N then make_date y a b else None.
Proof.
intros Hfmt Ha Hb H1 H2 Hc Hy.
unfold strptime, re_match, match_at. rewrite Hfmt. unfold numeric_text.
rewrite rmatch_seq5.
rewrite (month_sep_stage U _ a Fa s1 c Ha H1 Hc).
destruct (month_ok a) eqn:Ma; cbn [andb];
  [|destruct ((s1 =? c)%N && (s2 =? c)%N); trivial;
    symmetry; apply make_date_fields; now rewrite Ma, andb_false_r].
destruct (s1 =? c)%N eqn:E1; cbn [andb]; [|reflexivity].
rewrite (day_sep_stage U _ b Fb s2 c Hb H2 Hc).
destruct (day_ok b) eqn:Db; cbn [andb];
  [|destruct (s2 =? c)%N; trivial;
    symmetry; apply make_date_fields; now rewrite Db].
destruct (s2 =? c)%N eqn:E2; [|reflexivity].
unfold four_digits at 1.
rewrite year_stage by apply is_decimal_digit_char.
cbn [m_end st_pos].
match goal with
| |- context [Nat.eqb ?x ?n] =>
    replace (Nat.eqb x n) with true
      by (symmetry; apply Nat.eqb_eq; rewrite length_app; cbn [length];
          rewrite length_app; cbn [length four_digits]; lia)
end.
unfold group. cbn [m_caps st_caps lookup_cap G_Y G_m G_B G_b G_d Nat.eqb].
fold (four_digits y).
rewrite py_int_four_digits by trivial.
rewrite (py_int_field _ _ Ha), (py_int_field _ _ Hb).
reflexivity.
Qed.

Lemma parse_numeric (a b y : N) (Fa Fb : pystr) (s1 s2 : N) :
In Fa (field_texts a) -> In Fb (field_texts b) ->
In s1 separators -> In s2 separators -> (y < 10000)%N ->
_parse_one_date U (numeric_text Fa s1 Fb s2 (four_digits y))
  = day_first_reading a b y s1 s2.
Proof.
intros Ha Hb H1 H2 Hy. unfold _parse_one_date. cbv zeta.
destruct (numeric_clean a b y Fa Fb s1 s2 Ha Hb H1 H2) as [-> ->].
rewrite fmts_eq, !first_parse_cons.
rewrite !(strptime_not_numeric a b y Fa Fb s1 s2 _ Ha H1)
  by (cbv [fmts firstn map In]; tauto).
rewrite (strptime_day_first a b y Fa Fb s1 s2 47 (s2u "%d/%m/%Y") eq_refl),
  (strptime_month_first a b y Fa Fb s1 s2 47 (s2u "%m/%d/%Y") eq_refl),
  (strptime_day_first a b y Fa Fb s1 s2 45 (s2u "%d-%m-%Y") eq_refl),
  (strptime_month_first a b y Fa Fb s1 s2 45 (s2u "%m-%d-%Y") eq_refl),
  (strptime_day_first a b y Fa Fb s1 s2 46 (s2u "%d.%m.%Y") eq_refl),
  (strptime_month_first a b y Fa Fb s1 s2 46 (s2u "%m.%d.%Y") eq_refl);
  trivial; try (cbv [separators In]; tauto).
unfold day_first_reading.
each_separator H1; each_separator H2; cbn [N.eqb Pos.eqb andb];
  destruct (make_date y b a); trivial; destruct (make_date y a b); trivial.
Qed.
End NumericParse.

Lemma numeric_digits_ascii (a b y : N) : forallb ascii_digit (numeric_digits a b y) = true.
Proof.
  unfold numeric_digits, two_digits, four_digits. cbn [app forallb].
  now rewrite !digit_char_ascii.
Qed.

(** The date pattern takes the whole of a numeric sample. *)
Lemma numeric_samples (U : unicode) (two_a two_b : bool) (s1 s2 : N) :
  In s1 separators -> In s2 separators ->
  single_plain_match U (numeric_sample two_a two_b s1 s2)
    = Some (numeric_sample two_a two_b s1 s2).
Proof.
  intros H1 H2. each_separator H1; each_separator H2;
    destruct two_a, two_b; vm_compute; reflexivity.
Qed.

(** A numeric date is a sample with other digits. *)
Lemma numeric_is_sample (a b y : N) (Fa Fb : pystr) (s1 s2 : N) :
  In Fa (field_texts a) -> In Fb (field_texts b) ->
  In s1 separators -> In s2 separators ->
  exists two_a two_b,
    numeric_text Fa s1 Fb s2 (four_digits y)
    = map (rename_digits (numeric_digits a b y)) (numeric_sample two_a two_b s1 s2).
Proof.
  intros Ha Hb H1 H2.
  destruct (field_shape a Fa Ha) as [_ [->|[_ ->]]],
    (field_shape b Fb Hb) as [_ [->|[_ ->]]].
  - exists true, true. each_separator H1; each_separator H2; reflexivity.
  - exists true, false. each_separator H1; each_separator H2; reflexivity.
  - exists false, true. each_separator H1; each_separator H2; reflexivity.
  - exists false, false. each_separator H1; each_separator H2; reflexivity.
Qed.

(** Numeric dates are read with the day first.  A text made of two fields
    of one or two digits and a year of four digits, with a slash, a hyphen
    or a full stop after each field, is read when the two separators are the
    same: as the date with the first field as the day when that is a date
    of the calendar, and with the first field as the month only when it is
    not; with two different separators it is not read.  The extraction finds
    the same in a text that consists of the numeric date. *)
Theorem numeric_date_is_read_day_first (U : unicode) (a b y : N) (Fa Fb : pystr)
    (s1 s2 : N) (w : world) :
  In Fa (field_texts a) -> In Fb (field_texts b) ->
  In s1 separators -> In s2 separators -> (y < 10000)%N ->
  let text := numeric_text Fa s1 Fb s2 (four_digits y) in
  let read := if (s1 =? s2)%N
              then match make_date y b a with
                   | Some d => Some d
                   | None => make_date y a b
                   end
              else None in
  _parse_one_date U text = read /\
  unique_sorted_dates U text = opt_list read /\
  all_unique_sorted (fst (extract_and_classify_dates U text w)) = map pretty (opt_list read).
Proof.
  intros Ha Hb H1 H2 Hy. cbv zeta. fold (day_first_reading a b y s1 s2).
  pose proof (parse_numeric U a b y Fa Fb s1 s2 Ha Hb H1 H2 Hy) as Hp.
  assert (Hu : unique_sorted_dates U (numeric_text Fa s1 Fb s2 (four_digits y))
               = opt_list (day_first_reading a b y s1 s2)).
  { destruct (numeric_is_sample a b y Fa Fb s1 s2 Ha Hb H1 H2) as (ta & tb & Ht).
    rewrite Ht at 1.
    rewrite (unique_sorted_of_sample U _ (numeric_digits_ascii a b y) _ _
               (numeric_samples U ta tb s1 s2 H1 H2)), <- Ht.
    rewrite (proj1 (numeric_clean a b y Fa Fb s1 s2 Ha Hb H1 H2)), Hp. reflexivity. }
  split; [exact Hp|]. split; [exact Hu|].
  rewrite extract_eq. cbn [fst all_unique_sorted]. rewrite Hu. reflexivity.
Qed.

Lemma numeric_date_is_read_day_first_3_april :
  unique_sorted_dates ascii_only (s2u "03/04/2025")
    = [{| year := 2025; month := 4; day := 3 |}].
Proof.
  exact (proj1 (proj2 (numeric_date_is_read_day_first ascii_only 3 4 2025
                         (s2u "03") (s2u "04") 47 47 (frozen epoch)
                         (or_introl eq_refl) (or_introl eq_refl)
                         (or_introl eq_refl) (or_introl eq_refl) eq_refl))).
Defined.

(** ** ISO dates *)

Section IsoStages.
Variable U : unicode.
Variable A : Type.

Lemma chr_on_digit (c n : N) :
In c separators -> in_class U true [CChr c] (digit_char n) = false.
Proof.
intros Hc. unfold digit_char.
pose proof (digit_below_ten n) as Hx. revert Hx. generalize (n mod 10)%N. intros x Hx.
each_separator Hc; each_number Hx ltac:(reflexivity).
Qed.

Lemma sep_on_digit (c n : N) (K : mstate -> option A) (tl : pystr) prev pos caps :
In c separators ->
rmatch U true (chr c)
  {| st_prev := prev; st_rest := digit_char n :: tl; st_pos := pos; st_caps := caps |} K
= None.
Proof.
intros Hc. unfold chr. cbn [rmatch st_rest]. now rewrite chr_on_digit.
Qed.

Lemma sep_here (c : N) (K : mstate -> option A) (tl : pystr) prev pos caps :
rmatch U true (chr c)
  {| st_prev := prev; st_rest := c :: tl; st_pos := pos; st_caps := caps |} K
= K {| st_prev := Some c; st_rest := tl; st_pos := S pos; st_caps := caps |}.
Proof.
unfold chr. cbn [rmatch st_rest st_pos st_caps in_class existsb item_has].
now rewrite N.eqb_refl.
Qed.

Lemma ws_on_digit (n : N) (K : mstate -> option A) (tl : pystr) prev pos caps :
rmatch U true ws_plus
  {| st_prev := prev; st_rest := digit_char n :: tl; st_pos := pos; st_caps := caps |} K
= None.
Proof.
unfold ws_plus, plus.
cbn [rmatch rep_greedy st_rest st_pos st_caps st_prev in_class existsb item_has hi_allows].
now rewrite digit_char_not_space.
Qed.

(** [%d] and [%m] take one or two characters: what follows them stands
  before the second or the third digit of a year. *)
Lemma day_on_digits (n1 n2 n3 : N) (K : mstate -> option A) (tl : pystr) prev pos caps :
(forall prev n tl pos caps,
   K {| st_prev := prev; st_rest := digit_char n :: tl; st_pos := pos; st_caps := caps |}
   = None) ->
rmatch U true re_d
  {| st_prev := prev; st_rest := digit_char n1 :: digit_char n2 :: digit_char n3 :: tl;
     st_pos := pos; st_caps := caps |} K = None.
Proof.
intros HK. unfold re_d, d19, chr.
cbn [alts rmatch st_rest st_pos st_caps st_prev].
repeat match goal with
| |- context [in_class U true ?cs ?c] => destruct (in_class U true cs c)
end; rewrite ?HK; reflexivity.
Qed.

Lemma month_on_digits (n1 n2 n3 : N) (K : mstate -> option A) (tl : pystr) prev pos caps :
(forall prev n tl pos caps,
   K {| st_prev := prev; st_rest := digit_char n :: tl; st_pos := pos; st_caps := caps |}
   = None) ->
rmatch U true re_m
  {| st_prev := prev; st_rest := digit_char n1 :: digit_char n2 :: digit_char n3 :: tl;
     st_pos := pos; st_caps := caps |} K = None.
Proof.
intros HK. unfold re_m, d19, chr.
cbn [alts rmatch st_rest st_pos st_caps st_prev].
repeat match goal with
| |- context [in_class U true ?cs ?c] => destruct (in_class U true cs c)
end; rewrite ?HK; reflexivity.
Qed.

(** [%d] at the end of the text: the two digits of a day of a month are
  taken; of another number only the first digit is, if it is not 0. *)
Lemma day_end_stage (n : N) (g : mstate -> A) prev pos caps :
(n < 100)%N ->
rmatch U true re_d
  {| st_prev := prev; st_rest := two_digits n; st_pos := pos; st_caps := caps |}
  (fun s => Some (g s))
= if day_ok n then
    Some (g {| st_prev := Some (digit_char n); st_rest := []; st_pos := S (S pos);
               st_caps := (G_d, two_digits n) :: caps |})
  else if (n <? 10)%N then None
  else Some (g {| st_prev := Some (digit_char (n / 10)); st_rest := [digit_char n];
                  st_pos := S pos; st_caps := (G_d, [digit_char (n / 10)]) :: caps |}).
Proof.
intros Hn.
assert (Hin : In n (map N.of_nat (seq 0 100))).
{ apply in_map_iff. exists (N.to_nat n). split; [apply N2Nat.id|]. apply in_seq. lia. }
clear Hn.
each_number Hin ltac:(
  cbv -[Nat.add Nat.sub firstn];
  repeat match goal with
  | |- context [firstn (S (S ?p) - ?p) _] => replace (S (S p) - p) with 2 by lia
  | |- context [firstn (S ?p - ?p) _] => replace (S p - p) with 1 by lia
  end;
  cbn [firstn Nat.add]; reflexivity).
Qed.
End IsoStages.

Section IsoParse.
Variable U : unicode.

Lemma two_digits_field (n : N) : (n < 100)%N -> In (two_digits n) (field_texts n).
Proof.
intros Hn. unfold field_texts.
destruct (N.ltb_spec n 10); [now left|].
destruct (N.ltb_spec n 100); [now left|lia].
Qed.

(** Cleaning leaves an ISO date as it is. *)
Lemma iso_clean (y m d : N) :
replace_char 44 [32%N] (iso_text y m d) = iso_text y m d /\
strip (iso_text y m d) = iso_text y m d.
Proof.
split.
- apply replace_char_id. unfold iso_text, four_digits, two_digits.
  cbn [app forallb]. now rewrite !digit_char_not_comma.
- apply strip_id; unfold iso_text, four_digits, two_digits; cbn [app rev];
    apply digit_char_not_space.
Qed.

(** The formats that do not start with the year do not read an ISO date. *)
Lemma strptime_not_iso (y m d : N) (fmt : pystr) :
In fmt (firstn 6 fmts ++ skipn 7 fmts) ->
strptime U (iso_text y m d) fmt = None.
Proof.
intros Hf. cbv [fmts firstn skipn map In app] in Hf.
unfold strptime, re_match, match_at, iso_text, four_digits. cbn [app].
destruct Hf as [<-|[<-|[<-|[<-|[<-|[<-|[<-|[<-|[<-|[<-|[<-|[<-|[]]]]]]]]]]]]].
- assert (E : format_regex (s2u "%d %B %Y") = seqs [re_d; ws_plus; re_B; ws_plus; re_Y])
    by reflexivity.
  rewrite E, rmatch_seq5, day_on_digits; [reflexivity|].
  intros. apply ws_on_digit.
- assert (E : format_regex (s2u "%B %d %Y") = seqs [re_B; ws_plus; re_d; ws_plus; re_Y])
    by reflexivity.
  rewrite E, rmatch_seq5. now rewrite (proj1 (name_on_digit U _ _ _ _ _ _ _)).
- assert (E : format_regex (s2u "%d %b %Y") = seqs [re_d; ws_plus; re_b; ws_plus; re_Y])
    by reflexivity.
  rewrite E, rmatch_seq5, day_on_digits; [reflexivity|].
  intros. apply ws_on_digit.
- assert (E : format_regex (s2u "%b %d %Y") = seqs [re_b; ws_plus; re_d; ws_plus; re_Y])
    by reflexivity.
  rewrite E, rmatch_seq5. now rewrite (proj2 (name_on_digit U _ _ _ _ _ _ _)).
- assert (E : format_regex (s2u "%B %Y") = seqs [re_B; ws_plus; re_Y]) by reflexivity.
  rewrite E, rmatch_seq3. now rewrite (proj1 (name_on_digit U _ _ _ _ _ _ _)).
- assert (E : format_regex (s2u "%b %Y") = seqs [re_b; ws_plus; re_Y]) by reflexivity.
  rewrite E, rmatch_seq3. now rewrite (proj2 (name_on_digit U _ _ _ _ _ _ _)).
- assert (E : format_regex (s2u "%d/%m/%Y") = seqs [re_d; chr 47; re_m; chr 47; re_Y])
    by reflexivity.
  rewrite E, rmatch_seq5, day_on_digits; [reflexivity|].
  intros. apply sep_on_digit. cbv [separators In]. tauto.
- assert (E : format_regex (s2u "%m/%d/%Y") = seqs [re_m; chr 47; re_d; chr 47; re_Y])
    by reflexivity.
  rewrite E, rmatch_seq5, month_on_digits; [reflexivity|].
  intros. apply sep_on_digit. cbv [separators In]. tauto.
- assert (E : format_regex (s2u "%d-%m-%Y") = seqs [re_d; chr 45; re_m; chr 45; re_Y])
    by reflexivity.
  rewrite E, rmatch_seq5, day_on_digits; [reflexivity|].
  intros. apply sep_on_digit. cbv [separators In]. tauto.
- assert (E : format_regex (s2u "%m-%d-%Y") = seqs [re_m; chr 45; re_d; chr 45; re_Y])
    by reflexivity.
  rewrite E, rmatch_seq5, month_on_digits; [reflexivity|].
  intros. apply sep_on_digit. cbv [separators In]. tauto.
- assert (E : format_regex (s2u "%d.%m.%Y") = seqs [re_d; chr 46; re_m; chr 46; re_Y])
    by reflexivity.
  rewrite E, rmatch_seq5, day_on_digits; [reflexivity|].
  intros. apply sep_on_digit. cbv [separators In]. tauto.
- assert (E : format_regex (s2u "%m.%d.%Y") = seqs [re_m; chr 46; re_d; chr 46; re_Y])
    by reflexivity.
  rewrite E, rmatch_seq5, month_on_digits; [reflexivity|].
  intros. apply sep_on_digit. cbv [separators In]. tauto.
Qed.

(** The ISO format reads an ISO date. *)
Lemma strptime_iso (y m d : N) :
(y < 10000)%N -> (m < 100)%N -> (d < 100)%N ->
strptime U (iso_text y m d) (s2u "%Y-%m-%d") = make_date y m d.
Proof.
intros Hy Hm Hd.
assert (E : format_regex (s2u "%Y-%m-%d") = seqs [re_Y; chr 45; re_m; chr 45; re_d])
  by reflexivity.
unfold strptime, re_match, match_at. rewrite E, rmatch_seq5.
unfold iso_text. unfold four_digits at 1. cbn [app].
rewrite year_stage by apply is_decimal_digit_char.
rewrite sep_here.
rewrite (month_sep_stage U _ m (two_digits m) 45 45 (two_digits_field m Hm)
           ltac:(cbv [separators In]; tauto) ltac:(cbv [separators In]; tauto)).
destruct (month_ok m) eqn:Mm; cbn [andb N.eqb Pos.eqb];
  [|symmetry; apply make_date_fields; now rewrite Mm, andb_false_r].
match goal with
| |- context [rmatch U true re_d
                {| st_prev := ?p; st_rest := _; st_pos := ?q; st_caps := ?c |}
                (fun s' => Some (@?g s'))] =>
    rewrite (day_end_stage U _ d g p q c Hd)
end.
destruct (day_ok d) eqn:Dd.
- cbn [m_end st_pos st_caps st_prev length two_digits four_digits app Nat.add].
  rewrite Nat.eqb_refl.
  unfold group. cbn [m_caps st_caps lookup_cap G_Y G_m G_B G_b G_d Nat.eqb].
  fold (four_digits y). fold (two_digits m). fold (two_digits d).
  rewrite py_int_four_digits by trivial.
  rewrite !py_int_two_digits by trivial.
  reflexivity.
- rewrite (make_date_fields y m d) by now rewrite Dd.
  destruct (d <? 10)%N; [reflexivity|].
  cbn [m_end st_pos st_caps st_prev length two_digits four_digits app Nat.add Nat.eqb].
  reflexivity.
Qed.

Lemma parse_iso (y m d : N) :
(y < 10000)%N -> (m < 100)%N -> (d < 100)%N ->
_parse_one_date U (iso_text y m d) = make_date y m d.
Proof.
intros Hy Hm Hd. unfold _parse_one_date. cbv zeta.
destruct (iso_clean y m d) as [-> ->].
rewrite fmts_eq, !first_parse_cons.
rewrite (strptime_iso y m d Hy Hm Hd).
rewrite !(strptime_not_iso y m d) by (cbv [fmts firstn skipn map In app]; tauto).
now destruct (make_date y m d).
Qed.
End IsoParse.

Lemma iso_digits_ascii (y m d : N) : forallb ascii_digit (iso_digits y m d) = true.
Proof.
  unfold iso_digits, two_digits, four_digits. cbn [app forallb].
  now rewrite !digit_char_ascii.
Qed.

(** The date pattern takes the whole of an ISO sample. *)
Lemma iso_sample (U : unicode) :
  single_plain_match U (s2u "0123-45-67") = Some (s2u "0123-45-67").
Proof. vm_compute. reflexivity. Qed.

Lemma iso_is_sample (y m d : N) :
  iso_text y m d = map (rename_digits (iso_digits y m d)) (s2u "0123-45-67").
Proof. reflexivity. Qed.

(** ISO dates are read as year, month and day.  For every year of four
    digits and every month and day of two digits, the text of the form
    [2025-11-30] is read as that day of that month of that year when it is a
    date of the calendar, and is not read when it is not; the extraction
    finds the same in a text that consists of the ISO date, and prints the
    date it found in the form of its output lists. *)
Theorem iso_date_is_read (U : unicode) (y m d : N) (w : world) :
  (y < 10000)%N -> (m < 100)%N -> (d < 100)%N ->
  _parse_one_date U (iso_text y m d) = make_date y m d /\
  unique_sorted_dates U (iso_text y m d) = opt_list (make_date y m d) /\
  all_unique_sorted (fst (extract_and_classify_dates U (iso_text y m d) w))
    = map pretty (opt_list (make_date y m d)).
Proof.
  intros Hy Hm Hd.
  pose proof (parse_iso U y m d Hy Hm Hd) as Hp.
  assert (Hu : unique_sorted_dates U (iso_text y m d) = opt_list (make_date y m d)).
  { rewrite iso_is_sample at 1.
    rewrite (unique_sorted_of_sample U _ (iso_digits_ascii y m d) _ _ (iso_sample U)),
      <- iso_is_sample.
    rewrite (proj1 (iso_clean y m d)), Hp. reflexivity. }
  split; [exact Hp|]. split; [exact Hu|].
  rewrite extract_eq. cbn [fst all_unique_sorted]. rewrite Hu. reflexivity.
Qed.

Lemma iso_date_is_read_nov_30 :
  all_unique_sorted
    (fst (extract_and_classify_dates ascii_only (s2u "2025-11-30") (frozen epoch)))
    = [s2u "30 November 2025"].
Proof.
  exact (proj2 (proj2 (iso_date_is_read ascii_only 2025 11 30 (frozen epoch)
                         eq_refl eq_refl eq_refl))).
Defined.
